(** * Verification of the xitorch / lintorch differentiation core

    Two source files are embedded:
    - [lintorch/core/editable_module.py]: the editable-object protocol with
      identity-based parameter deduplication and scoped substitution
      (modules [LinTorch] and [Dedup]), and the diagnostic functions that
      walk the attributes of an object (module [Introspection]);
    - [xitorch/integrate/solve_ivp.py]: the IVP front end and the adjoint
      backward pass (module [XiTorch]).

    Python exceptions are values of [exn]; fallible code returns a [result];
    code that mutates [self] threads the object explicitly. *)

From Stdlib Require Import Ascii.
From stdpp Require Import base option list gmap strings pretty sorting.


(** ** Python exceptions and fallible results *)

Inductive exn : Type :=
  | RuntimeError (msg : string)
  | KeyError (key : string)
  | IndexError (msg : string)
  | AttributeError (attr : string)
  | UnboundLocalError (name : string)
  | TypeError (msg : string)
  | UserException (cls : string)
  | BaseExceptionOnly (cls : string).

(** [isinstance(e, Exception)]: everything but the classes that derive from
    [BaseException] directly (KeyboardInterrupt, SystemExit, GeneratorExit). *)
Definition is_Exception (e : exn) : bool :=
  match e with
  | BaseExceptionOnly _ => false
  | _ => true
  end.

Inductive result (A : Type) : Type :=
  | Ok (a : A)
  | Raise (e : exn).
Arguments Ok {A} a.
Arguments Raise {A} e.

#[global] Instance result_ret : MRet result := λ A a, Ok a.
#[global] Instance result_bind : MBind result := λ A B f r,
  match r with
  | Ok a => f a
  | Raise e => Raise e
  end.
#[global] Instance result_fmap : FMap result := λ A B f r,
  match r with
  | Ok a => Ok (f a)
  | Raise e => Raise e
  end.

Definition is_Ok {A} (r : result A) : Prop := ∃ a, r = Ok a.

(** Python indexing [l[k]] with a possibly negative index. *)
Definition py_index {A} (l : list A) (k : Z) : result A :=
  let n := Z.of_nat (length l) in
  let k' := (if decide (k < 0)%Z then k + n else k)%Z in
  if decide (0 ≤ k' < n)%Z then
    match l !! Z.to_nat k' with
    | Some x => Ok x
    | None => Raise (IndexError "list index out of range")
    end
  else Raise (IndexError "list index out of range").

(** Python item assignment [l[k] = x] with a possibly negative index. *)
Definition py_setitem {A} (l : list A) (k : Z) (x : A) : result (list A) :=
  let n := Z.of_nat (length l) in
  let k' := (if decide (k < 0)%Z then k + n else k)%Z in
  if decide (0 ≤ k' < n)%Z then Ok (<[Z.to_nat k' := x]> l)
  else Raise (IndexError "list assignment index out of range").

(** ** lintorch/core/editable_module.py *)

Module LinTorch.

(** A Python object reference as the protocol sees it: [None] or a tensor,
    the tensor identified by its address.  Only identity is inspected by the
    deduplication code. *)
Inductive pyobj : Type :=
  | PyNone
  | Tensor (addr : nat).

#[global] Instance pyobj_eq_dec : EqDecision pyobj.
Proof. solve_decision. Defined.

(** The builtin [id]. *)
Definition py_id (o : pyobj) : nat :=
  match o with
  | PyNone => 0
  | Tensor a => S a
  end.

(** [EditableModule.getparams] and [EditableModule.setparams] are abstract
    methods (their bodies are [pass]); subclasses supply them.  They are the
    interface of the class. *)
Class EditableModule (St : Type) : Type := {
  getparams : St → string → list pyobj;
  setparams : St → string → list pyobj → St * nat;
}.

(** Modelled from the spec: the contract of the abstract methods, which no
    source file implements.  [setParams] "writes tensors back into the
    object's internal state in the same order [getParams] would enumerate
    them" and returns the "count consumed" of an "excessive list". *)
Class Lawful (St : Type) `{EditableModule St} : Prop := {
  getparams_setparams (s : St) (m : string) (ps : list pyobj) :
    length (getparams s m) ≤ length ps →
    getparams (setparams s m ps).1 m = take (length (getparams s m)) ps;
  setparams_count (s : St) (m : string) (ps : list pyobj) :
    (setparams s m ps).2 = length (getparams s m);
}.

(** Modelled from the spec: the same contract for a class whose [getparams]
    may list one attribute at several positions
    ([return [self.a, self.a, self.b]]).  [same_attr m i j] says that
    positions [i] and [j] of the list of [m] read the same attribute.  Such
    positions hold the identical object, and [setparams] "writes tensors
    back into the object's internal state in the same order [getParams]
    would enumerate them" when the positions of one attribute are given one
    object.  [Lawful] is the case where every position has an attribute of
    its own. *)
Class Attributed (St : Type) `{EditableModule St} : Type := {
  same_attr : string → nat → nat → Prop;
  getparams_same_attr (s : St) (m : string) (i j : nat) :
    same_attr m i j → getparams s m !! i = getparams s m !! j;
  setparams_written (s : St) (m : string) (ps : list pyobj) :
    length (getparams s m) ≤ length ps →
    (∀ i j, same_attr m i j → ps !! i = ps !! j) →
    getparams (setparams s m ps).1 m = take (length (getparams s m)) ps;
}.

(** The three dictionaries created together by [_get_unique_params_idxs]. *)
Record caches : Type := {
  _unique_params_idxs : gmap string (list nat);
  _unique_params_maps : gmap string (list (list nat));
  _number_of_params : gmap string nat;
}.

Definition no_entries : caches :=
  {| _unique_params_idxs := ∅; _unique_params_maps := ∅; _number_of_params := ∅ |}.

(** An object: the subclass state and the (lazily created) attributes.
    [attrs = None] is [not hasattr(self, "_unique_params_idxs")]. *)
Record obj (St : Type) : Type := {
  self_state : St;
  attrs : option caches;
}.
Arguments self_state {St} o.
Arguments attrs {St} o.

(** [ids.index(x)]; [None] stands for [ValueError]. *)
Fixpoint list_index (x : nat) (ids : list nat) : option nat :=
  match ids with
  | [] => None
  | y :: ids' => if decide (y = x) then Some 0 else S <$> list_index x ids'
  end.

(** The loop [for i in range(len(allparams))] of [_get_unique_params_idxs];
    [ps] is the part of [allparams] from index [i] on. *)
Fixpoint unique_loop (ps : list pyobj) (i : nat)
    (ids idxs : list nat) (idx_map : list (list nat))
    : list nat * list nat * list (list nat) :=
  match ps with
  | [] => (ids, idxs, idx_map)
  | p :: ps' =>
      let id_param := py_id p in
      match list_index id_param ids with
      | Some jfound =>
          unique_loop ps' (S i) ids idxs (alter (λ g, g ++ [i]) jfound idx_map)
      | None =>
          unique_loop ps' (S i) (ids ++ [id_param]) (idxs ++ [i]) (idx_map ++ [[i]])
      end
  end.

Definition unique_of (allparams : list pyobj) : list nat * list nat * list (list nat) :=
  unique_loop allparams 0 [] [] [].

Definition idxs_of (allparams : list pyobj) : list nat := (unique_of allparams).1.2.
Definition maps_of (allparams : list pyobj) : list (list nat) := (unique_of allparams).2.

Section Protocol.
Context {St : Type} `{EditableModule St}.

Definition _get_unique_params_idxs (o : obj St) (methodname : string)
    (allparams : option (list pyobj)) : obj St * list nat :=
  let c := default no_entries (attrs o) in
  match _unique_params_idxs c !! methodname with
  | Some idxs => ({| self_state := self_state o; attrs := Some c |}, idxs)
  | None =>
      let allparams := default (getparams (self_state o) methodname) allparams in
      let '(ids, idxs, idx_map) := unique_of allparams in
      ({| self_state := self_state o;
          attrs := Some
            {| _number_of_params := <[methodname := length allparams]> (_number_of_params c);
               _unique_params_idxs := <[methodname := idxs]> (_unique_params_idxs c);
               _unique_params_maps := <[methodname := idx_map]> (_unique_params_maps c) |} |},
       idxs)
  end.

(** [[allparams[i] for i in idxs]] *)
Definition select (allparams : list pyobj) (idxs : list nat) : result (list pyobj) :=
  mapM (M := result) (λ i : nat, py_index allparams (Z.of_nat i)) idxs.

Definition getuniqueparams (o : obj St) (methodname : string)
    : obj St * result (list pyobj) :=
  let allparams := getparams (self_state o) methodname in
  let '(o', idxs) := _get_unique_params_idxs o methodname (Some allparams) in
  (o', select allparams idxs).

(** [for i in jmap: allparams[i] = p] *)
Fixpoint assign_group (allparams : list pyobj) (jmap : list nat) (p : pyobj)
    : result (list pyobj) :=
  match jmap with
  | [] => Ok allparams
  | i :: jmap' =>
      allparams' ← py_setitem allparams (Z.of_nat i) p;
      assign_group allparams' jmap' p
  end.

(** [for j in range(len(uniqueparams))]; [us] is [uniqueparams[j:]]. *)
Fixpoint assign_loop (maps : list (list nat)) (us : list pyobj) (j : nat)
    (allparams : list pyobj) : result (list pyobj) :=
  match us with
  | [] => Ok allparams
  | p :: us' =>
      jmap ← py_index maps (Z.of_nat j);
      allparams' ← assign_group allparams jmap p;
      assign_loop maps us' (S j) allparams'
  end.

(** Attribute access [self.<name>] followed by [[methodname]]. *)
Definition attr_item {V} (o : obj St) (name : string) (field : caches → gmap string V)
    (methodname : string) : result V :=
  match attrs o with
  | None => Raise (AttributeError name)
  | Some c =>
      match field c !! methodname with
      | Some v => Ok v
      | None => Raise (KeyError methodname)
      end
  end.

(** The list [allparams] that [setuniqueparams] hands to [setparams]. *)
Definition expanded_params (o : obj St) (methodname : string)
    (uniqueparams : list pyobj) : result (list pyobj) :=
  nparams ← attr_item o "_number_of_params" _number_of_params methodname;
  let allparams := replicate nparams PyNone in
  maps ← attr_item o "_unique_params_maps" _unique_params_maps methodname;
  assign_loop maps uniqueparams 0 allparams.

Definition setuniqueparams (o : obj St) (methodname : string)
    (uniqueparams : list pyobj) : obj St * result nat :=
  match expanded_params o methodname uniqueparams with
  | Raise e => (o, Raise e)
  | Ok allparams =>
      let '(s', n) := setparams (self_state o) methodname allparams in
      ({| self_state := s'; attrs := attrs o |}, Ok n)
  end.

(** [getmethodparams(method)] and [setmethodparams(method, *params)] for a
    bound method [method] of the editable module [o] named [methodname]
    (for anything else they return [[]] and [0] or nothing): the abstract
    methods called directly. *)
Definition getmethodparams (o : obj St) (methodname : string) : list pyobj :=
  getparams (self_state o) methodname.

Definition setmethodparams (o : obj St) (methodname : string)
    (params : list pyobj) : obj St * nat :=
  let '(s', n) := setparams (self_state o) methodname params in
  ({| self_state := s'; attrs := attrs o |}, n).

(** What one [with o.useparams(methodname, *params): block] statement did:
    the object afterwards, what [tb.print_exc()] printed, what the block
    returned if it ran, and how the statement ended for the caller. *)
Record with_run : Type := {
  final : obj St;
  stderr : list exn;
  block_result : option (result unit);
  outcome : result unit;
}.

(** The [except Exception as exc] and [finally] clauses of the generator
    [useparams].  [raised] is the exception present in the [try] body, if
    any; [orig] is the local [_orig_params_], [None] when the assignment was
    not reached.  [Ok tt] means that the generator returned. *)
Definition useparams_exit (o : obj St) (methodname : string)
    (orig : option (list pyobj)) (raised : option exn)
    : obj St * list exn * result unit :=
  let printed :=
    match raised with
    | Some e => if is_Exception e then [e] else []
    | None => []
    end in
  let pending :=
    match raised with
    | Some e => if is_Exception e then Ok tt else Raise e
    | None => Ok tt
    end in
  match orig with
  | None => (o, printed, Raise (UnboundLocalError "_orig_params_"))
  | Some orig =>
      match setuniqueparams o methodname orig with
      | (o', Raise e') => (o', printed, Raise e')
      | (o', Ok _) => (o', printed, pending)
      end
  end.

(** [__enter__] of the context manager when the generator stops before its
    [yield]: contextlib raises [RuntimeError("generator didn't yield")]. *)
Definition enter_failed (o : obj St) (methodname : string)
    (orig : option (list pyobj)) (e : exn) : with_run :=
  let '(o', printed, r) := useparams_exit o methodname orig (Some e) in
  {| final := o'; stderr := printed; block_result := None;
     outcome := match r with
                | Ok _ => Raise (RuntimeError "generator didn't yield")
                | Raise e' => Raise e'
                end |}.

(** [useparams] as used: [__enter__] runs the generator up to [yield self],
    the block runs, [__exit__] resumes the generator ([next] after a normal
    block, [throw] after a raising one). *)
Definition useparams (o : obj St) (methodname : string) (params : list pyobj)
    (block : obj St → obj St * result unit) : with_run :=
  match getuniqueparams o methodname with
  | (o1, Raise e) => enter_failed o1 methodname None e
  | (o1, Ok _orig_params_) =>
      match setuniqueparams o1 methodname params with
      | (o2, Raise e) => enter_failed o2 methodname (Some _orig_params_) e
      | (o2, Ok _) =>
          let '(o3, rb) := block o2 in
          let raised := match rb with Ok _ => None | Raise e => Some e end in
          let '(o4, printed, r) :=
            useparams_exit o3 methodname (Some _orig_params_) raised in
          {| final := o4; stderr := printed; block_result := Some rb; outcome := r |}
      end
  end.

(** The entries of the three dictionaries for one method. *)
Definition cached_idxs (o : obj St) (m : string) : option (list nat) :=
  c ← attrs o; _unique_params_idxs c !! m.
Definition cached_maps (o : obj St) (m : string) : option (list (list nat)) :=
  c ← attrs o; _unique_params_maps c !! m.
Definition cached_number (o : obj St) (m : string) : option nat :=
  c ← attrs o; _number_of_params c !! m.

(** The dictionaries hold for [m] what [_get_unique_params_idxs] computes
    from the list [l]. *)
Definition cached_from (o : obj St) (m : string) (l : list pyobj) : Prop :=
  cached_idxs o m = Some (idxs_of l) ∧
  cached_maps o m = Some (maps_of l) ∧
  cached_number o m = Some (length l).

(** Invariant of every object reached through the class's methods: either
    nothing is cached for [m], or the cached entries were computed from a
    parameter list of the arity [getparams] has now. *)
Definition cache_wf (o : obj St) (m : string) : Prop :=
  cached_idxs o m = None ∨
  ∃ l, length l = length (getparams (self_state o) m) ∧ cached_from o m l.

(** A block that leaves the parameter layout of [m] alone: it may replace
    the tensors, not the cached index nor the number of parameters. *)
Definition keeps_layout (m : string) (block : obj St → obj St * result unit) : Prop :=
  ∀ o, let o' := (block o).1 in
    cached_idxs o' m = cached_idxs o m ∧
    cached_maps o' m = cached_maps o m ∧
    cached_number o' m = cached_number o m ∧
    length (getparams (self_state o') m) = length (getparams (self_state o) m).

(** The cached index of [m] is absent or is the one of the tensor-identity
    pattern that [getparams] shows now. *)
Definition cache_current (o : obj St) (m : string) : Prop :=
  cached_idxs o m = None ∨ cached_from o m (getparams (self_state o) m).

(** [setuniqueparams(m, *getuniqueparams(m))] runs and leaves every position
    of [getparams(m)] as it was. *)
Definition roundtrip_identity (o : obj St) (m : string) : Prop :=
  ∃ o1 us o2 n,
    getuniqueparams o m = (o1, Ok us) ∧
    setuniqueparams o1 m us = (o2, Ok n) ∧
    getparams (self_state o2) m = getparams (self_state o) m.

(** Positions that hold the identical tensor are assigned the same tensor in
    the list that [setuniqueparams] hands to [setparams]. *)
Definition alias_propagation (o : obj St) (m : string) : Prop :=
  ∀ i j x us allparams,
    getparams (self_state o) m !! i = Some x →
    getparams (self_state o) m !! j = Some x →
    expanded_params o m us = Ok allparams →
    allparams !! i = allparams !! j.

(** When the index of [m] is cached, every cached alias group holds one
    object now. *)
Definition groups_hold_one (o : obj St) (m : string) : Prop :=
  is_Some (cached_idxs o m) →
  ∀ maps g i j, cached_maps o m = Some maps → g ∈ maps → i ∈ g → j ∈ g →
    getparams (self_state o) m !! i = getparams (self_state o) m !! j.

End Protocol.
Arguments with_run St : clear implicits.

(** The cached entries of [m], if any, are such as [getuniqueparams]
    computes: from a parameter list of the arity [getparams] has now, in
    which the positions of one attribute held one object. *)
Definition cache_sound {St : Type} `{Attributed St} (o : obj St) (m : string) : Prop :=
  cached_idxs o m = None ∨
  ∃ l, length l = length (getparams (self_state o) m) ∧ cached_from o m l ∧
       ∀ i j, same_attr m i j → l !! i = l !! j.

(** What the two loops of [setuniqueparams] need from the cached groups. *)
Definition groups_below (n : nat) (maps : list (list nat)) : Prop :=
  ∀ j g, maps !! j = Some g → Forall (λ i, i < n) g.

Definition disjoint_groups (maps : list (list nat)) : Prop :=
  ∀ j1 j2 g1 g2 i,
    maps !! j1 = Some g1 → maps !! j2 = Some g2 → i ∈ g1 → i ∈ g2 → j1 = j2.

(** Loop invariant of [unique_loop] after the prefix [pre] of [allparams]. *)
Record dedup_inv (pre : list pyobj) (ids idxs : list nat)
    (maps : list (list nat)) : Prop := {
  inv_nodup : NoDup ids;
  inv_len_idxs : length idxs = length ids;
  inv_len_maps : length maps = length ids;
  inv_member j g i :
    maps !! j = Some g → i ∈ g →
    ∃ x, pre !! i = Some x ∧ ids !! j = Some (py_id x);
  inv_cover i x :
    pre !! i = Some x →
    ∃ j g, ids !! j = Some (py_id x) ∧ maps !! j = Some g ∧ i ∈ g;
  inv_head j i :
    idxs !! j = Some i → ∃ g, maps !! j = Some g ∧ i ∈ g;
}.

(** A sample subclass: every method name owns a list of attribute slots;
    [getparams] reads them and [setparams] overwrites them in order. *)
Abbreviation slots := (gmap string (list pyobj)).

#[global] Instance slots_module : EditableModule slots := {
  getparams s m := default [] (s !! m);
  setparams s m ps :=
    let old := default [] (s !! m) in
    (<[m := take (length old) ps ++ drop (length ps) old]> s, length old);
}.

Definition fresh (s : slots) : obj slots := {| self_state := s; attrs := None |}.

(** A new object whose method ["forward"] reads one tensor twice. *)
Definition aliased_module : obj slots :=
  fresh {["forward" := [Tensor 1; Tensor 1; Tensor 2]]}.

(** An object whose two parameters of ["forward"] were one tensor when the
    index was computed and are two tensors now. *)
Definition split_alias : obj slots :=
  (setmethodparams
     (getuniqueparams (fresh {["forward" := [Tensor 1; Tensor 1]]}) "forward").1
     "forward" [Tensor 3; Tensor 4]).1.

(** An object whose two parameters of ["forward"] were two tensors when the
    index was computed and are one tensor now. *)
Definition joined_alias : obj slots :=
  (setmethodparams
     (getuniqueparams (fresh {["forward" := [Tensor 1; Tensor 2]]}) "forward").1
     "forward" [Tensor 3; Tensor 3]).1.

(** A block that installs other tensors and then fails. *)
Definition failing_block (o : obj slots) : obj slots * result unit :=
  ((setmethodparams o "forward" [Tensor 8; Tensor 9; Tensor 8]).1,
   Raise (UserException "ValueError")).

(** A block that deletes the three dictionaries of the object
    ([del self._unique_params_idxs] and so on), and one that then fails. *)
Definition wiping_block (o : obj slots) : obj slots * result unit :=
  ({| self_state := self_state o; attrs := None |}, Ok tt).

Definition wiping_failing_block (o : obj slots) : obj slots * result unit :=
  ({| self_state := self_state o; attrs := None |}, Raise (UserException "ValueError")).

(** A block that is interrupted from outside. *)
Definition keyboard_interrupt_block (o : obj slots) : obj slots * result unit :=
  (o, Raise (BaseExceptionOnly "KeyboardInterrupt")).

(** A sample subclass that lists one attribute twice: [getparams] is
    [return [self.a, self.a, self.b]]; [setparams] assigns [params[0]] and
    then [params[1]] to [self.a], and [params[2]] to [self.b], each where
    it is given, and returns 3. *)
Record two_attrs : Type := {
  attr_a : pyobj;
  attr_b : pyobj;
}.

#[global] Instance two_attrs_module : EditableModule two_attrs := {
  getparams s m := [attr_a s; attr_a s; attr_b s];
  setparams s m ps :=
    ({| attr_a := default (default (attr_a s) (ps !! 0)) (ps !! 1);
        attr_b := default (attr_b s) (ps !! 2) |}, 3);
}.

Definition twice_listed : obj two_attrs :=
  {| self_state := {| attr_a := Tensor 1; attr_b := Tensor 2 |}; attrs := None |}.

(** A block on such an object that installs other tensors and then fails. *)
Definition two_attrs_block (o : obj two_attrs) : obj two_attrs * result unit :=
  ((setmethodparams o "forward" [Tensor 8; Tensor 8; Tensor 9]).1,
   Raise (UserException "ValueError")).

End LinTorch.

(** ** xitorch/integrate/solve_ivp.py *)

Module XiTorch.

(** Values found in an option dictionary. *)
Inductive optval : Type :=
  | OStr (s : string)
  | ONum (z : Z)
  | OBool (b : bool).

(** [str.lower] on ASCII text. *)
Definition lower_ascii (c : ascii) : ascii :=
  let n := nat_of_ascii c in
  if (65 <=? n) && (n <=? 90) then ascii_of_nat (n + 32) else c.

Fixpoint lower (s : string) : string :=
  match s with
  | EmptyString => EmptyString
  | String c s' => String (lower_ascii c) (lower s')
  end.

(** ["%s" % v] *)
Definition format_s (v : optval) : string :=
  match v with
  | OStr s => s
  | ONum z => pretty z
  | OBool b => if b then "True" else "False"
  end.

(** [d.pop(k)] and [d[k]] on a dictionary. *)
Definition dict_pop {V} (d : gmap string V) (k : string) : result (V * gmap string V) :=
  match d !! k with
  | Some v => Ok (v, delete k d)
  | None => Raise (KeyError k)
  end.

Definition dict_getitem {V} (d : gmap string V) (k : string) : result V :=
  match d !! k with
  | Some v => Ok v
  | None => Raise (KeyError k)
  end.

(** Modelled from the spec: [set_default_option] of [xitorch._utils.misc],
    which is not among the sources: the "configuration merged over
    defaults", the given options taking precedence. *)
Definition set_default_option (defopt opt : gmap string optval) : gmap string optval :=
  opt ∪ defopt.

(** The four stepping strategies (imported, not in the sources). *)
Inductive solver : Type :=
  | rk4_ivp
  | rk38_ivp
  | rk23_adaptive
  | rk45_adaptive.

(** The dictionary literal of [_SolveIVP.forward]. *)
Definition solvers : gmap string solver :=
  <["rk4" := rk4_ivp]> (<["rk38" := rk38_ivp]>
    (<["rk23" := rk23_adaptive]> (<["rk45" := rk45_adaptive]> ∅))).

(** The tensor operations the file uses, as an interface: floating-point
    arithmetic is not interpreted. *)
Class Torch : Type := {
  T : Type;
  zeros_like : T → T;
  neg : T → T;
  add : T → T → T;
  sub : T → T → T;
  dot : T → T → T;
  reshape_flat : T → T;
  cat : list T → T;
}.

Section Model.
Context `{Torch}.

(** An entry of [params]: a tensor that requires a gradient, a tensor that
    does not ([requires_grad] unset), or anything else. *)
Inductive param : Type :=
  | PTensor (p : T)
  | PTensorNoGrad (p : T)
  | PNonTensor (v : Z).

(** [y0] and the output of [fcn]: a tensor, or a list/tuple of tensors. *)
Inductive yval : Type :=
  | YTensor (y : T)
  | YList (ys : list T).

(** [isinstance(y, list) or isinstance(y, tuple)] *)
Definition is_list (y : yval) : bool :=
  match y with
  | YTensor _ => false
  | YList _ => true
  end.

(** The tensor [ts]: its shape, its entries along the first axis and its
    [requires_grad] flag. *)
Record time_tensor : Type := {
  shape : list nat;
  entries : list T;
  requires_grad : bool;
}.

(** [ts[0]] *)
Definition first_entry (ts : time_tensor) : result T :=
  match shape ts with
  | [] => Raise (IndexError "invalid index of a 0-dim tensor")
  | _ => py_index (entries ts) 0
  end.

(** A trajectory has one snapshot per time; for a list-valued state there is
    one trajectory per element of the list. *)
Inductive output : Type :=
  | OTensor (yt : list T)
  | OList (yts : list (list T)).

Definition rhs : Type := T → yval → list param → result yval.

(** What a run does that a caller can observe, in order. *)
Inductive event : Type :=
  | EvFcn (t : T) (y : yval) (params : list param)
  | EvSelect (method : string)
  | EvSolver (s : solver) (ts : time_tensor) (y0 : T).

Record run (A : Type) : Type := {
  events : list event;
  value : result A;
}.
Arguments events {A} r.
Arguments value {A} r.

#[global] Instance run_ret : MRet run := λ A a, {| events := []; value := Ok a |}.
#[global] Instance run_bind : MBind run := λ A B f r,
  match value r with
  | Ok a => let r' := f a in {| events := events r ++ events r'; value := value r' |}
  | Raise e => {| events := events r; value := Raise e |}
  end.

Definition lift {A} (r : result A) : run A := {| events := []; value := r |}.
Definition emit (ev : event) : run unit := {| events := [ev]; value := Ok tt |}.
Definition raise {A} (e : exn) : run A := lift (Raise e).

(** Modelled from the spec: [assert_runtime] of [xitorch._utils.assertfuncs],
    not among the sources: a failed check is a configuration error, raised
    as [RuntimeError] like the other configuration errors of this file. *)
Definition assert_runtime (cond : bool) (msg : string) : run unit :=
  if cond then mret tt else raise (RuntimeError msg).

(** Modelled from the spec: [TensorNonTensorSeparator], not among the
    sources, which "partitions an ordered parameter list into tensor and
    non-tensor subsets" and "reconstructs the original interleaved order
    given just the tensor subset plus knowledge of which original positions
    were non-tensor".  [forward] builds it with [varonly=True]: only the
    tensors that require a gradient ("only tensors can carry gradients")
    are on the tensor side; a tensor with [requires_grad] unset is kept
    with the non-tensors. *)
Record TensorNonTensorSeparator : Type := {
  tensor_positions : list bool;
  tensor_subset : list T;
  nontensor_subset : list param;
}.

(** [isinstance(p, torch.Tensor) and p.requires_grad] *)
Definition is_tensor (p : param) : bool :=
  match p with
  | PTensor _ => true
  | PTensorNoGrad _ => false
  | PNonTensor _ => false
  end.

(** The tensors of [params] that require a gradient. *)
Definition variables_of (params : list param) : list T :=
  omap (λ p, match p with PTensor t => Some t | _ => None end) params.

(** [TensorNonTensorSeparator(allparams, varonly=True)] *)
Definition separate (allparams : list param) : TensorNonTensorSeparator :=
  {| tensor_positions := is_tensor <$> allparams;
     tensor_subset := variables_of allparams;
     nontensor_subset := filter (λ p, is_tensor p = false) allparams |}.

Definition get_tensor_params (sep : TensorNonTensorSeparator) : list T :=
  tensor_subset sep.

Fixpoint interleave {A} (positions : list bool) (tensors nontensors : list A)
    : result (list A) :=
  match positions with
  | [] => Ok []
  | true :: positions' =>
      match tensors with
      | t :: tensors' => (t ::.) <$> interleave positions' tensors' nontensors
      | [] => Raise (RuntimeError "too few tensor parameters")
      end
  | false :: positions' =>
      match nontensors with
      | n :: nontensors' => (n ::.) <$> interleave positions' tensors nontensors'
      | [] => Raise (RuntimeError "too few non-tensor parameters")
      end
  end.

(** [param_sep.reconstruct_params(tensor_params)] *)
Definition reconstruct_params (sep : TensorNonTensorSeparator)
    (tensor_params : list T) : result (list param) :=
  interleave (tensor_positions sep) (PTensor <$> tensor_params) (nontensor_subset sep).

(** [param_sep.reconstruct_params(grad_tensor_params, grad_ntensor_params)]:
    the entries are gradients, [None] for an absent one. *)
Definition reconstruct_grads (sep : TensorNonTensorSeparator)
    (grad_tensor_params : list T) (grad_ntensor_params : list (option T))
    : result (list (option T)) :=
  interleave (tensor_positions sep) (Some <$> grad_tensor_params) grad_ntensor_params.

(** What [_SolveIVP.forward] stores on [ctx]; the three parts of
    [ctx.saved_tensors] are kept apart. *)
Record context : Type := {
  bck_config : gmap string optval;
  param_sep : TensorNonTensorSeparator;
  saved_ts : time_tensor;
  saved_y0 : T;
  saved_tensor_params : list T;
  ctx_pfcn : rhs;
  ctx_nparams : nat;
  ctx_yt : list T;
  ctx_ts_requires_grad : bool;
}.

(** The collaborators that are imported from modules outside the sources. *)
Class Collaborators : Type := {
  is_debug_enabled : bool;
  assert_fcn_params : rhs → T → yval → list param → run unit;
  (* get_pure_function(fcn).objparams() *)
  objparams_of : rhs → list param;
  (* TensorPacker(y0): flatten, pack of one state, pack of a trajectory *)
  flatten : list T → T;
  pack : list T → T → list T;
  pack_trajectory : list T → list T → list (list T);
  (* solver(pfcn, ts, y0, params, **config) *)
  run_solver : solver → rhs → time_tensor → T → list param →
               gmap string optval → run (list T);
  (* torch.autograd.grad(f, inputs=[y, t] + tensor_params, grad_outputs,
     allow_unused=True) for the f that the closure pfunc2 of backward builds;
     context, grad_enabled and params are what the closure captures *)
  autograd_grad : context → bool → list param → T → T → list T → T →
                  result (list (option T));
}.
Context `{Collaborators}.

(** Evaluating the user's function is observable. *)
Definition call (fcn : rhs) (t : T) (y : yval) (params : list param) : run yval :=
  emit (EvFcn t y params);; lift (fcn t y params).

(** [_SolveIVP.forward] *)
Definition forward (pfcn : rhs) (ts : time_tensor)
    (fwd_options bck_options : gmap string optval) (nparams : nat) (y0 : T)
    (allparams : list param) : run (list T * context) :=
  let config := set_default_option {["method" := OStr "rk45"]} fwd_options in
  let ctx_bck_config := set_default_option config bck_options in
  let params := take nparams allparams in
  '(orig_method, config) ← lift (dict_pop config "method");
  method ← match orig_method with
           | OStr s => mret (lower s)
           | _ => raise (AttributeError "lower")
           end;
  emit (EvSelect method);;
  solver ← match solvers !! method with
           | Some solver => mret solver
           | None =>
               (* except KeyError: *)
               v ← lift (dict_getitem config "method");
               raise (RuntimeError ("Unknown solve_ivp method: " +:+ format_s v))
           end;
  emit (EvSolver solver ts y0);;
  yt ← run_solver solver pfcn ts y0 params config;
  let sep := separate allparams in
  mret (yt, {| bck_config := ctx_bck_config;
               param_sep := sep;
               saved_ts := ts;
               saved_y0 := y0;
               saved_tensor_params := get_tensor_params sep;
               ctx_pfcn := pfcn;
               ctx_nparams := nparams;
               ctx_yt := yt;
               ctx_ts_requires_grad := requires_grad ts |}).

(** The sibling [pfcn2] defined for a list-valued [y0]. *)
Definition pfcn2 (pfcn : rhs) (y0 : list T) : rhs := λ t ytensor params,
  match ytensor with
  | YTensor ytensor =>
      res_list ← pfcn t (YList (pack y0 ytensor)) params;
      match res_list with
      | YList res_list => Ok (YTensor (flatten res_list))
      | YTensor _ => Raise (TypeError "flatten expects a list")
      end
  | YList _ => Raise (TypeError "pack expects a tensor")
  end.

(** [if is_debug_enabled(): assert_fcn_params(fcn, (ts[0], y0, *params))] *)
Definition debug_check (fcn : rhs) (ts : time_tensor) (y0 : yval)
    (params : list param) : run unit :=
  if is_debug_enabled
  then t0 ← lift (first_entry ts); assert_fcn_params fcn t0 y0 params
  else mret tt.

(** [solve_ivp]; [_SolveIVP.apply] runs [forward]. *)
Definition solve_ivp (fcn : rhs) (ts : time_tensor) (y0 : yval)
    (params : list param) (fwd_options bck_options : gmap string optval)
    : run output :=
  debug_check fcn ts y0 params;;
  assert_runtime (bool_decide (length (shape ts) = 1)) "Argument ts must be a 1D tensor";;
  let is_y0_list := is_list y0 in
  t0 ← lift (first_entry ts);
  dydt ← call fcn t0 y0 params;
  let is_dydt_list := is_list dydt in
  if negb (eqb is_y0_list is_dydt_list)
  then raise (RuntimeError "The y0 and output of fcn must both be tuple or a tensor")
  else
    (* get_pure_function(fcn), not among the sources, wraps fcn: called, it
       is fcn; its objparams() are a collaborator's *)
    let pfcn := fcn in
    match y0 with
    | YList y0 =>
        '(res, _) ← forward (pfcn2 pfcn y0) ts fwd_options bck_options
                      (length params) (flatten y0) (params ++ objparams_of pfcn);
        mret (OList (pack_trajectory y0 res))
    | YTensor y0 =>
        '(res, _) ← forward pfcn ts fwd_options bck_options
                      (length params) y0 (params ++ objparams_of pfcn);
        mret (OTensor res)
    end.

(** The call ended in a configuration error and no solver was started. *)
Definition rejected_before_integration {A} (r : run A) : Prop :=
  (∃ msg, value r = Raise (RuntimeError msg)) ∧
  ∀ s ts y0, EvSolver s ts y0 ∉ events r.

(** The events start with the single evaluation [fcn(t0, y0, *params)], and
    what follows it, if anything, is the selection of the strategy. *)
Definition probed_once (evs : list event) (t0 : T) (y0 : yval)
    (params : list param) : Prop :=
  ∃ rest, evs = EvFcn t0 y0 params :: rest ∧
          (rest = [] ∨ ∃ method rest', rest = EvSelect method :: rest').

(** *** [_SolveIVP.backward] *)

(** [y.reshape(-1)] and the like need a tensor. *)
Definition as_tensor (f : yval) : result T :=
  match f with
  | YTensor f => Ok f
  | YList _ => Raise (AttributeError "reshape")
  end.

(** The tensors among [params], whether they require a gradient or not. *)
Definition tensors_of (params : list param) : list T :=
  omap (λ p, match p with
             | PTensor t | PTensorNoGrad t => Some t
             | PNonTensor _ => None
             end) params.

(** The closure [pfunc2].  [detach()] and [clone()] give tensors of the same
    value, so the copies are the arguments themselves; [useobjparams] swaps
    in copies of the object parameters, of the same values too. *)
Definition pfunc2 (ctx : context) (grad_enabled : bool) (params : list param)
    (t y : T) (tensor_params : list T) : result (yval * T * T * list T) :=
  if negb grad_enabled then
    f ← ctx_pfcn ctx t (YTensor y) params;
    Ok (f, t, y, tensor_params)
  else
    allparams_copy ← reconstruct_params (param_sep ctx) tensor_params;
    let params_copy := take (ctx_nparams ctx) allparams_copy in
    f ← ctx_pfcn ctx t (YTensor y) params_copy;
    Ok (f, t, y, tensor_params).

(** Modelled from the spec: [convert_none_grads_to_zeros] of
    [xitorch._utils.tensor], not among the sources: an input without a
    gradient "yields an explicit zero gradient of matching arity, never an
    absent entry". *)
Definition convert_none_grads_to_zeros (allgrads : list (option T))
    (allgradinputs : list T) : list T :=
  zip_with (λ g x, default (zeros_like x) g) allgrads allgradinputs.

Definition y_index : nat := 0.
Definition dLdy_index : nat := 1.
Definition dLdt_index : nat := 2.

(** The closure [new_pfunc], the right-hand side of the augmented system. *)
Definition new_pfunc (ctx : context) (grad_enabled : bool) (params : list param)
    : rhs := λ t states tensor_params,
  match states with
  | YTensor _ => Raise (TypeError "states is a list")
  | YList states =>
      let tensor_params := tensors_of tensor_params in
      y ← py_index states (Z.of_nat y_index);
      dLdy ← neg <$> py_index states (Z.of_nat dLdy_index);
      '(f, t2, y2, tensor_params2) ← pfunc2 ctx grad_enabled params t y tensor_params;
      f ← as_tensor f;
      let allgradinputs := [y2] ++ [t2] ++ tensor_params2 in
      allgrads ← autograd_grad ctx grad_enabled params y2 t2 tensor_params2 dLdy;
      let allgrads := convert_none_grads_to_zeros allgrads allgradinputs in
      Ok (YList (f :: allgrads))
  end.

(** [states[dLdp_slice]]: [[-ntensor_params:]], or [[0:0]] when there is no
    tensor parameter. *)
Definition dLdp_slice (ntensor_params : nat) (states : list T) : list T :=
  if decide (0 < ntensor_params)
  then drop (length states - ntensor_params) states
  else [].

(** [states = [None for _ in range(state_size)]] followed by the four
    assignments; the slice assignment fills the last [ntensor_params] of the
    [3 + ntensor_params] places (an empty slice when there is none). *)
Definition initial_states (y dLdy dLdt : T) (tensor_params : list T) : list T :=
  [y; dLdy; dLdt] ++ (zeros_like <$> tensor_params).

(** [ts_flip[i:i+2]] *)
Definition slice2 (ts_flip : time_tensor) (i : nat) : time_tensor :=
  let sl := take 2 (drop i (entries ts_flip)) in
  {| shape := [length sl]; entries := sl; requires_grad := requires_grad ts_flip |}.

(** [ts.flip(0)] *)
Definition flip (ts : time_tensor) : time_tensor :=
  {| shape := shape ts; entries := reverse (entries ts); requires_grad := requires_grad ts |}.

(** The variables the [for] loop updates. *)
Record loop_state : Type := {
  states : list T;
  t_flip_idx : Z;
  grad_ts : option (list (option T));
}.

(** The recursive call [solve_ivp(new_pfunc, ts_flip[i:i+2], states,
    tensor_params, fwd_options=ctx.bck_config, bck_options=ctx.bck_config)]. *)
Definition sub_solve (ctx : context) (grad_enabled : bool) (params : list param)
    (ts_flip : time_tensor) (i : nat) (states tensor_params : list T)
    : result (list (list T)) :=
  outs ← value (solve_ivp (new_pfunc ctx grad_enabled params) (slice2 ts_flip i)
                  (YList states) (PTensor <$> tensor_params)
                  (bck_config ctx) (bck_config ctx));
  match outs with
  | OList outs => Ok outs
  | OTensor _ => Raise (TypeError "outs is a list")
  end.

(** The [if ts_requires_grad:] block at the head of the loop body. *)
Definition time_gradient_step (ctx : context) (grad_enabled : bool)
    (params : list param) (grad_yt tensor_params : list T)
    (ts_flip : time_tensor) (i : nat) (st : loop_state) : result loop_state :=
  if ctx_ts_requires_grad ctx then
    t ← py_index (entries ts_flip) (Z.of_nat i);
    y ← py_index (states st) (Z.of_nat y_index);
    '(f, _, _, _) ← pfunc2 ctx grad_enabled params t y tensor_params;
    feval ← as_tensor f;
    g ← py_index grad_yt (t_flip_idx st);
    let dLdt1 := dot (reshape_flat feval) (reshape_flat g) in
    dLdt ← py_index (states st) (Z.of_nat dLdt_index);
    states' ← py_setitem (states st) (Z.of_nat dLdt_index) (sub dLdt dLdt1);
    grad_ts' ← match grad_ts st with
               | Some grad_ts =>
                   Some <$> py_setitem grad_ts (t_flip_idx st) (Some (reshape_flat dLdt1))
               | None => Raise (TypeError "'NoneType' object does not support item assignment")
               end;
    Ok {| states := states'; t_flip_idx := t_flip_idx st; grad_ts := grad_ts' |}
  else Ok st.

(** One iteration of [for i in range(len(ts_flip)-1)]. *)
Definition backward_step (ctx : context) (grad_enabled : bool)
    (params : list param) (grad_yt tensor_params : list T)
    (ts_flip : time_tensor) (i : nat) (st : loop_state) : result loop_state :=
  st ← time_gradient_step ctx grad_enabled params grad_yt tensor_params ts_flip i st;
  let t_flip_idx := (t_flip_idx st - 1)%Z in
  outs ← sub_solve ctx grad_enabled params ts_flip i (states st) tensor_params;
  (* only take the output for the earliest time *)
  states ← mapM (M := result) (λ out : list T, py_index out (-1)) outs;
  y ← py_index (ctx_yt ctx) t_flip_idx;
  states ← py_setitem states (Z.of_nat y_index) y;
  gyt ← py_index grad_yt t_flip_idx;
  gy0 ← py_index states (Z.of_nat dLdy_index);
  states ← py_setitem states (Z.of_nat dLdy_index) (add gyt gy0);
  Ok {| states := states; t_flip_idx := t_flip_idx; grad_ts := grad_ts st |}.

Fixpoint for_range (body : nat → loop_state → result loop_state)
    (range : list nat) (st : loop_state) : result loop_state :=
  match range with
  | [] => Ok st
  | i :: range' => st' ← body i st; for_range body range' st'
  end.

(** The state of the loop variables when the loop is entered. *)
Definition backward_init (ctx : context) (grad_yt : list T) : result loop_state :=
  let yt := ctx_yt ctx in
  let ts := saved_ts ctx in
  let tensor_params := saved_tensor_params ctx in
  y ← py_index yt (-1);
  dLdy ← py_index grad_yt (-1);
  t0 ← first_entry ts;
  Ok {| states := initial_states y dLdy (zeros_like t0) tensor_params;
        t_flip_idx := (-1)%Z;
        grad_ts := if ctx_ts_requires_grad ctx
                   then Some (replicate (length (entries ts)) None)
                   else None |}.

(** The statements after the loop, up to the returned tuple. *)
Definition backward_finish (ctx : context) (nallparams : nat) (st : loop_state)
    : result (list (option T)) :=
  let ntensor_params := length (saved_tensor_params ctx) in
  grad_ts ← (if ctx_ts_requires_grad ctx then
               match grad_ts st with
               | Some grad_ts =>
                   dLdt ← py_index (states st) (Z.of_nat dLdt_index);
                   Some <$> py_setitem grad_ts 0 (Some (reshape_flat dLdt))
               | None => Raise (TypeError "'NoneType' object does not support item assignment")
               end
             else Ok (grad_ts st));
  grad_y0 ← py_index (states st) (Z.of_nat dLdy_index);
  grad_ts ← match grad_ts with
            | Some grad_ts =>
                match mapM (M := option) (λ g : option T, g) grad_ts with
                | Some gs => Ok (Some (cat gs))
                | None => Raise (TypeError "expected Tensor as element of sequence")
                end
            | None => Ok None
            end;
  let grad_tensor_params := dLdp_slice ntensor_params (states st) in
  let grad_ntensor_params := replicate (nallparams - ntensor_params) None in
  grad_params ← reconstruct_grads (param_sep ctx) grad_tensor_params grad_ntensor_params;
  Ok ([None; grad_ts; None; None; None; Some grad_y0] ++ grad_params).

(** [_SolveIVP.backward]; [grad_enabled] is [torch.is_grad_enabled()]. *)
Definition backward (ctx : context) (grad_enabled : bool) (grad_yt : list T)
    : result (list (option T)) :=
  let tensor_params := saved_tensor_params ctx in
  allparams ← reconstruct_params (param_sep ctx) tensor_params;
  let params := take (ctx_nparams ctx) allparams in
  let ts_flip := flip (saved_ts ctx) in
  st ← backward_init ctx grad_yt;
  st ← for_range (backward_step ctx grad_enabled params grad_yt tensor_params ts_flip)
         (seq 0 (length (entries ts_flip) - 1)) st;
  backward_finish ctx (length allparams) st.

End Model.
Arguments events {_ A} r.
Arguments value {_ A} r.

(** *** A sample instance

    Integer vectors stand for tensors, explicit Euler steps for the four
    strategies, and the user's function is [fcn(t, y, a, ...) = a * y]. *)
Module Sample.

Definition scale (a : Z) (v : list Z) : list Z := Z.mul a <$> v.

Definition sum_list (v : list Z) : Z := foldr Z.add 0%Z v.

#[global] Instance int_torch : Torch := {
  T := list Z;
  zeros_like v := (λ _, 0%Z) <$> v;
  neg v := Z.opp <$> v;
  add := zip_with Z.add;
  sub := zip_with Z.sub;
  dot a b := [sum_list (zip_with Z.mul a b)];
  reshape_flat v := v;
  cat := concat (A := Z);
}.

Definition growth : rhs := λ t y params,
  match y, params with
  | YTensor y, PTensor a :: _ => Ok (YTensor (scale (hd 0%Z a) y))
  | _, _ => Raise (TypeError "growth(t, y, a)")
  end.

Fixpoint chunks (sizes : list nat) (v : list Z) : list (list Z) :=
  match sizes with
  | [] => []
  | n :: sizes' => take n v :: chunks sizes' (drop n v)
  end.

Definition unpack (y0 : list (list Z)) (v : list Z) : list (list Z) :=
  chunks (length <$> y0) v.

Fixpoint euler (pfcn : rhs) (t : list Z) (later : list (list Z)) (y : list Z)
    (params : list param) : run (list (list Z)) :=
  match later with
  | [] => mret [y]
  | t' :: later' =>
      f ← call pfcn t (YTensor y) params;
      match f with
      | YTensor f =>
          let dt := (hd 0 t' - hd 0 t)%Z in
          yt ← euler pfcn t' later' (zip_with Z.add y (scale dt f)) params;
          mret (y :: yt)
      | YList _ => raise (TypeError "dydt is a tensor")
      end
  end.

#[global] Instance sample_collaborators : Collaborators := {
  is_debug_enabled := false;
  assert_fcn_params _ _ _ _ := mret tt;
  objparams_of _ := [];
  flatten := concat (A := Z);
  pack := unpack;
  pack_trajectory y0 res := imap (λ k _, (λ row, default [] (unpack y0 row !! k)) <$> res) y0;
  run_solver _ pfcn ts y0 params _ :=
    match entries ts with
    | [] => mret []
    | t :: later => euler pfcn t later y0 params
    end;
  (* the vector-Jacobian products of a * y with respect to y, t and a *)
  autograd_grad _ _ _ y t tensor_params grad_outputs :=
    match tensor_params with
    | a :: others =>
        Ok ([Some (scale (hd 0%Z a) grad_outputs); None; Some (dot y grad_outputs)]
            ++ ((λ _, None) <$> others))
    | [] => Raise (TypeError "growth(t, y, a)")
    end;
}.

Definition grid (ts : list Z) (rg : bool) : time_tensor :=
  {| shape := [length ts]; entries := (λ t, [t]) <$> ts; requires_grad := rg |}.

(** A time grid given as a 1 x 2 matrix. *)
Definition matrix_grid : time_tensor :=
  {| shape := [1; 2]; entries := [[0; 1]%Z]; requires_grad := false |}.

(** "Strictly monotonic (increasing or decreasing)". *)
Fixpoint increasing (ts : list Z) : bool :=
  match ts with
  | a :: (b :: _) as later => (a <? b)%Z && increasing later
  | _ => true
  end.

Fixpoint decreasing (ts : list Z) : bool :=
  match ts with
  | a :: (b :: _) as later => (b <? a)%Z && decreasing later
  | _ => true
  end.

Definition strictly_monotonic (ts : list Z) : bool := increasing ts || decreasing ts.

(** What [forward] stores for [growth] on the grid [0, 1, 2] with
    [y0 = 1], [a = 2] and a second, non-tensor parameter. *)
Definition sample_params : list param := [PTensor [2%Z]; PNonTensor 7].

Definition sample_context : context :=
  {| bck_config := {["method" := OStr "rk45"]};
     param_sep := separate sample_params;
     saved_ts := grid [0; 1; 2]%Z true;
     saved_y0 := [1%Z];
     saved_tensor_params := [[2%Z]];
     ctx_pfcn := growth;
     ctx_nparams := 2;
     ctx_yt := [[1]; [3]; [9]]%Z;
     ctx_ts_requires_grad := true |}.

(** An upstream gradient, one sample per time. *)
Definition sample_grad_yt : list T := [[0]; [5]; [1]]%Z.

(** The loop variables of the backward pass on entry and after its first
    sub-step, over [(2, 1)]. *)
Definition sample_entry : loop_state :=
  {| states := [[9]; [1]; [0]; [0]]%Z;
     t_flip_idx := (-1)%Z;
     grad_ts := Some [None; None; None] |}.

Definition sample_after_first : loop_state :=
  {| states := [[3]; [8]; [-18]; [9]]%Z;
     t_flip_idx := (-2)%Z;
     grad_ts := Some [None; None; Some [18%Z]] |}.

(** The tuple that the backward pass returns. *)
Definition sample_gradients : list (option T) :=
  [None; Some [-48; 30; 18]%Z; None; None; None; Some [24%Z]; Some [33%Z]; None].

End Sample.

End XiTorch.

(** ** More of lintorch/core/editable_module.py *)

Module Dedup.
Import LinTorch.

(** What the loop of [_get_unique_params_idxs] keeps about order: the first
    positions and every group are ascending, and group [j] starts at
    [idxs[j]]. *)
Record order_inv (pre : list pyobj) (idxs : list nat)
    (maps : list (list nat)) : Prop := {
  ord_idxs : StronglySorted lt idxs;
  ord_below : Forall (λ i, i < length pre) idxs;
  ord_groups : Forall (StronglySorted lt) maps;
  ord_head j i g : idxs !! j = Some i → maps !! j = Some g → head g = Some i;
}.

Section Missing.
Context {St : Type} `{EditableModule St}.

(** [for i in range(len(idparams0))] of [find_missing_parameters]. *)
Fixpoint missing_loop (idparams idparams0 : list nat) (names : list string)
    (params0 : list pyobj) (range : list nat) : result (list string * list pyobj) :=
  match range with
  | [] => Ok ([], [])
  | i :: range' =>
      id0 ← py_index idparams0 (Z.of_nat i);
      if decide (id0 ∈ idparams)
      then missing_loop idparams idparams0 names params0 range'
      else
        name ← py_index names (Z.of_nat i);
        p ← py_index params0 (Z.of_nat i);
        '(missing_names, missing_params) ←
          missing_loop idparams idparams0 names params0 range';
        Ok (name :: missing_names, p :: missing_params)
  end.

(** [find_missing_parameters] from the point where [list_operating_params]
    has returned [listed], the names and the tensors that the method uses,
    the tensors as the protocol sees them. *)
Definition find_missing_parameters (listed : list string * list pyobj)
    (o : obj St) (methodname : string)
    : obj St * result (list string * list pyobj) :=
  let '(names, params0) := listed in
  let '(o', params) := getuniqueparams o methodname in
  (o',
   params ← params;
   let idparams := py_id <$> params in
   let idparams0 := py_id <$> params0 in
   missing_loop idparams idparams0 names params0 (seq 0 (length idparams0))).

End Missing.

(** A block that only reads. *)
Definition reading_block (o : obj slots) : obj slots * result unit := (o, Ok tt).

(** A block that installs other tensors and is then interrupted from
    outside. *)
Definition interrupted_block (o : obj slots) : obj slots * result unit :=
  ((setmethodparams o "forward" [Tensor 8; Tensor 9; Tensor 8]).1,
   Raise (BaseExceptionOnly "KeyboardInterrupt")).

End Dedup.

(** The diagnostic functions of editable_module.py walk the attributes of
    an object.  A value is what the tests of the code tell apart: it has a
    [__dict__] (a floating-point tensor, a [torch.nn.Module] or anything
    else with attributes), or it has none and is iterable, or neither.  The
    values reached from an object form a tree here: no object is reached
    twice. *)
Module Introspection.

Inductive kind : Type :=
  | KFloatTensor (addr : nat)
  | KModule
  | KPlain.

#[warnings="-register-all"]
Inductive pyval : Type :=
  | Obj (k : kind) (dict : list (string * pyval))
  | Iterable (elems : list pyval)
  | Atom.

(** [isinstance(elmt, torch.Tensor) and elmt.dtype in float_type] *)
Definition is_float_tensor (v : pyval) : Prop :=
  match v with
  | Obj (KFloatTensor _) _ => True
  | _ => False
  end.

(** [res = res + new_res] and [names = names + new_names] *)
Definition both {A B} (r1 r2 : list A * list B) : list A * list B :=
  (r1.1 ++ r2.1, r1.2 ++ r2.2).

Section Collect.
Context (_get_tensors : pyval → string → Z → list pyval * list string).

(** One turn of [for i, elm in enumerate(elmt)] of [_get_tensors]: what
    [elm], the [i]-th element of the attribute [name], adds. *)
Definition get_elem (name : string) (max_depth : Z) (i : nat) (elm : pyval)
    : list pyval * list string :=
  match elm with
  | Obj _ _ =>
      if decide (0 < max_depth)%Z
      then _get_tensors elm (name +:+ "[" +:+ pretty i +:+ "]") (max_depth - 1)
      else ([], [])
  | _ => ([], [])
  end.

Fixpoint get_each (name : string) (max_depth : Z) (elems : list pyval) (i : nat)
    : list pyval * list string :=
  match elems with
  | [] => ([], [])
  | elm :: elems' =>
      both (get_elem name max_depth i elm) (get_each name max_depth elems' (S i))
  end.

(** One turn of [for key in obj.__dict__] of [_get_tensors]: what the
    attribute [elmt] called [name] adds. *)
Definition get_item (name : string) (max_depth : Z) (elmt : pyval)
    : list pyval * list string :=
  match elmt with
  | Obj (KFloatTensor _) _ => ([elmt], [name])
  | Obj KModule _ => _get_tensors elmt name max_depth
  | Obj KPlain _ =>
      if decide (0 < max_depth)%Z
      then _get_tensors elmt name (max_depth - 1)
      else ([], [])
  | Iterable elems => get_each name max_depth elems 0
  | Atom => ([], [])
  end.

Fixpoint get_items (prefix : string) (max_depth : Z) (d : list (string * pyval))
    : list pyval * list string :=
  match d with
  | [] => ([], [])
  | (key, elmt) :: d' =>
      both (get_item (prefix +:+ "." +:+ key) max_depth elmt)
           (get_items prefix max_depth d')
  end.

End Collect.

(** [_get_tensors] on a value that has a [__dict__]; the recursion only
    descends into such values. *)
Fixpoint get_tensors_of (obj : pyval) (prefix : string) (max_depth : Z) {struct obj}
    : list pyval * list string :=
  match obj with
  | Obj _ d => get_items get_tensors_of prefix max_depth d
  | _ => ([], [])
  end.

Definition _get_tensors (obj : pyval) (prefix : string) (max_depth : Z)
    : result (list pyval * list string) :=
  match obj with
  | Obj _ _ => Ok (get_tensors_of obj prefix max_depth)
  | _ => Raise (AttributeError "__dict__")
  end.

(** A step of [_set_tensors]: the value as it is afterwards, what is left of
    [all_params], and the exception if one was raised. *)
Definition walked (A : Type) : Type := A * list pyval * option exn.

Section Install.
Context (_set_tensors : pyval → list pyval → Z → walked pyval).

(** One turn of [for i, elm in enumerate(elmt)] of [_set_tensors]. *)
Definition set_elem (max_depth : Z) (elm : pyval) (all_params : list pyval)
    : walked pyval :=
  match elm with
  | Obj _ _ =>
      if decide (0 < max_depth)%Z
      then _set_tensors elm all_params (max_depth - 1)
      else (elm, all_params, None)
  | _ => (elm, all_params, None)
  end.

Fixpoint set_each (max_depth : Z) (elems : list pyval) (all_params : list pyval)
    : walked (list pyval) :=
  match elems with
  | [] => ([], all_params, None)
  | elm :: elems' =>
      let '(elm', all_params', raised) := set_elem max_depth elm all_params in
      match raised with
      | Some e => (elm' :: elems', all_params', Some e)
      | None =>
          let '(elems'', all_params'', raised') := set_each max_depth elems' all_params' in
          (elm' :: elems'', all_params'', raised')
      end
  end.

(** One turn of [for key in obj.__dict__] of [_set_tensors]: the attribute
    afterwards. *)
Definition set_item (max_depth : Z) (elmt : pyval) (all_params : list pyval)
    : walked pyval :=
  match elmt with
  | Obj (KFloatTensor _) _ =>
      (* obj.__dict__[key] = all_params.pop(0) *)
      match all_params with
      | p :: all_params' => (p, all_params', None)
      | [] => (elmt, [], Some (IndexError "pop from empty list"))
      end
  | Obj KModule _ => _set_tensors elmt all_params max_depth
  | Obj KPlain _ =>
      if decide (0 < max_depth)%Z
      then _set_tensors elmt all_params (max_depth - 1)
      else (elmt, all_params, None)
  | Iterable elems =>
      let '(elems', all_params', raised) := set_each max_depth elems all_params in
      (Iterable elems', all_params', raised)
  | Atom => (elmt, all_params, None)
  end.

Fixpoint set_items (max_depth : Z) (d : list (string * pyval)) (all_params : list pyval)
    : walked (list (string * pyval)) :=
  match d with
  | [] => ([], all_params, None)
  | (key, elmt) :: d' =>
      let '(elmt', all_params', raised) := set_item max_depth elmt all_params in
      match raised with
      | Some e => ((key, elmt') :: d', all_params', Some e)
      | None =>
          let '(d'', all_params'', raised') := set_items max_depth d' all_params' in
          ((key, elmt') :: d'', all_params'', raised')
      end
  end.

End Install.

Fixpoint set_tensors_of (obj : pyval) (all_params : list pyval) (max_depth : Z)
    {struct obj} : walked pyval :=
  match obj with
  | Obj k d =>
      let '(d', all_params', raised) := set_items set_tensors_of max_depth d all_params in
      (Obj k d', all_params', raised)
  | _ => (obj, all_params, None)
  end.

Definition _set_tensors (obj : pyval) (all_params : list pyval) (max_depth : Z)
    : walked pyval :=
  match obj with
  | Obj _ _ => set_tensors_of obj all_params max_depth
  | _ => (obj, all_params, Some (AttributeError "__dict__"))
  end.

Section Operating.
Context {Out G : Type}.
(** The bound method called with the given arguments on the object as it
    is: the object as the call leaves it, and [.sum()] of the output. *)
Context (method : pyval → pyval * result Out).
(** [tensor.clone().detach().requires_grad_()] *)
Context (clone : pyval → pyval).
(** [torch.autograd.grad(output, copy_tensors0, allow_unused=True)] *)
Context (autograd_grad : Out → list pyval → result (list (option G))).

(** [for i, grad in enumerate(grad_tensors)] of [list_operating_params]. *)
Fixpoint with_gradient (grad_tensors : list (option G)) (i : nat)
    (all_names : list string) (all_tensors : list pyval)
    : result (list string * list pyval) :=
  match grad_tensors with
  | [] => Ok ([], [])
  | None :: grad_tensors' => with_gradient grad_tensors' (S i) all_names all_tensors
  | Some _ :: grad_tensors' =>
      name ← py_index all_names (Z.of_nat i);
      p ← py_index all_tensors (Z.of_nat i);
      '(names, params) ← with_gradient grad_tensors' (S i) all_names all_tensors;
      Ok (name :: names, p :: params)
  end.

(** [list_operating_params]: the object as the call leaves it, and what is
    returned or raised. *)
Definition list_operating_params (obj : pyval)
    : pyval * result (list string * list pyval) :=
  let max_depth := 3%Z in
  let '(obj, output) := method obj in
  match output with
  | Raise e => (obj, Raise e)
  | Ok _ =>
      match _get_tensors obj "self" max_depth with
      | Raise e => (obj, Raise e)
      | Ok (all_tensors, all_names) =>
          let copy_tensors0 := clone <$> all_tensors in
          let '(obj, _, raised) := _set_tensors obj copy_tensors0 max_depth in
          match raised with
          | Some e => (obj, Raise e)
          | None =>
              let '(obj, output) := method obj in
              match output with
              | Raise e => (obj, Raise e)
              | Ok output =>
                  match autograd_grad output copy_tensors0 with
                  | Raise e => (obj, Raise e)
                  | Ok grad_tensors =>
                      let '(obj, _, raised) := _set_tensors obj all_tensors max_depth in
                      match raised with
                      | Some e => (obj, Raise e)
                      | None => (obj, with_gradient grad_tensors 0 all_names all_tensors)
                      end
                  end
              end
          end
      end
  end.

End Operating.

(** The entries of [l] at the places where [grad_tensors] has a gradient. *)
Definition where_gradient {G A} (grad_tensors : list (option G)) (l : list A) : list A :=
  (filter (λ ga, is_Some ga.1) (zip grad_tensors l)).*2.

(** As many names as tensors. *)
Definition balanced (r : list pyval * list string) : Prop := length r.1 = length r.2.

(** What [all_params.pop(0)] does to a walk that needs [n] parameters. *)
Definition short (n : nat) (all_params : list pyval) : option exn :=
  if decide (length all_params < n)
  then Some (IndexError "pop from empty list")
  else None.

(** The tensors collected after [all_params] was installed over the
    collected tensors [orig]: the parameters as far as they go, then the
    tensors that were there. *)
Definition installed (orig : list pyval * list string) (all_params : list pyval)
    : list pyval * list string :=
  (take (length orig.1) all_params ++ drop (length all_params) orig.1, orig.2).

Arguments both : simpl never.
Arguments short : simpl never.
Arguments installed : simpl never.

(** Induction over a value and everything below it. *)
Fixpoint pyval_ind' (P : pyval → Prop)
    (HObj : ∀ k d, Forall (λ kv, P kv.2) d → P (Obj k d))
    (HIter : ∀ elems, Forall P elems → P (Iterable elems))
    (HAtom : P Atom) (v : pyval) {struct v} : P v :=
  match v with
  | Obj k d =>
      HObj k d
        ((fix go (d : list (string * pyval)) : Forall (λ kv, P kv.2) d :=
            match d with
            | [] => Forall_nil_2 _
            | kv :: d' => Forall_cons_2 _ _ _ (pyval_ind' P HObj HIter HAtom kv.2) (go d')
            end) d)
  | Iterable elems =>
      HIter elems
        ((fix go (l : list pyval) : Forall P l :=
            match l with
            | [] => Forall_nil_2 _
            | x :: l' => Forall_cons_2 _ _ _ (pyval_ind' P HObj HIter HAtom x) (go l')
            end) elems)
  | Atom => HAtom
  end.

(** A module with a tensor, a plain holder of a tensor, and a list that
    holds a tensor directly and a module. *)
Definition sample_object : pyval :=
  Obj KModule
    [("weight", Obj (KFloatTensor 1) []);
     ("name", Atom);
     ("inner", Obj KPlain [("bias", Obj (KFloatTensor 2) [])]);
     ("layers", Iterable [Obj (KFloatTensor 3) []; Obj KModule [("w", Obj (KFloatTensor 4) [])]])].

(** A copy has the address of the original plus 100. *)
Definition sample_clone (v : pyval) : pyval :=
  match v with
  | Obj (KFloatTensor a) d => Obj (KFloatTensor (a + 100)) d
  | _ => v
  end.

(** A method that reads the object and leaves it alone; its output is the
    list of the addresses of the tensors it used: the weight and the deepest
    tensor. *)
Definition sample_method (obj : pyval) : pyval * result (list nat) :=
  (obj,
   match get_tensors_of obj "self" 3 with
   | ([Obj (KFloatTensor w) _; _; Obj (KFloatTensor v) _], _) => Ok [w; v]
   | _ => Raise (AttributeError "weight")
   end).

Definition sample_grad (output : list nat) (inputs : list pyval)
    : result (list (option unit)) :=
  Ok ((λ v, match v with
            | Obj (KFloatTensor a) _ => if decide (a ∈ output) then Some tt else None
            | _ => None
            end) <$> inputs).

End Introspection.

(** ** More of xitorch/integrate/solve_ivp.py *)
Module SampleMore.
Import XiTorch XiTorch.Sample.

(** The list [grad_ts] of the backward loop from one state to a later one:
    untouched when [ts] needs no gradient, else of the same length. *)
Definition grad_ts_kept `{Torch} (ctx : context) (st st' : loop_state) : Prop :=
  if ctx_ts_requires_grad ctx
  then ∀ g, grad_ts st = Some g → ∃ g', grad_ts st' = Some g' ∧ length g' = length g
  else grad_ts st' = grad_ts st.

(** A function that answers a tensor with a tuple. *)
Definition wrong_kind : rhs := λ t y params, Ok (YList []).

(** The grid [0, 1] and the states and parameters of the samples. *)
Definition unit_grid : time_tensor := grid [0; 1]%Z false.

Definition empty_grid : time_tensor := grid [] false.

Definition one : T := [1%Z].

Definition rate : list param := [PTensor [2%Z]].

(** The three kinds of parameter: the rate [a = 2] requires a gradient,
    the number [7] is no tensor, and the tensor [3] has [requires_grad]
    unset. *)
Definition mixed_params : list param :=
  [PTensor [2%Z]; PNonTensor 7; PTensorNoGrad [3%Z]].

(** What [forward] stores for [growth] on the grid [0, 1, 2] with [y0 = 1]
    and the mixed parameters, and the tuple that the backward pass returns
    for the upstream gradient [sample_grad_yt]. *)
Definition mixed_context : context :=
  {| bck_config := {["method" := OStr "rk45"]};
     param_sep := separate mixed_params;
     saved_ts := grid [0; 1; 2]%Z true;
     saved_y0 := [1%Z];
     saved_tensor_params := [[2%Z]];
     ctx_pfcn := growth;
     ctx_nparams := 3;
     ctx_yt := [[1]; [3]; [9]]%Z;
     ctx_ts_requires_grad := true |}.

Definition mixed_gradients : list (option T) :=
  [None; Some [-48; 30; 18]%Z; None; None; None; Some [24%Z]; Some [33%Z]; None; None].

(** What [forward] stores for [growth] and the mixed parameters on the grid
    of the single time [0]. *)
Definition single_time_context : context :=
  {| bck_config := {["method" := OStr "rk45"]};
     param_sep := separate mixed_params;
     saved_ts := grid [0%Z] true;
     saved_y0 := [1%Z];
     saved_tensor_params := [[2%Z]];
     ctx_pfcn := growth;
     ctx_nparams := 3;
     ctx_yt := [[1%Z]];
     ctx_ts_requires_grad := true |}.

End SampleMore.

(** * Properties of the editable-object protocol *)

Module LinTorchFacts.
Import LinTorch.

Lemma py_id_inj (x y : pyobj) : py_id x = py_id y → x = y.
Proof. destruct x, y; simpl; congruence. Qed.

Lemma py_index_nat {A} (l : list A) (i : nat) (x : A) :
  py_index l (Z.of_nat i) = Ok x ↔ l !! i = Some x.
Proof.
  unfold py_index. destruct (decide (Z.of_nat i < 0)%Z) as [|_]; [lia|].
  rewrite Nat2Z.id. split.
  - case_decide; [|done]. by destruct (l !! i) eqn:E; intros [= ->].
  - intros E. pose proof (lookup_lt_Some _ _ _ E).
    rewrite decide_True by lia. by rewrite E.
Qed.

Lemma py_setitem_nat {A} (l : list A) (i : nat) (x : A) :
  i < length l → py_setitem l (Z.of_nat i) x = Ok (<[i := x]> l).
Proof.
  intros Hi. unfold py_setitem.
  destruct (decide (Z.of_nat i < 0)%Z) as [|_]; [lia|].
  rewrite decide_True by lia. by rewrite Nat2Z.id.
Qed.

Lemma list_index_Some x ids j : list_index x ids = Some j → ids !! j = Some x.
Proof.
  revert j. induction ids as [|y ids IH]; intros j; simpl; [done|].
  case_decide; [by intros [= <-]; subst|].
  destruct (list_index x ids) as [j'|]; simpl; [|done].
  intros [= <-]. by apply IH.
Qed.

Lemma list_index_None x ids : list_index x ids = None → x ∉ ids.
Proof.
  induction ids as [|y ids IH]; simpl; [intros _; apply not_elem_of_nil|].
  case_decide; [done|].
  destruct (list_index x ids); simpl; [done|].
  intros _. apply not_elem_of_cons. split; [congruence|by apply IH].
Qed.

Lemma dedup_inv_nil : dedup_inv [] [] [] [].
Proof. split; try done. apply NoDup_nil_2. Qed.

Lemma dedup_inv_found pre ids idxs maps p jfound :
  dedup_inv pre ids idxs maps →
  list_index (py_id p) ids = Some jfound →
  dedup_inv (pre ++ [p]) ids idxs (alter (λ g, g ++ [length pre]) jfound maps).
Proof.
  intros [Hnd Hli Hlm Hmem Hcov Hhd] Hf%list_index_Some.
  split; try done.
  - by rewrite length_alter.
  - intros j g i Hj Hi. destruct (decide (j = jfound)) as [->|Hne].
    + rewrite list_lookup_alter_eq in Hj.
      destruct (maps !! jfound) as [g0|] eqn:Hg0; simplify_eq/=.
      apply elem_of_app in Hi as [Hi|Hi].
      * destruct (Hmem _ _ _ Hg0 Hi) as (x & Hx & Hid).
        exists x. split; [by apply lookup_app_l_Some|done].
      * apply list_elem_of_singleton in Hi as ->. exists p. split; [|done].
        by rewrite lookup_app_r, Nat.sub_diag.
    + rewrite list_lookup_alter_ne in Hj by done.
      destruct (Hmem _ _ _ Hj Hi) as (x & Hx & Hid).
      exists x. split; [by apply lookup_app_l_Some|done].
  - intros i x Hx. apply lookup_app_Some in Hx as [Hx|[Hle Hx]].
    + destruct (Hcov _ _ Hx) as (j & g & Hid & Hg & Hi).
      destruct (decide (j = jfound)) as [->|Hne].
      * exists jfound, (g ++ [length pre]). split_and!; [done| |set_solver].
        by rewrite list_lookup_alter_eq, Hg.
      * exists j, g. by rewrite list_lookup_alter_ne.
    + apply list_lookup_singleton_Some in Hx as [Hi <-].
      assert (i = length pre) as -> by lia.
      destruct (lookup_lt_is_Some_2 maps jfound) as [g Hg].
      { rewrite Hlm. by eapply lookup_lt_Some. }
      exists jfound, (g ++ [length pre]). split_and!; [done| |set_solver].
      by rewrite list_lookup_alter_eq, Hg.
  - intros j i Hj. destruct (Hhd _ _ Hj) as (g & Hg & Hi).
    destruct (decide (j = jfound)) as [->|Hne].
    + exists (g ++ [length pre]). split; [|set_solver].
      by rewrite list_lookup_alter_eq, Hg.
    + exists g. by rewrite list_lookup_alter_ne.
Qed.

Lemma dedup_inv_new pre ids idxs maps p :
  dedup_inv pre ids idxs maps →
  list_index (py_id p) ids = None →
  dedup_inv (pre ++ [p]) (ids ++ [py_id p]) (idxs ++ [length pre])
    (maps ++ [[length pre]]).
Proof.
  intros [Hnd Hli Hlm Hmem Hcov Hhd] Hf%list_index_None.
  split.
  - apply NoDup_app. split_and!; [done| |apply NoDup_singleton].
    intros x Hx ->%list_elem_of_singleton. done.
  - rewrite !length_app. simpl. lia.
  - rewrite !length_app. simpl. lia.
  - intros j g i Hj Hi. apply lookup_app_Some in Hj as [Hj|[Hle Hj]].
    + destruct (Hmem _ _ _ Hj Hi) as (x & Hx & Hid).
      exists x. split; by apply lookup_app_l_Some.
    + apply list_lookup_singleton_Some in Hj as [Hj <-].
      apply list_elem_of_singleton in Hi as ->. exists p. split.
      * by rewrite lookup_app_r, Nat.sub_diag.
      * assert (j = length ids) as -> by lia.
        by rewrite lookup_app_r, Nat.sub_diag.
  - intros i x Hx. apply lookup_app_Some in Hx as [Hx|[Hle Hx]].
    + destruct (Hcov _ _ Hx) as (j & g & Hid & Hg & Hi).
      exists j, g. split_and!; [by apply lookup_app_l_Some..|done].
    + apply list_lookup_singleton_Some in Hx as [Hi <-].
      assert (i = length pre) as -> by lia.
      exists (length ids), [length pre]. split_and!; [| |set_solver].
      * by rewrite lookup_app_r, Nat.sub_diag.
      * by rewrite <- Hlm, lookup_app_r, Nat.sub_diag.
  - intros j i Hj. apply lookup_app_Some in Hj as [Hj|[Hle Hj]].
    + destruct (Hhd _ _ Hj) as (g & Hg & Hi).
      exists g. split; [by apply lookup_app_l_Some|done].
    + apply list_lookup_singleton_Some in Hj as [Hj <-].
      exists [length pre]. split; [|set_solver].
      assert (j = length maps) as -> by lia.
      by rewrite lookup_app_r, Nat.sub_diag.
Qed.

Lemma unique_loop_inv ps : ∀ pre ids idxs maps,
  dedup_inv pre ids idxs maps →
  let '(ids', idxs', maps') := unique_loop ps (length pre) ids idxs maps in
  dedup_inv (pre ++ ps) ids' idxs' maps'.
Proof.
  induction ps as [|p ps IH]; intros pre ids idxs maps Hinv; simpl.
  - by rewrite app_nil_r.
  - replace (pre ++ p :: ps) with ((pre ++ [p]) ++ ps) by by rewrite <- app_assoc.
    replace (S (length pre)) with (length (pre ++ [p]))
      by (rewrite length_app; simpl; lia).
    destruct (list_index (py_id p) ids) as [jfound|] eqn:Hf.
    + apply IH. by apply dedup_inv_found.
    + apply IH. by apply dedup_inv_new.
Qed.

Lemma unique_of_inv l :
  ∃ ids, unique_of l = (ids, idxs_of l, maps_of l) ∧
         dedup_inv l ids (idxs_of l) (maps_of l).
Proof.
  pose proof (unique_loop_inv l [] [] [] [] dedup_inv_nil) as Hinv.
  unfold idxs_of, maps_of, unique_of. simpl in Hinv.
  destruct (unique_loop l 0 [] [] []) as [[ids idxs] maps]. by exists ids.
Qed.

Lemma dedup_inv_below l ids idxs maps :
  dedup_inv l ids idxs maps → groups_below (length l) maps.
Proof.
  intros Hinv j g Hg. apply Forall_forall. intros i Hi.
  destruct (inv_member _ _ _ _ Hinv _ _ _ Hg Hi) as (x & Hx & _).
  by eapply lookup_lt_Some.
Qed.

Lemma dedup_inv_disjoint l ids idxs maps :
  dedup_inv l ids idxs maps → disjoint_groups maps.
Proof.
  intros Hinv j1 j2 g1 g2 i Hg1 Hg2 Hi1 Hi2.
  destruct (inv_member _ _ _ _ Hinv _ _ _ Hg1 Hi1) as (x1 & Hx1 & Hid1).
  destruct (inv_member _ _ _ _ Hinv _ _ _ Hg2 Hi2) as (x2 & Hx2 & Hid2).
  simplify_eq. eapply NoDup_lookup; eauto using inv_nodup.
Qed.

Lemma dedup_inv_alias l ids idxs maps i j x :
  dedup_inv l ids idxs maps →
  l !! i = Some x → l !! j = Some x →
  ∃ k g, maps !! k = Some g ∧ i ∈ g ∧ j ∈ g.
Proof.
  intros Hinv Hi Hj.
  destruct (inv_cover _ _ _ _ Hinv _ _ Hi) as (k1 & g1 & Hid1 & Hg1 & Hin1).
  destruct (inv_cover _ _ _ _ Hinv _ _ Hj) as (k2 & g2 & Hid2 & Hg2 & Hin2).
  assert (k1 = k2) as <- by (eapply NoDup_lookup; eauto using inv_nodup).
  simplify_eq. eauto.
Qed.

Lemma assign_group_ok (a : list pyobj) (g : list nat) (p : pyobj) :
  Forall (λ i, i < length a) g →
  ∃ a', assign_group a g p = Ok a' ∧ length a' = length a ∧
        (∀ i, i ∈ g → a' !! i = Some p) ∧
        (∀ i, i ∉ g → a' !! i = a !! i).
Proof.
  revert a. induction g as [|i g IH]; intros a Hg; simpl.
  - exists a. split_and!; [done..| |done]. intros i Hi. by apply elem_of_nil in Hi.
  - apply Forall_cons in Hg as [Hi Hg].
    rewrite py_setitem_nat by done. simpl.
    destruct (IH (<[i := p]> a)) as (a' & -> & Hlen & Hin & Hout).
    { by rewrite length_insert. }
    rewrite length_insert in Hlen.
    exists a'. split_and!; [done..| |].
    + intros i' Hi'. destruct (decide (i' ∈ g)) as [|Hn]; [by apply Hin|].
      apply elem_of_cons in Hi' as [->|]; [|done].
      rewrite Hout by done. by apply list_lookup_insert_eq.
    + intros i' [Hne Hn]%not_elem_of_cons.
      rewrite Hout by done. by apply list_lookup_insert_ne.
Qed.

Lemma assign_loop_ok maps (us : list pyobj) : ∀ (j : nat) (a : list pyobj),
  groups_below (length a) maps → disjoint_groups maps →
  j + length us ≤ length maps →
  ∃ a', assign_loop maps us j a = Ok a' ∧ length a' = length a ∧
        (∀ k u g i, us !! k = Some u → maps !! (j + k) = Some g → i ∈ g →
                    a' !! i = Some u) ∧
        (∀ i, (∀ k g, k < length us → maps !! (j + k) = Some g → i ∉ g) →
              a' !! i = a !! i).
Proof.
  induction us as [|p us IH]; intros j a Hbelow Hdisj Hlen; simpl in *.
  - exists a. split_and!; [done..| |done]. intros k u g i Hk. done.
  - destruct (lookup_lt_is_Some_2 maps j) as [g Hg]; [lia|].
    rewrite (proj2 (py_index_nat maps j g) Hg). simpl.
    destruct (assign_group_ok a g p) as (a1 & -> & Hlen1 & Hin1 & Hout1); [by eauto|].
    simpl. destruct (IH (S j) a1) as (a' & -> & Hlen' & Hin' & Hout').
    { by rewrite Hlen1. } { done. } { lia. }
    exists a'. split_and!; [done|congruence| |].
    + intros [|k] u g' i Hu Hg' Hi; simpl in *.
      * rewrite Nat.add_0_r in Hg'. simplify_eq.
        rewrite Hout'; [by apply Hin1|].
        intros k g' Hk Hg' Hi'.
        assert (j = S j + k) by (eapply Hdisj; eauto). lia.
      * apply (Hin' k u g' i); [done| |done].
        by replace (S (j + k)) with (j + S k) by lia.
    + intros i Hnone. rewrite Hout'.
      * apply Hout1. apply (Hnone 0 g); [lia|]. by rewrite Nat.add_0_r.
      * intros k g' Hk Hg'. apply (Hnone (S k) g'); [lia|].
        by replace (j + S k) with (S (j + k)) by lia.
Qed.

Section ProtocolFacts.
Context {St : Type} `{EditableModule St}.

Lemma select_intro (a : list pyobj) (idxs : list nat) (us : list pyobj) :
  Forall2 (λ i u, a !! i = Some u) idxs us → select a idxs = Ok us.
Proof.
  unfold select. induction 1 as [|i u idxs us Hi _ IH]; simpl; [done|].
  rewrite (proj2 (py_index_nat a i u) Hi). simpl. by rewrite IH.
Qed.

Lemma select_elim (a : list pyobj) (idxs : list nat) (us : list pyobj) :
  select a idxs = Ok us → Forall2 (λ i u, a !! i = Some u) idxs us.
Proof.
  unfold select. revert us. induction idxs as [|i idxs IH]; intros us; simpl.
  - intros [= <-]. constructor.
  - destruct (py_index a (Z.of_nat i)) as [u|] eqn:Hu; simpl; [|done].
    destruct (mapM _ idxs) as [us'|]; simpl; [|done].
    intros [= <-]. constructor; [by apply py_index_nat|by apply IH].
Qed.

(** Writing the unique parameters back and reading them again gives them
    back: what the [finally] clause of [useparams] relies on. *)
Lemma assign_then_select l ids idxs maps (a us : list pyobj) :
  dedup_inv l ids idxs maps → length a = length l → length us = length idxs →
  ∃ a', assign_loop maps us 0 a = Ok a' ∧ length a' = length a ∧
        select a' idxs = Ok us.
Proof.
  intros Hinv Ha Hus.
  destruct (assign_loop_ok maps us 0 a) as (a' & Ha' & Hlen & Hin & _).
  { rewrite Ha. by eapply dedup_inv_below. }
  { by eapply dedup_inv_disjoint. }
  { rewrite Hus, (inv_len_idxs _ _ _ _ Hinv), (inv_len_maps _ _ _ _ Hinv). simpl. lia. }
  exists a'. split_and!; [done..|]. apply select_intro.
  apply Forall2_same_length_lookup. split; [done|].
  intros j i u Hi Hu.
  destruct (inv_head _ _ _ _ Hinv _ _ Hi) as (g & Hg & Hig). eauto.
Qed.

(** Reading the unique parameters of the list the index was computed from
    and writing them back rebuilds that list. *)
Lemma select_then_assign l ids idxs maps :
  dedup_inv l ids idxs maps →
  ∃ us, select l idxs = Ok us ∧ length us = length idxs ∧
        assign_loop maps us 0 (replicate (length l) PyNone) = Ok l.
Proof.
  intros Hinv.
  assert (∃ us, Forall2 (λ i u, l !! i = Some u) idxs us) as [us Hus].
  { assert (Forall (λ i, is_Some (l !! i)) idxs) as Hall.
    { apply Forall_lookup. intros j i Hi.
      destruct (inv_head _ _ _ _ Hinv _ _ Hi) as (g & Hg & Hig).
      destruct (inv_member _ _ _ _ Hinv _ _ _ Hg Hig) as (x & Hx & _). eauto. }
    clear Hinv. induction Hall as [|i idxs [u Hu] _ [us IH]].
    - exists []. constructor.
    - exists (u :: us). by constructor. }
  exists us. pose proof (Forall2_length _ _ _ Hus) as Hlen.
  split_and!; [by apply select_intro|done|].
  destruct (assign_loop_ok maps us 0 (replicate (length l) PyNone))
    as (a' & Ha' & Hlen' & Hin & _).
  { rewrite length_replicate. by eapply dedup_inv_below. }
  { by eapply dedup_inv_disjoint. }
  { rewrite <- Hlen, (inv_len_idxs _ _ _ _ Hinv), (inv_len_maps _ _ _ _ Hinv). simpl. lia. }
  rewrite Ha'. f_equal. rewrite length_replicate in Hlen'.
  apply list_eq_same_length with (length l); [done..|].
  intros i x y Hi Hx Hy.
  destruct (inv_cover _ _ _ _ Hinv _ _ Hy) as (j & g & Hid & Hg & Hig).
  destruct (lookup_lt_is_Some_2 idxs j) as [i0 Hi0].
  { rewrite (inv_len_idxs _ _ _ _ Hinv). by eapply lookup_lt_Some. }
  destruct (Forall2_lookup_l _ _ _ _ _ Hus Hi0) as (u & Hu & Hlu).
  rewrite (Hin j u g i Hu Hg Hig) in Hx. injection Hx as <-.
  destruct (inv_head _ _ _ _ Hinv _ _ Hi0) as (g' & Hg' & Hig').
  destruct (inv_member _ _ _ _ Hinv _ _ _ Hg' Hig') as (x0 & Hx0 & Hid0).
  simplify_eq. apply py_id_inj. congruence.
Qed.

End ProtocolFacts.

Section ObjectFacts.
Context {St : Type} `{EditableModule St}.

Lemma cached_from_attrs (o o' : obj St) m l :
  attrs o' = attrs o → cached_from o m l → cached_from o' m l.
Proof. unfold cached_from, cached_idxs, cached_maps, cached_number. by intros ->. Qed.

Lemma idxs_of_below l : Forall (λ i, i < length l) (idxs_of l).
Proof.
  destruct (unique_of_inv l) as (ids & _ & Hinv).
  apply Forall_lookup. intros j i Hi.
  destruct (inv_head _ _ _ _ Hinv _ _ Hi) as (g & Hg & Hig).
  destruct (inv_member _ _ _ _ Hinv _ _ _ Hg Hig) as (x & Hx & _).
  by eapply lookup_lt_Some.
Qed.

Lemma select_total (a : list pyobj) (idxs : list nat) :
  Forall (λ i, i < length a) idxs →
  ∃ us, select a idxs = Ok us ∧ length us = length idxs.
Proof.
  intros Hall.
  assert (∃ us, Forall2 (λ i u, a !! i = Some u) idxs us) as [us Hus].
  { induction Hall as [|i idxs Hi _ [us IH]].
    - exists []. constructor.
    - destruct (lookup_lt_is_Some_2 a i Hi) as [u Hu].
      exists (u :: us). by constructor. }
  exists us. split; [by apply select_intro|].
  symmetry. by eapply Forall2_length.
Qed.

Lemma py_setitem_length {A} (l l' : list A) k x :
  py_setitem l k x = Ok l' → length l' = length l.
Proof.
  unfold py_setitem. case_decide; [|done]. intros [= <-]. apply length_insert.
Qed.

Lemma assign_group_length (a a' : list pyobj) g p :
  assign_group a g p = Ok a' → length a' = length a.
Proof.
  revert a. induction g as [|i g IH]; intros a; simpl; [by intros [= ->]|].
  destruct (py_setitem a (Z.of_nat i) p) as [a1|] eqn:Hs; simpl; [|done].
  intros ->%IH. by eapply py_setitem_length.
Qed.

Lemma assign_loop_length maps (us a a' : list pyobj) j :
  assign_loop maps us j a = Ok a' → length a' = length a.
Proof.
  revert j a. induction us as [|p us IH]; intros j a; simpl; [by intros [= ->]|].
  destruct (py_index maps (Z.of_nat j)) as [g|]; simpl; [|done].
  destruct (assign_group a g p) as [a1|] eqn:Hg; simpl; [|done].
  intros ->%IH. by eapply assign_group_length.
Qed.

(** On an object with a cached index [getuniqueparams] only reads. *)
Lemma getuniqueparams_cached (o : obj St) m l :
  cached_from o m l →
  getuniqueparams o m = (o, select (getparams (self_state o) m) (idxs_of l)).
Proof.
  intros (Hi & _ & _). unfold getuniqueparams, _get_unique_params_idxs.
  unfold cached_idxs in Hi. destruct o as [s [c|]]; simpl in *; [|done].
  by rewrite Hi.
Qed.

(** Without a cached index [getuniqueparams] computes it from the current
    parameters. *)
Lemma getuniqueparams_first (o : obj St) m :
  cached_idxs o m = None →
  let l := getparams (self_state o) m in
  ∃ o', getuniqueparams o m = (o', select l (idxs_of l)) ∧
        self_state o' = self_state o ∧ cached_from o' m l.
Proof.
  intros Hnone l. unfold getuniqueparams, _get_unique_params_idxs.
  assert (_unique_params_idxs (default no_entries (attrs o)) !! m = None) as ->.
  { unfold cached_idxs in Hnone. by destruct (attrs o). }
  simpl. fold l. unfold idxs_of, maps_of.
  destruct (unique_of l) as [[ids idxs] maps] eqn:Hu. simpl.
  eexists. split_and!; [done..|].
  unfold cached_from, cached_idxs, cached_maps, cached_number, idxs_of, maps_of.
  simpl. rewrite !lookup_insert_eq. by rewrite Hu.
Qed.

Lemma getuniqueparams_wf (o : obj St) m :
  cache_wf o m →
  ∃ o' l us, getuniqueparams o m = (o', Ok us) ∧
    self_state o' = self_state o ∧ cached_from o' m l ∧
    length l = length (getparams (self_state o) m) ∧
    length us = length (idxs_of l).
Proof.
  intros [Hnone|(l & Hlen & Hc)].
  - destruct (getuniqueparams_first o m Hnone) as (o' & -> & Hs & Hc).
    destruct (select_total (getparams (self_state o) m)
                (idxs_of (getparams (self_state o) m))) as (us & Hus & Hlu).
    { apply idxs_of_below. }
    exists o', (getparams (self_state o) m), us. by rewrite Hus.
  - rewrite (getuniqueparams_cached o m l Hc).
    destruct (select_total (getparams (self_state o) m) (idxs_of l)) as (us & Hus & Hlu).
    { rewrite <- Hlen. apply idxs_of_below. }
    exists o, l, us. by rewrite Hus.
Qed.

Lemma expanded_params_cached (o : obj St) m l us :
  cached_from o m l →
  expanded_params o m us = assign_loop (maps_of l) us 0 (replicate (length l) PyNone).
Proof.
  intros (_ & Hm & Hn). unfold expanded_params, attr_item.
  unfold cached_maps, cached_number in *.
  destruct (attrs o) as [c|]; simpl in *; [|done]. by rewrite Hn, Hm.
Qed.

(** With the cached index in place, installing as many tensors as there are
    unique parameters succeeds. *)
Lemma setuniqueparams_runs (o : obj St) m l us :
  cached_from o m l → length us = length (idxs_of l) →
  ∃ allparams, expanded_params o m us = Ok allparams ∧
    length allparams = length l ∧
    select allparams (idxs_of l) = Ok us ∧
    setuniqueparams o m us =
      ({| self_state := (setparams (self_state o) m allparams).1; attrs := attrs o |},
       Ok (setparams (self_state o) m allparams).2).
Proof.
  intros Hc Hlen. destruct (unique_of_inv l) as (ids & _ & Hinv).
  destruct (assign_then_select l ids _ _ (replicate (length l) PyNone) us Hinv)
    as (a' & Ha' & Hl' & Hsel); [by rewrite length_replicate|done|].
  rewrite length_replicate in Hl'.
  exists a'. unfold setuniqueparams.
  rewrite (expanded_params_cached o m l us Hc), Ha'.
  split_and!; [done..|]. by destruct (setparams _ _ _).
Qed.

End ObjectFacts.

Section LawfulFacts.
Context {St : Type} `{Lawful St}.

(** Whatever [setuniqueparams] is given, it keeps the attributes and the
    number of parameters. *)
Lemma setuniqueparams_layout (o : obj St) m l us :
  cached_from o m l → length l = length (getparams (self_state o) m) →
  ∃ o' r, setuniqueparams o m us = (o', r) ∧ attrs o' = attrs o ∧
          length (getparams (self_state o') m) = length l.
Proof.
  intros Hc Hlen. unfold setuniqueparams.
  rewrite (expanded_params_cached o m l us Hc).
  destruct (assign_loop _ _ _ _) as [a|e] eqn:Ha.
  - apply assign_loop_length in Ha. rewrite length_replicate in Ha.
    pose proof (getparams_setparams (self_state o) m a) as Hget.
    destruct (setparams (self_state o) m a) as [s' n]. simpl in *.
    eexists _, _. split_and!; [done..|]. simpl.
    rewrite Hget by lia. rewrite length_take. lia.
  - by eexists _, _.
Qed.

(** The [finally] clause: the original unique parameters are installed and
    are what [getuniqueparams] returns afterwards. *)
Lemma setuniqueparams_restores (o : obj St) m l orig :
  cached_from o m l → length l = length (getparams (self_state o) m) →
  length orig = length (idxs_of l) →
  ∃ o' n, setuniqueparams o m orig = (o', Ok n) ∧
          getuniqueparams o' m = (o', Ok orig).
Proof.
  intros Hc Hlen Hlo.
  destruct (setuniqueparams_runs o m l orig Hc Hlo) as (a & _ & Hla & Hsel & ->).
  eexists _, _. split; [done|].
  rewrite (getuniqueparams_cached _ m l) by by eapply cached_from_attrs.
  simpl. rewrite getparams_setparams by lia.
  rewrite take_ge by lia. by rewrite Hsel.
Qed.

End LawfulFacts.

Section ScopedSubstitution.
Context {St : Type} `{EditableModule St}.

Lemma setuniqueparams_attrs (o o' : obj St) m us r :
  setuniqueparams o m us = (o', r) → attrs o' = attrs o.
Proof.
  unfold setuniqueparams. destruct (expanded_params o m us); [|by intros [= <- _]].
  destruct (setparams _ _ _). by intros [= <- _].
Qed.

Lemma getuniqueparams_again (o : obj St) m :
  cache_wf o m →
  ∃ o' l us, getuniqueparams o m = (o', Ok us) ∧
    getuniqueparams o' m = (o', Ok us) ∧ cached_from o' m l ∧
    length l = length (getparams (self_state o') m) ∧
    length us = length (idxs_of l).
Proof.
  intros [Hnone|(l & Hlen & Hc)].
  - destruct (getuniqueparams_first o m Hnone) as (o' & Hg & Hs & Hc).
    destruct (select_total (getparams (self_state o) m)
                (idxs_of (getparams (self_state o) m))) as (us & Hus & Hlu).
    { apply idxs_of_below. }
    exists o', (getparams (self_state o) m), us.
    by rewrite Hg, (getuniqueparams_cached o' m _ Hc), Hs, Hus.
  - destruct (select_total (getparams (self_state o) m) (idxs_of l)) as (us & Hus & Hlu).
    { rewrite <- Hlen. apply idxs_of_below. }
    exists o, l, us. by rewrite (getuniqueparams_cached o m l Hc), Hus.
Qed.

Lemma keeps_layout_cached m block (o : obj St) l :
  keeps_layout m block → cached_from o m l →
  cached_from (block o).1 m l ∧
  length (getparams (self_state (block o).1) m) = length (getparams (self_state o) m).
Proof.
  intros Hk (Hi & Hm & Hn). destruct (Hk o) as (Hi' & Hm' & Hn' & Hlen).
  split; [|done]. unfold cached_from. by rewrite Hi', Hm', Hn'.
Qed.

(** C5, as amended: an instance of [Exception] raised by the block that
    runs under [useparams] is printed by the context manager and not raised
    again, so that the [with] statement completes normally, when the block
    has left the cached entries and the number of parameters of the method
    alone (the [finally] clause can then restore). *)
Theorem useparams_suppresses_exception (o : obj St) (m : string)
    (params : list pyobj) (block : obj St → obj St * result unit) (e : exn) :
  cache_wf o m → keeps_layout m block →
  block_result (useparams o m params block) = Some (Raise e) →
  is_Exception e = true →
  outcome (useparams o m params block) = Ok tt ∧
  stderr (useparams o m params block) = [e].
Proof.
  intros Hwf Hk. unfold useparams.
  destruct (getuniqueparams_again o m Hwf) as (o1 & l & orig & -> & _ & Hc & _ & Hlo).
  destruct (setuniqueparams o1 m params) as [o2 [n|e2]] eqn:Hset.
  - pose proof (setuniqueparams_attrs _ _ _ _ _ Hset) as Hattrs.
    destruct (keeps_layout_cached m block o2 l Hk) as [Hc3 _].
    { by eapply cached_from_attrs. }
    destruct (block o2) as [o3 rb]. simpl in Hc3.
    unfold useparams_exit.
    destruct (setuniqueparams_runs o3 m l orig Hc3 Hlo) as (a & _ & _ & _ & ->).
    simpl. intros [= ->] ->. done.
  - unfold enter_failed. by destruct (useparams_exit o2 m (Some orig) (Some e2)) as [[? ?] ?].
Qed.

(** What [except Exception] does not catch (KeyboardInterrupt, SystemExit)
    passes through, unprinted. *)
Lemma useparams_passes_exit_signal (o : obj St) (m : string)
    (params : list pyobj) (block : obj St → obj St * result unit) (e : exn) :
  cache_wf o m → keeps_layout m block →
  block_result (useparams o m params block) = Some (Raise e) →
  is_Exception e = false →
  outcome (useparams o m params block) = Raise e ∧
  stderr (useparams o m params block) = [].
Proof.
  intros Hwf Hk. unfold useparams.
  destruct (getuniqueparams_again o m Hwf) as (o1 & l & orig & -> & _ & Hc & _ & Hlo).
  destruct (setuniqueparams o1 m params) as [o2 [n|e2]] eqn:Hset.
  - pose proof (setuniqueparams_attrs _ _ _ _ _ Hset) as Hattrs.
    destruct (keeps_layout_cached m block o2 l Hk) as [Hc3 _].
    { by eapply cached_from_attrs. }
    destruct (block o2) as [o3 rb]. simpl in Hc3.
    unfold useparams_exit.
    destruct (setuniqueparams_runs o3 m l orig Hc3 Hlo) as (a & _ & _ & _ & ->).
    simpl. intros [= ->] ->. done.
  - unfold enter_failed. by destruct (useparams_exit o2 m (Some orig) (Some e2)) as [[? ?] ?].
Qed.

End ScopedSubstitution.

Section LawfulProtocol.
Context {St : Type} `{Lawful St}.

(** [cache_wf] is an invariant: it holds of a new object and the methods
    keep it. *)
Lemma cache_wf_new (o : obj St) m : attrs o = None → cache_wf o m.
Proof. intros Hnew. left. unfold cached_idxs. by rewrite Hnew. Qed.

Lemma getuniqueparams_keeps_wf (o : obj St) m :
  cache_wf o m → cache_wf (getuniqueparams o m).1 m.
Proof.
  intros Hwf.
  destruct (getuniqueparams_again o m Hwf) as (o' & l & us & -> & _ & Hc & Hlen & _).
  right. by exists l.
Qed.

Lemma setuniqueparams_keeps_wf (o : obj St) m us :
  cache_wf o m → cache_wf (setuniqueparams o m us).1 m.
Proof.
  intros [Hnone|(l & Hlen & Hc)].
  - left. destruct (setuniqueparams o m us) as [o' r] eqn:Hset. simpl.
    apply setuniqueparams_attrs in Hset. unfold cached_idxs in *. by rewrite Hset.
  - destruct (setuniqueparams_layout o m l us Hc Hlen) as (o' & r & -> & Hattrs & Hlen').
    right. exists l. split; [done|]. by eapply cached_from_attrs.
Qed.

Lemma useparams_exit_restores (o : obj St) m l orig raised :
  cached_from o m l → length l = length (getparams (self_state o) m) →
  length orig = length (idxs_of l) →
  ∃ o' printed r, useparams_exit o m (Some orig) raised = (o', printed, r) ∧
                  getuniqueparams o' m = (o', Ok orig).
Proof.
  intros Hc Hlen Hlo. unfold useparams_exit.
  destruct (setuniqueparams_restores o m l orig Hc Hlen Hlo) as (o' & n & -> & Hg).
  by eexists _, _, _.
Qed.

End LawfulProtocol.

Section AliasPropagation.
Context {St : Type} `{EditableModule St}.

(** C7, as amended: when the index of [m] was computed from a parameter
    list that held the identical tensor at positions [i] and [j], the two
    positions belong to one unique group [k], and [setuniqueparams] assigns
    the tensor supplied for that group to both positions of the list it
    hands to [setparams]. *)
Theorem setuniqueparams_alias_propagation (o : obj St) (m : string)
    (l : list pyobj) (i j : nat) (x : pyobj) :
  cached_from o m l → l !! i = Some x → l !! j = Some x →
  ∃ k, k < length (idxs_of l) ∧
    ∀ us u, length us ≤ length (idxs_of l) → us !! k = Some u →
      ∃ allparams,
        expanded_params o m us = Ok allparams ∧
        allparams !! i = Some u ∧ allparams !! j = Some u ∧
        setuniqueparams o m us =
          ({| self_state := (setparams (self_state o) m allparams).1;
              attrs := attrs o |},
           Ok (setparams (self_state o) m allparams).2).
Proof.
  intros Hc Hi Hj. destruct (unique_of_inv l) as (ids & _ & Hinv).
  destruct (dedup_inv_alias _ _ _ _ _ _ _ Hinv Hi Hj) as (k & g & Hg & Hig & Hjg).
  exists k. split.
  { rewrite (inv_len_idxs _ _ _ _ Hinv), <- (inv_len_maps _ _ _ _ Hinv).
    by eapply lookup_lt_Some. }
  intros us u Hlen Hu.
  destruct (assign_loop_ok (maps_of l) us 0 (replicate (length l) PyNone))
    as (a & Ha & _ & Hin & _).
  { rewrite length_replicate. by eapply dedup_inv_below. }
  { by eapply dedup_inv_disjoint. }
  { rewrite (inv_len_maps _ _ _ _ Hinv), <- (inv_len_idxs _ _ _ _ Hinv). simpl. lia. }
  exists a. unfold setuniqueparams. rewrite (expanded_params_cached o m l us Hc), Ha.
  split_and!; [done|by eapply Hin..|]. by destruct (setparams _ _ _).
Qed.

End AliasPropagation.

(** A class that keeps the contract with an attribute of its own for every
    position keeps it with shared attributes. *)
#[global, refine] Instance lawful_attributed {St : Type} `{Lawful St} : Attributed St :=
  {| same_attr := λ _ i j, i = j |}.
Proof.
  - by intros s m i j ->.
  - intros s m ps Hlen _. by apply getparams_setparams.
Defined.

Section AttributedProtocol.
Context {St : Type} `{Attributed St}.

Lemma assign_loop_Ok_bound maps (us : list pyobj) : ∀ (j : nat) (a a' : list pyobj),
  assign_loop maps us j a = Ok a' → j ≤ length maps → j + length us ≤ length maps.
Proof.
  induction us as [|p us IH]; intros j a a' Ha Hj; simpl in *; [lia|].
  destruct (py_index maps (Z.of_nat j)) as [g|] eqn:Hg; simpl in Ha; [|done].
  apply py_index_nat, lookup_lt_Some in Hg.
  destruct (assign_group a g p) as [a1|]; simpl in Ha; [|done].
  apply IH in Ha; lia.
Qed.

(** The list that [setuniqueparams] hands to [setparams] gives one object
    to the positions of one attribute. *)
Lemma expanded_params_same_attr (o : obj St) m l us a :
  cached_from o m l → (∀ i j, same_attr m i j → l !! i = l !! j) →
  expanded_params o m us = Ok a →
  length a = length l ∧ ∀ i j, same_attr m i j → a !! i = a !! j.
Proof.
  intros Hc Hsound Ha. rewrite (expanded_params_cached o m l us Hc) in Ha.
  destruct (unique_of_inv l) as (ids & _ & Hinv).
  pose proof (dedup_inv_disjoint _ _ _ _ Hinv) as Hdisj.
  pose proof (assign_loop_Ok_bound _ _ _ _ _ Ha (Nat.le_0_l _)) as Hbound.
  destruct (assign_loop_ok (maps_of l) us 0 (replicate (length l) PyNone))
    as (a' & Ha' & Hlen & Hin & Hout).
  { rewrite length_replicate. by eapply dedup_inv_below. }
  { done. }
  { done. }
  rewrite Ha in Ha'. injection Ha' as <-. rewrite length_replicate in Hlen.
  split; [done|]. intros i j Hij. specialize (Hsound i j Hij).
  destruct (l !! i) as [x|] eqn:Hi.
  - symmetry in Hsound.
    destruct (dedup_inv_alias _ _ _ _ _ _ _ Hinv Hi Hsound) as (k & g & Hg & Hig & Hjg).
    destruct (us !! k) as [u|] eqn:Hu.
    + by rewrite (Hin k u g i Hu Hg Hig), (Hin k u g j Hu Hg Hjg).
    + apply lookup_ge_None in Hu.
      rewrite !Hout.
      * rewrite !lookup_replicate_2; [done|by eapply lookup_lt_Some..].
      * intros k' g' Hk' Hg' Hjg'. simpl in Hg'.
        assert (k = k') by exact (Hdisj k k' g g' j Hg Hg' Hjg Hjg'). lia.
      * intros k' g' Hk' Hg' Hig'. simpl in Hg'.
        assert (k = k') by exact (Hdisj k k' g g' i Hg Hg' Hig Hig'). lia.
  - symmetry in Hsound. apply lookup_ge_None in Hi, Hsound.
    rewrite !lookup_ge_None_2; [done|lia..].
Qed.

(** What [setuniqueparams] leaves behind: the attributes and the number of
    parameters are kept, and when it was given as many tensors as there
    are unique parameters, [getuniqueparams] returns them. *)
Lemma setuniqueparams_written (o : obj St) m l us :
  cached_from o m l → length l = length (getparams (self_state o) m) →
  (∀ i j, same_attr m i j → l !! i = l !! j) →
  ∃ o' r, setuniqueparams o m us = (o', r) ∧ attrs o' = attrs o ∧
    length (getparams (self_state o') m) = length l ∧
    (length us = length (idxs_of l) →
     (∃ n, r = Ok n) ∧ getuniqueparams o' m = (o', Ok us)).
Proof.
  intros Hc Hlen Hsound. unfold setuniqueparams.
  destruct (expanded_params o m us) as [a|e] eqn:Ha.
  - destruct (expanded_params_same_attr o m l us a Hc Hsound Ha) as [Hla Hsame].
    pose proof (setparams_written (self_state o) m a) as Hget.
    rewrite take_ge in Hget by lia. specialize (Hget ltac:(lia) Hsame).
    destruct (setparams (self_state o) m a) as [s' n]. simpl in Hget.
    eexists _, _. split_and!; [done|done|simpl; by rewrite Hget|].
    intros Hlu. split; [by eexists|].
    destruct (setuniqueparams_runs o m l us Hc Hlu) as (a' & Ha' & _ & Hsel & _).
    rewrite Ha in Ha'. injection Ha' as <-.
    rewrite (getuniqueparams_cached _ m l) by by eapply cached_from_attrs.
    simpl. by rewrite Hget, Hsel.
  - eexists _, _. split_and!; [done..|]. intros Hlu.
    destruct (setuniqueparams_runs o m l us Hc Hlu) as (a' & Ha' & _).
    by rewrite Ha in Ha'.
Qed.

Lemma cache_sound_new (o : obj St) m : attrs o = None → cache_sound o m.
Proof. intros Hnew. left. unfold cached_idxs. by rewrite Hnew. Qed.

(** [getuniqueparams] on an object whose cached entries are sound. *)
Lemma getuniqueparams_sound (o : obj St) m :
  cache_sound o m →
  ∃ o' l us, getuniqueparams o m = (o', Ok us) ∧
    getuniqueparams o' m = (o', Ok us) ∧ self_state o' = self_state o ∧
    cached_from o' m l ∧
    length l = length (getparams (self_state o') m) ∧
    length us = length (idxs_of l) ∧
    (∀ i j, same_attr m i j → l !! i = l !! j).
Proof.
  intros [Hnone|(l & Hlen & Hc & Hsound)].
  - destruct (getuniqueparams_first o m Hnone) as (o' & Hg & Hs & Hc).
    destruct (select_total (getparams (self_state o) m)
                (idxs_of (getparams (self_state o) m))) as (us & Hus & Hlu).
    { apply idxs_of_below. }
    exists o', (getparams (self_state o) m), us.
    rewrite Hg, (getuniqueparams_cached o' m _ Hc), Hs, Hus.
    split_and!; try done. apply getparams_same_attr.
  - destruct (select_total (getparams (self_state o) m) (idxs_of l)) as (us & Hus & Hlu).
    { rewrite <- Hlen. apply idxs_of_below. }
    exists o, l, us. by rewrite (getuniqueparams_cached o m l Hc), Hus.
Qed.

(** Soundness of the cached entries is an invariant of the methods. *)
Lemma getuniqueparams_keeps_sound (o : obj St) m :
  cache_sound o m → cache_sound (getuniqueparams o m).1 m.
Proof.
  intros Hs.
  destruct (getuniqueparams_sound o m Hs) as (o' & l & us & -> & _ & _ & Hc & Hlen & _ & Hl).
  right. by exists l.
Qed.

Lemma setuniqueparams_keeps_sound (o : obj St) m us :
  cache_sound o m → cache_sound (setuniqueparams o m us).1 m.
Proof.
  intros [Hnone|(l & Hlen & Hc & Hsound)].
  - left. destruct (setuniqueparams o m us) as [o' r] eqn:Hset. simpl.
    apply setuniqueparams_attrs in Hset. unfold cached_idxs in *. by rewrite Hset.
  - destruct (setuniqueparams_written o m l us Hc Hlen Hsound)
      as (o' & r & -> & Hattrs & Hlen' & _).
    right. exists l. split_and!; [done| |done]. by eapply cached_from_attrs.
Qed.

(** The [finally] clause of [useparams] on an object whose cached entries
    are in place. *)
Lemma useparams_exit_written (o : obj St) m l orig raised :
  cached_from o m l → length l = length (getparams (self_state o) m) →
  (∀ i j, same_attr m i j → l !! i = l !! j) →
  length orig = length (idxs_of l) →
  ∃ o' printed r, useparams_exit o m (Some orig) raised = (o', printed, r) ∧
                  getuniqueparams o' m = (o', Ok orig).
Proof.
  intros Hc Hlen Hsound Hlo. unfold useparams_exit.
  destruct (setuniqueparams_written o m l orig Hc Hlen Hsound)
    as (o' & r & -> & _ & _ & Hdone).
  destruct (Hdone Hlo) as [[n ->] Hg]. by eexists _, _, _.
Qed.

(** C4, as amended: for an object of a class that keeps the contract of
    [getparams] and [setparams], whose cached entries for the method are
    absent or such as [getuniqueparams] computes, and a block that leaves
    these entries and the number of parameters alone: after the [with]
    statement of [useparams] has ended, by normal completion of the block
    or by an exception in it (or on the way in), [getuniqueparams] returns
    the list it returned just before. *)
Theorem useparams_restores_unique_params (o : obj St) (m : string)
    (params : list pyobj) (block : obj St → obj St * result unit) :
  cache_sound o m → keeps_layout m block →
  ∃ orig, (getuniqueparams o m).2 = Ok orig ∧
    (getuniqueparams
       (final (useparams (getuniqueparams o m).1 m params block)) m).2 = Ok orig.
Proof.
  intros Hs Hk.
  destruct (getuniqueparams_sound o m Hs)
    as (o0 & l & orig & -> & Hagain & _ & Hc & Hlen & Hlo & Hsound).
  exists orig. split; [done|]. simpl. unfold useparams. rewrite Hagain.
  destruct (setuniqueparams_written o0 m l params Hc Hlen Hsound)
    as (o2 & r2 & -> & Hattrs & Hlen2 & _).
  assert (cached_from o2 m l) as Hc2 by by eapply cached_from_attrs.
  destruct r2 as [n|e2].
  - destruct (keeps_layout_cached m block o2 l Hk Hc2) as [Hc3 Hlen3].
    destruct (block o2) as [o3 rb]. simpl in Hc3, Hlen3. cbv beta iota zeta.
    destruct (useparams_exit_written o3 m l orig
                (match rb with Ok _ => None | Raise e => Some e end))
      as (o4 & printed & r & -> & Hg); [done|congruence|done..|].
    simpl. by rewrite Hg.
  - unfold enter_failed.
    destruct (useparams_exit_written o2 m l orig (Some e2))
      as (o4 & printed & r & -> & Hg); [done|congruence|done..|].
    simpl. by rewrite Hg.
Qed.

(** C6, as amended: for an object of a class that keeps the contract, whose
    cached entries for the method are absent or such as [getuniqueparams]
    computes, [setuniqueparams(m, *getuniqueparams(m))] leaves every
    position of [getparams(m)] holding the tensor it held exactly when every
    cached alias group holds one tensor now (as it does when nothing is
    cached yet). *)
Theorem roundtrip_identity_iff_groups_hold_one (o : obj St) (m : string) :
  cache_sound o m → (roundtrip_identity o m ↔ groups_hold_one o m).
Proof.
  intros [Hnone|(l0 & Hlen & Hc & Hsound)]; set (l := getparams (self_state o) m).
  - split; [intros _ [idxs Hi]; by rewrite Hnone in Hi|intros _].
    destruct (getuniqueparams_first o m Hnone) as (o1 & Hget & Hst & Hc).
    destruct (unique_of_inv l) as (ids & _ & Hinv).
    destruct (select_then_assign l ids _ _ Hinv) as (us & Hsel & Hlu & Hassign).
    destruct (setuniqueparams_runs o1 m l us Hc Hlu) as (a & Ha & _ & _ & Hset).
    rewrite (expanded_params_cached o1 m l us Hc), Hassign in Ha.
    injection Ha as <-.
    eexists o1, us, _, _. fold l in Hget. rewrite Hget, Hsel, Hset.
    split_and!; [done..|]. simpl. rewrite Hst. fold l. unfold l at 1.
    rewrite setparams_written; fold l; [by rewrite take_ge|lia|].
    apply getparams_same_attr.
  - pose proof (getuniqueparams_cached o m l0 Hc) as Hget. fold l in Hget, Hlen.
    destruct (select_total l (idxs_of l0)) as (us & Hus & Hlu).
    { rewrite <- Hlen. apply idxs_of_below. }
    rewrite Hus in Hget.
    destruct (setuniqueparams_runs o m l0 us Hc Hlu) as (a & Ha & Hla & _ & Hset).
    destruct (expanded_params_same_attr o m l0 us a Hc Hsound Ha) as [_ Hsame].
    pose proof (setparams_written (self_state o) m a) as Hwritten. fold l in Hwritten.
    rewrite take_ge in Hwritten by lia.
    specialize (Hwritten ltac:(lia) Hsame).
    destruct (unique_of_inv l0) as (ids & _ & Hinv).
    assert (∀ k u g i, us !! k = Some u → maps_of l0 !! k = Some g → i ∈ g →
                       a !! i = Some u) as Hin.
    { rewrite (expanded_params_cached o m l0 us Hc) in Ha.
      destruct (assign_loop_ok (maps_of l0) us 0 (replicate (length l0) PyNone))
        as (a' & Ha' & _ & Hin & _).
      { rewrite length_replicate. by eapply dedup_inv_below. }
      { by eapply dedup_inv_disjoint. }
      { rewrite Hlu, (inv_len_idxs _ _ _ _ Hinv), (inv_len_maps _ _ _ _ Hinv).
        simpl. lia. }
      rewrite Ha in Ha'. injection Ha' as <-. exact Hin. }
    apply select_elim in Hus.
    assert (roundtrip_identity o m ↔ a = l) as ->.
    { split.
      - intros (o1 & us' & o2 & n & Hg' & Hs' & Hsame').
        rewrite Hget in Hg'. injection Hg' as <- <-.
        rewrite Hset in Hs'. injection Hs' as <- _.
        simpl in Hsame'. by rewrite <- Hwritten.
      - intros Hal. eexists o, us, _, _. rewrite Hget, Hset.
        split_and!; [done..|]. simpl. by rewrite Hwritten. }
    split.
    + intros Hal _ maps g i j Hmaps Hg Hi Hj.
      destruct Hc as (_ & Hcm & _). rewrite Hcm in Hmaps. injection Hmaps as <-.
      apply list_elem_of_lookup in Hg as [k Hk].
      destruct (lookup_lt_is_Some_2 us k) as [u Hu].
      { rewrite Hlu, (inv_len_idxs _ _ _ _ Hinv), <- (inv_len_maps _ _ _ _ Hinv).
        by eapply lookup_lt_Some. }
      fold l. rewrite <- Hal.
      by rewrite (Hin k u g i Hu Hk Hi), (Hin k u g j Hu Hk Hj).
    + intros Hgh.
      assert (is_Some (cached_idxs o m)) as Hsome by (destruct Hc as (-> & _); eauto).
      destruct Hc as (_ & Hcm & _).
      apply list_eq_same_length with (length l); [done|lia|].
      intros i x y Hi Hx Hy.
      destruct (lookup_lt_is_Some_2 l0 i) as [z Hz]; [lia|].
      destruct (inv_cover _ _ _ _ Hinv _ _ Hz) as (k & g & Hid & Hg & Hig).
      destruct (lookup_lt_is_Some_2 (idxs_of l0) k) as [i0 Hi0].
      { rewrite (inv_len_idxs _ _ _ _ Hinv). by eapply lookup_lt_Some. }
      destruct (Forall2_lookup_l _ _ _ _ _ Hus Hi0) as (u & Hu & Hlu0).
      destruct (inv_head _ _ _ _ Hinv _ _ Hi0) as (g' & Hg' & Hig').
      rewrite Hg in Hg'. injection Hg' as <-.
      rewrite (Hin k u g i Hu Hg Hig) in Hx. injection Hx as <-.
      pose proof (Hgh Hsome (maps_of l0) g i i0 Hcm
                    (list_elem_of_lookup_2 _ _ _ Hg) Hig Hig') as Heq.
      fold l in Heq. rewrite Hy, Hlu0 in Heq. by injection Heq.
Qed.

End AttributedProtocol.

(** The sample subclass keeps the contract of the abstract methods. *)
#[global] Instance slots_lawful : Lawful slots.
Proof.
  split.
  - intros s m ps Hlen. simpl in *. rewrite lookup_insert_eq. simpl.
    rewrite drop_ge by lia. by rewrite app_nil_r.
  - done.
Qed.

Lemma slots_setparams_length (s : slots) (m m' : string) (ps : list pyobj) :
  length (getparams (setparams s m ps).1 m') = length (getparams s m').
Proof.
  simpl. destruct (decide (m = m')) as [->|Hne].
  - rewrite lookup_insert_eq. simpl.
    rewrite length_app, length_take, length_drop. lia.
  - by rewrite lookup_insert_ne.
Qed.

Lemma failing_block_keeps_layout (m : string) : keeps_layout m failing_block.
Proof.
  intros o. split_and!; [done..|]. apply slots_setparams_length.
Qed.

(** The sample subclass that lists one attribute twice keeps the contract. *)
#[global, refine] Instance two_attrs_attributed : Attributed two_attrs :=
  {| same_attr := λ _ i j, i = j ∨ (i < 2 ∧ j < 2) |}.
Proof.
  - intros s m i j [->|[Hi Hj]]; [done|].
    destruct i as [|[|i]], j as [|[|j]]; simpl; try done; lia.
  - intros s m ps Hlen Hsame. simpl in Hlen.
    destruct ps as [|p0 [|p1 [|p2 ps]]]; simpl in Hlen; try lia.
    pose proof (Hsame 0 1 (or_intror (conj (Nat.lt_0_succ 1) (Nat.lt_succ_diag_r 1))))
      as Heq.
    simpl in Heq. injection Heq as ->. done.
Defined.

Lemma two_attrs_block_keeps_layout (m : string) : keeps_layout m two_attrs_block.
Proof. intros o. split_and!; done. Qed.

(** C4, witness: a module that lists one attribute twice, two new tensors,
    a block that installs yet other tensors and fails. *)
Lemma useparams_restores_unique_params_witness :
  ∃ orig, (getuniqueparams twice_listed "forward").2 = Ok orig ∧
    (getuniqueparams
       (final (useparams (getuniqueparams twice_listed "forward").1 "forward"
                 [Tensor 5; Tensor 6] two_attrs_block)) "forward").2 = Ok orig.
Proof.
  apply (useparams_restores_unique_params twice_listed "forward"
           [Tensor 5; Tensor 6] two_attrs_block).
  - left. reflexivity.
  - apply two_attrs_block_keeps_layout.
Defined.

(** C4, counterexample: a block that deletes the cached dictionaries.  The
    [finally] clause then fails in [setuniqueparams], the substituted
    tensors stay installed, and [getuniqueparams] returns them and not the
    original ones. *)
Lemma useparams_wiping_block_not_restored :
  (getuniqueparams aliased_module "forward").2 = Ok [Tensor 1; Tensor 2] ∧
  outcome (useparams (getuniqueparams aliased_module "forward").1 "forward"
             [Tensor 5; Tensor 6] wiping_block)
  = Raise (AttributeError "_number_of_params") ∧
  (getuniqueparams
     (final (useparams (getuniqueparams aliased_module "forward").1 "forward"
               [Tensor 5; Tensor 6] wiping_block)) "forward").2
  = Ok [Tensor 5; Tensor 6] ∧
  ¬ ∃ orig, (getuniqueparams aliased_module "forward").2 = Ok orig ∧
      (getuniqueparams
         (final (useparams (getuniqueparams aliased_module "forward").1 "forward"
                   [Tensor 5; Tensor 6] wiping_block)) "forward").2 = Ok orig.
Proof.
  split_and!; [by vm_compute..|].
  intros (orig & Hbefore & Hafter).
  vm_compute in Hbefore. vm_compute in Hafter. congruence.
Qed.

(** C5, witness: the [ValueError] of the block is printed and swallowed. *)
Lemma useparams_suppresses_exception_witness :
  outcome (useparams aliased_module "forward" [Tensor 5; Tensor 6] failing_block) = Ok tt ∧
  stderr (useparams aliased_module "forward" [Tensor 5; Tensor 6] failing_block)
    = [UserException "ValueError"].
Proof.
  apply (useparams_suppresses_exception aliased_module "forward"
           [Tensor 5; Tensor 6] failing_block (UserException "ValueError")).
  - left. reflexivity.
  - apply failing_block_keeps_layout.
  - vm_compute. reflexivity.
  - reflexivity.
Defined.

(** C6, counterexample: the index was computed while both parameters were
    one tensor; with two tensors in place the round trip overwrites the
    second one. *)
Lemma roundtrip_identity_split_alias : ¬ roundtrip_identity split_alias "forward".
Proof.
  intros (o1 & us & o2 & n & Hget & Hset & Hsame).
  assert (getuniqueparams split_alias "forward" = (split_alias, Ok [Tensor 3])) as Hg
    by (vm_compute; reflexivity).
  rewrite Hg in Hget. injection Hget as <- <-.
  assert (getparams (self_state (setuniqueparams split_alias "forward" [Tensor 3]).1)
            "forward" = [Tensor 3; Tensor 3]) as Hs by (vm_compute; reflexivity).
  rewrite Hset in Hs. simpl fst in Hs. rewrite Hsame in Hs.
  vm_compute in Hs. discriminate Hs.
Qed.

(** C5, counterexample: a [KeyboardInterrupt] in the block reaches the
    caller, and so does the [AttributeError] of the [finally] clause when
    the block that raised [ValueError] had deleted the cached dictionaries. *)
Lemma useparams_exception_not_suppressed :
  block_result (useparams aliased_module "forward" [Tensor 5; Tensor 6]
                  keyboard_interrupt_block)
  = Some (Raise (BaseExceptionOnly "KeyboardInterrupt")) ∧
  outcome (useparams aliased_module "forward" [Tensor 5; Tensor 6]
             keyboard_interrupt_block)
  = Raise (BaseExceptionOnly "KeyboardInterrupt") ∧
  block_result (useparams aliased_module "forward" [Tensor 5; Tensor 6]
                  wiping_failing_block)
  = Some (Raise (UserException "ValueError")) ∧
  outcome (useparams aliased_module "forward" [Tensor 5; Tensor 6]
             wiping_failing_block)
  = Raise (AttributeError "_number_of_params").
Proof. split_and!; by vm_compute. Qed.

(** C6, witness: the index was computed while the two parameters were two
    tensors; both positions hold one tensor now, every group still holds
    one tensor, and the round trip changes nothing. *)
Lemma roundtrip_identity_iff_groups_hold_one_witness :
  roundtrip_identity joined_alias "forward" ↔ groups_hold_one joined_alias "forward".
Proof.
  apply (roundtrip_identity_iff_groups_hold_one joined_alias "forward").
  right. exists [Tensor 1; Tensor 2]. split_and!.
  - reflexivity.
  - split_and!; vm_compute; reflexivity.
  - intros i j Hij. simpl in Hij. by subst.
Defined.

(** C7, counterexample: the index was computed while the two parameters
    were two tensors; now that both positions hold one tensor they are still
    assigned separately. *)
Lemma alias_propagation_joined_alias : ¬ alias_propagation joined_alias "forward".
Proof.
  intros Hc.
  specialize (Hc 0 1 (Tensor 3) [Tensor 5; Tensor 6] [Tensor 5; Tensor 6]).
  assert ([Tensor 5; Tensor 6] !! 0 = [Tensor 5; Tensor 6] !! 1) as Heq.
  { apply Hc; vm_compute; reflexivity. }
  discriminate Heq.
Qed.

(** C7, witness: positions 0 and 1 of the aliased module. *)
Lemma setuniqueparams_alias_propagation_witness :
  ∃ k, k < length (idxs_of [Tensor 1; Tensor 1; Tensor 2]) ∧
    ∀ us u, length us ≤ length (idxs_of [Tensor 1; Tensor 1; Tensor 2]) →
      us !! k = Some u →
      ∃ allparams,
        expanded_params (getuniqueparams aliased_module "forward").1 "forward" us
          = Ok allparams ∧
        allparams !! 0 = Some u ∧ allparams !! 1 = Some u ∧
        setuniqueparams (getuniqueparams aliased_module "forward").1 "forward" us =
          ({| self_state :=
                (setparams (self_state (getuniqueparams aliased_module "forward").1)
                   "forward" allparams).1;
              attrs := attrs (getuniqueparams aliased_module "forward").1 |},
           Ok (setparams (self_state (getuniqueparams aliased_module "forward").1)
                 "forward" allparams).2).
Proof.
  apply (setuniqueparams_alias_propagation
           (getuniqueparams aliased_module "forward").1 "forward"
           [Tensor 1; Tensor 1; Tensor 2] 0 1 (Tensor 1)).
  - split_and!; vm_compute; reflexivity.
  - reflexivity.
  - reflexivity.
Defined.

End LinTorchFacts.

(** * Properties of [solve_ivp] *)

Module XiTorchFacts.
Import XiTorch.

Section FrontEnd.
Context `{Torch} `{Collaborators}.

Lemma value_bind {A B} (r : run A) (f : A → run B) :
  value (r ≫= f) = value r ≫= (λ a, value (f a)).
Proof. unfold mbind, run_bind, result_bind. by destruct (value r). Qed.

Lemma events_bind_Ok {A B} (r : run A) (f : A → run B) (a : A) :
  value r = Ok a → events (r ≫= f) = events r ++ events (f a).
Proof. intros Hr. unfold mbind, run_bind. by rewrite Hr. Qed.

Lemma events_bind_Raise {A B} (r : run A) (f : A → run B) (e : exn) :
  value r = Raise e → events (r ≫= f) = events r.
Proof. intros Hr. unfold mbind, run_bind. by rewrite Hr. Qed.

(** A strategy name that is not in the dictionary never gets the
    [RuntimeError] that names it: the handler looks ["method"] up in the
    dictionary it was popped from. *)
Lemma forward_unknown_method (pfcn : rhs) (ts : time_tensor)
    (fwd_options bck_options : gmap string optval) (nparams : nat) (y0 : T)
    (allparams : list param) (name : string) :
  fwd_options !! "method" = Some (OStr name) →
  solvers !! lower name = None →
  forward pfcn ts fwd_options bck_options nparams y0 allparams
  = {| events := [EvSelect (lower name)]; value := Raise (KeyError "method") |}.
Proof.
  intros Hname Hnone. unfold forward, set_default_option, dict_pop.
  rewrite (lookup_union_Some_l _ _ _ _ Hname). simpl.
  unfold mbind at 1, run_bind at 1. simpl.
  unfold mbind at 1, run_bind at 1. simpl.
  unfold mbind at 1, run_bind at 1. simpl.
  rewrite Hnone. unfold dict_getitem. rewrite lookup_delete_eq. reflexivity.
Qed.

(** C3: asking for the strategy ["rk99"] does not raise the configuration
    error that names ["rk99"]; [forward] ends in [KeyError('method')]. *)
Theorem forward_rk99_raises_KeyError (pfcn : rhs) (ts : time_tensor)
    (fwd_options bck_options : gmap string optval) (nparams : nat) (y0 : T)
    (allparams : list param) :
  value (forward pfcn ts (<["method" := OStr "rk99"]> fwd_options) bck_options
           nparams y0 allparams)
  = Raise (KeyError "method").
Proof.
  rewrite (forward_unknown_method _ _ _ _ _ _ _ "rk99"); [done| |done].
  apply lookup_insert_eq.
Qed.

Lemma events_bind_silent {A B} (r : run A) (f : A → run B) :
  (∀ a, events (f a) = []) → events (r ≫= f) = events r.
Proof.
  intros Hf. unfold mbind, run_bind. destruct (value r); simpl; [|done].
  by rewrite Hf, app_nil_r.
Qed.

Lemma events_bind_pure {A B} (r : run A) (f : A → run B) (a : A) :
  events r = [] → value r = Ok a → events (r ≫= f) = events (f a).
Proof. intros He Hr. by rewrite (events_bind_Ok _ _ _ Hr), He. Qed.

Lemma call_events (fcn : rhs) (t : T) (y : yval) (params : list param) :
  events (call fcn t y params) = [EvFcn t y params].
Proof. done. Qed.

Lemma call_value (fcn : rhs) (t : T) (y : yval) (params : list param) :
  value (call fcn t y params) = fcn t y params.
Proof. done. Qed.

Lemma debug_check_off (fcn : rhs) (ts : time_tensor) (y0 : yval)
    (params : list param) :
  is_debug_enabled = false → debug_check fcn ts y0 params = mret tt.
Proof. unfold debug_check. by intros ->. Qed.

(** Whatever [forward] does that is observable starts with the selection of
    the strategy. *)
Lemma forward_events (pfcn : rhs) (ts : time_tensor)
    (fwd_options bck_options : gmap string optval) (nparams : nat) (y0 : T)
    (allparams : list param) :
  let evs := events (forward pfcn ts fwd_options bck_options nparams y0 allparams) in
  evs = [] ∨ ∃ method rest, evs = EvSelect method :: rest.
Proof.
  unfold forward. destruct (dict_pop _ "method") as [[orig_method config]|e]; [|by left].
  destruct orig_method as [s| |]; [|by left..].
  right. exists (lower s). unfold mbind at 1, run_bind at 1. simpl.
  unfold mbind at 1, run_bind at 1. simpl.
  unfold mbind at 1, run_bind at 1. simpl. eauto.
Qed.

(** C9, as amended: a time grid that is not 1-dimensional is rejected with
    the configuration error of [assert_runtime]; [solve_ivp] has then
    evaluated nothing and started no solver (in debug mode the argument
    assertion runs first).  Monotonicity is not looked at. *)
Theorem solve_ivp_rejects_non_1d (fcn : rhs) (ts : time_tensor) (y0 : yval)
    (params : list param) (fwd_options bck_options : gmap string optval) :
  length (shape ts) ≠ 1 →
  let r := solve_ivp fcn ts y0 params fwd_options bck_options in
  events r = events (debug_check fcn ts y0 params) ∧
  (∃ e, value r = Raise e) ∧
  (value (debug_check fcn ts y0 params) = Ok tt →
   value r = Raise (RuntimeError "Argument ts must be a 1D tensor")) ∧
  (is_debug_enabled = false → events r = [] ∧ rejected_before_integration r).
Proof.
  intros Hdim r.
  assert (events r = events (debug_check fcn ts y0 params) ∧
          value r = value (debug_check fcn ts y0 params) ≫=
                      (λ _, Raise (RuntimeError "Argument ts must be a 1D tensor")))
    as [Hev Hval].
  { unfold r, solve_ivp. rewrite bool_decide_eq_false_2 by done.
    rewrite value_bind.
    destruct (value (debug_check fcn ts y0 params)) as [[]|e] eqn:Hd.
    - by rewrite (events_bind_Ok _ _ _ Hd), app_nil_r.
    - by rewrite (events_bind_Raise _ _ _ Hd). }
  split_and!; [done| | |].
  - rewrite Hval. destruct (value (debug_check fcn ts y0 params)); simpl; eauto.
  - intros Hd. by rewrite Hval, Hd.
  - intros Hoff. rewrite (debug_check_off _ _ _ _ Hoff) in Hev, Hval. simpl in *.
    split; [done|]. split; [by eauto|]. intros s ts' y0'. rewrite Hev.
    apply not_elem_of_nil.
Qed.

(** C10, as amended: on a 1-dimensional, non-empty time grid (and once the
    debug-mode assertion, if enabled, has passed) [solve_ivp] evaluates
    [fcn] exactly once, at [(ts[0], y0, *params)], and does so before the
    strategy is selected and before any integration. *)
Theorem solve_ivp_probes_fcn_once (fcn : rhs) (ts : time_tensor) (y0 : yval)
    (params : list param) (fwd_options bck_options : gmap string optval) (t0 : T) :
  length (shape ts) = 1 → first_entry ts = Ok t0 →
  value (debug_check fcn ts y0 params) = Ok tt →
  ∃ evs,
    events (solve_ivp fcn ts y0 params fwd_options bck_options)
    = events (debug_check fcn ts y0 params) ++ evs ∧
    probed_once evs t0 y0 params.
Proof.
  intros Hdim Ht0 Hdbg. unfold solve_ivp.
  rewrite bool_decide_eq_true_2 by done. rewrite Ht0.
  rewrite (events_bind_Ok _ _ tt Hdbg). eexists. split; [done|].
  rewrite (events_bind_pure _ _ tt) by done.
  cbv zeta. rewrite (events_bind_pure _ _ t0) by done.
  destruct (fcn t0 y0 params) as [dydt|e] eqn:Hf.
  - rewrite (events_bind_Ok _ _ dydt) by by rewrite call_value.
    rewrite call_events. eexists. split; [done|].
    destruct (negb _); [by left|].
    destruct y0 as [y0|y0].
    + rewrite events_bind_silent by by intros [? ?].
      destruct (forward_events fcn ts fwd_options bck_options (length params) y0
                  (params ++ objparams_of fcn)) as [->|(m & rest & ->)]; eauto.
    + rewrite events_bind_silent by by intros [? ?].
      destruct (forward_events (pfcn2 fcn y0) ts fwd_options bck_options
                  (length params) (flatten y0) (params ++ objparams_of fcn))
        as [->|(m & rest & ->)]; eauto.
  - rewrite (events_bind_Raise _ _ e) by by rewrite call_value.
    rewrite call_events. exists []. eauto.
Qed.

End FrontEnd.

(** C3, at the failing input: the whole call with [method="rk99"]. *)
Example solve_ivp_rk99 :
  value (solve_ivp Sample.growth (Sample.grid [0; 1]%Z false) (YTensor [1%Z])
           [PTensor [2%Z]] {["method" := OStr "rk99"]} ∅)
  = Raise (KeyError "method").
Proof. vm_compute. reflexivity. Qed.

(** C9, counterexample: the grid [0, 2, 1] is not monotonic and is
    integrated over all the same. *)
Lemma solve_ivp_accepts_non_monotonic :
  let r := solve_ivp Sample.growth (Sample.grid [0; 2; 1]%Z false) (YTensor [1%Z])
             [PTensor [2%Z]] ∅ ∅ in
  Sample.strictly_monotonic [0; 2; 1]%Z = false ∧
  EvSolver rk45_adaptive (Sample.grid [0; 2; 1]%Z false) [1%Z] ∈ events r ∧
  ¬ rejected_before_integration r.
Proof.
  split_and!.
  - reflexivity.
  - vm_compute. do 2 right. left.
  - intros [[msg Hmsg] _]. vm_compute in Hmsg. discriminate Hmsg.
Qed.

(** C9, witness: a grid given as a matrix. *)
Lemma solve_ivp_rejects_non_1d_witness :
  let r := solve_ivp Sample.growth Sample.matrix_grid (YTensor [1%Z])
             [PTensor [2%Z]] ∅ ∅ in
  events r = events (debug_check Sample.growth Sample.matrix_grid (YTensor [1%Z])
                       [PTensor [2%Z]]) ∧
  (∃ e, value r = Raise e) ∧
  (value (debug_check Sample.growth Sample.matrix_grid (YTensor [1%Z])
            [PTensor [2%Z]]) = Ok tt →
   value r = Raise (RuntimeError "Argument ts must be a 1D tensor")) ∧
  (is_debug_enabled = false → events r = [] ∧ rejected_before_integration r).
Proof.
  apply solve_ivp_rejects_non_1d.
  simpl. lia.
Defined.

(** C10, counterexample: the call with a matrix as time grid is rejected
    without a single evaluation of [fcn]. *)
Lemma solve_ivp_matrix_grid_never_probes :
  let r := solve_ivp Sample.growth Sample.matrix_grid (YTensor [1%Z])
             [PTensor [2%Z]] ∅ ∅ in
  events r = [] ∧
  ∀ t0, ¬ probed_once (events r) t0 (YTensor [1%Z]) [PTensor [2%Z]].
Proof.
  split; [vm_compute; reflexivity|].
  intros t0 (rest & Hr & _). vm_compute in Hr. discriminate Hr.
Qed.

(** C10, witness: the grid [0, 1, 2]. *)
Lemma solve_ivp_probes_fcn_once_witness :
  ∃ evs,
    events (solve_ivp Sample.growth (Sample.grid [0; 1; 2]%Z false) (YTensor [1%Z])
              [PTensor [2%Z]] ∅ ∅)
    = events (debug_check Sample.growth (Sample.grid [0; 1; 2]%Z false)
                (YTensor [1%Z]) [PTensor [2%Z]]) ++ evs ∧
    probed_once evs [0%Z] (YTensor [1%Z]) [PTensor [2%Z]].
Proof.
  apply solve_ivp_probes_fcn_once.
  - reflexivity.
  - reflexivity.
  - reflexivity.
Defined.

Section Backward.
Context `{Torch} `{Collaborators}.

Lemma bind_Ok {A B} (r : result A) (f : A → result B) (b : B) :
  r ≫= f = Ok b → ∃ a, r = Ok a ∧ f a = Ok b.
Proof. destruct r as [a|e]; simpl; [eauto|done]. Qed.

Lemma fmap_Ok {A B} (r : result A) (f : A → B) (b : B) :
  f <$> r = Ok b → ∃ a, r = Ok a ∧ b = f a.
Proof. destruct r as [a|e]; simpl; [|done]. intros [= <-]. eauto. Qed.

Lemma py_index_lookup {A} (l : list A) (k : Z) (x : A) :
  py_index l k = Ok x →
  l !! Z.to_nat (if decide (k < 0)%Z then k + Z.of_nat (length l) else k)%Z = Some x ∧
  (0 ≤ (if decide (k < 0)%Z then k + Z.of_nat (length l) else k) < Z.of_nat (length l))%Z.
Proof.
  unfold py_index. case_decide as Hk; case_decide as Hr; try done;
    destruct (l !! _) eqn:E; by intros [= ->].
Qed.

(** [l[-(j+1)]] is the element [j] places before the last one. *)
Lemma py_index_from_end {A} (l : list A) (j : nat) (x : A) :
  py_index l (- Z.of_nat (S j)) = Ok x →
  S j ≤ length l ∧ l !! (length l - S j) = Some x.
Proof.
  intros [Hl Hr]%py_index_lookup.
  rewrite decide_True in Hl, Hr by lia. split; [lia|].
  by replace (length l - S j) with (Z.to_nat (- Z.of_nat (S j) + Z.of_nat (length l))) by lia.
Qed.

Lemma py_setitem_insert {A} (l l' : list A) (i : nat) (x : A) :
  py_setitem l (Z.of_nat i) x = Ok l' → i < length l ∧ l' = <[i := x]> l.
Proof.
  unfold py_setitem. destruct (decide (Z.of_nat i < 0)%Z); [lia|].
  case_decide; [|done]. intros [= <-]. rewrite Nat2Z.id. split; [lia|done].
Qed.

Lemma mapM_last (outs : list (list T)) (sts : list T) :
  mapM (M := result) (λ out : list T, py_index out (-1)) outs = Ok sts →
  Forall2 (λ out s, last out = Some s) outs sts.
Proof.
  revert sts. induction outs as [|out outs IH]; intros sts; simpl.
  - intros [= <-]. constructor.
  - intros (s & Hs & (sts' & Hsts & [= <-])%bind_Ok)%bind_Ok.
    constructor; [|by apply IH].
    apply (py_index_from_end out 0) in Hs as [Hlen Hs].
    rewrite last_lookup. by replace (pred (length out)) with (length out - 1) by lia.
Qed.

Lemma for_range_snoc body (range : list nat) (i : nat) (st : loop_state) :
  for_range body (range ++ [i]) st = for_range body range st ≫= body i.
Proof.
  revert st. induction range as [|j range IH]; intros st; simpl.
  - by destruct (body i st).
  - destruct (body j st) as [st'|e]; simpl; [apply IH|done].
Qed.

Lemma time_gradient_step_idx ctx ge params grad_yt tps ts_flip i st st1 :
  time_gradient_step ctx ge params grad_yt tps ts_flip i st = Ok st1 →
  t_flip_idx st1 = t_flip_idx st.
Proof.
  unfold time_gradient_step. destruct (ctx_ts_requires_grad ctx); [|by intros [= <-]].
  intros (? & _ & (? & _ & ([[[? ?] ?] ?] & _ & (? & _ & (? & _ & (? & _ &
    (? & _ & (? & _ & [= <-])%bind_Ok)%bind_Ok)%bind_Ok)%bind_Ok)%bind_Ok)%bind_Ok)%bind_Ok)%bind_Ok.
  done.
Qed.

(** What one iteration of the loop has done when it completes. *)
Lemma backward_step_inv ctx ge params grad_yt tps ts_flip i st st' :
  backward_step ctx ge params grad_yt tps ts_flip i st = Ok st' →
  ∃ st1 outs sts y gyt gy0,
    time_gradient_step ctx ge params grad_yt tps ts_flip i st = Ok st1 ∧
    sub_solve ctx ge params ts_flip i (states st1) tps = Ok outs ∧
    Forall2 (λ out s, last out = Some s) outs sts ∧
    py_index (ctx_yt ctx) (t_flip_idx st - 1) = Ok y ∧
    py_index grad_yt (t_flip_idx st - 1) = Ok gyt ∧
    sts !! dLdy_index = Some gy0 ∧
    dLdy_index < length sts ∧
    states st' = <[dLdy_index := add gyt gy0]> (<[y_index := y]> sts) ∧
    t_flip_idx st' = (t_flip_idx st - 1)%Z ∧
    grad_ts st' = grad_ts st1.
Proof.
  unfold backward_step.
  intros (st1 & Hst1 & (outs & Houts & (sts & Hsts & (y & Hy & (sts1 & Hsts1 &
    (gyt & Hgyt & (gy0 & Hgy0 & (sts2 & Hsts2 & [= <-])%bind_Ok)%bind_Ok)%bind_Ok)
    %bind_Ok)%bind_Ok)%bind_Ok)%bind_Ok)%bind_Ok.
  pose proof (time_gradient_step_idx _ _ _ _ _ _ _ _ _ Hst1) as Hidx.
  rewrite Hidx in *.
  apply py_setitem_insert in Hsts1 as [Hlen0 ->].
  apply py_setitem_insert in Hsts2 as [Hlen1 ->].
  rewrite length_insert in Hlen1.
  apply LinTorchFacts.py_index_nat in Hgy0.
  rewrite list_lookup_insert_ne in Hgy0 by done.
  exists st1, outs, sts, y, gyt, gy0. split_and!; try done.
  by apply mapM_last.
Qed.

Lemma backward_loop_idx ctx ge params grad_yt tps ts_flip (n : nat) st0 st :
  for_range (backward_step ctx ge params grad_yt tps ts_flip) (seq 0 n) st0 = Ok st →
  t_flip_idx st = (t_flip_idx st0 - Z.of_nat n)%Z.
Proof.
  revert st. induction n as [|n IH]; intros st.
  - intros [= <-]. lia.
  - rewrite seq_S, for_range_snoc, Nat.add_0_l.
    intros (st1 & Hst1 & Hstep)%bind_Ok.
    apply backward_step_inv in Hstep as (? & ? & ? & ? & ? & ? & _ & _ & _ & _ & _ & _ & _ & _ & Hidx & _).
    rewrite Hidx, (IH _ Hst1). lia.
Qed.

Lemma take2_drop {A} (l : list A) (k : nat) (a b : A) :
  l !! k = Some a → l !! S k = Some b → take 2 (drop k l) = [a; b].
Proof.
  revert l. induction k as [|k IH]; intros [|x l]; simpl; try done.
  - intros [= ->]. destruct l; simpl; [done|]. by intros [= ->].
  - apply IH.
Qed.

(** C8: each reverse sub-step that completes leaves in the [y] slot the
    stored sample of the forward trajectory at the earlier time index, not
    the value integrated backwards, and in the [adjointY] slot the sum of
    the upstream gradient sample at that index and the adjoint carried by
    the sub-step.  Sub-step [k] (counted from 0) runs over
    [(ts[nt-1-k], ts[nt-2-k])]. *)
Theorem backward_substep_resets_y_and_adds_gradient
    (ctx : context) (ge : bool) (params : list param) (grad_yt : list T)
    (k : nat) (st0 st' : loop_state) :
  let ts := entries (saved_ts ctx) in
  let nt := length ts in
  let tps := saved_tensor_params ctx in
  let ts_flip := flip (saved_ts ctx) in
  length (ctx_yt ctx) = nt → length grad_yt = nt → S k < nt →
  backward_init ctx grad_yt = Ok st0 →
  for_range (backward_step ctx ge params grad_yt tps ts_flip) (seq 0 (S k)) st0 = Ok st' →
  ∃ st st1 outs carried y g t_late t_early,
    for_range (backward_step ctx ge params grad_yt tps ts_flip) (seq 0 k) st0 = Ok st ∧
    time_gradient_step ctx ge params grad_yt tps ts_flip k st = Ok st1 ∧
    ts !! (nt - 1 - k) = Some t_late ∧ ts !! (nt - 2 - k) = Some t_early ∧
    entries (slice2 ts_flip k) = [t_late; t_early] ∧
    sub_solve ctx ge params ts_flip k (states st1) tps = Ok outs ∧
    outs !! dLdy_index ≫= last = Some carried ∧
    ctx_yt ctx !! (nt - 2 - k) = Some y ∧
    grad_yt !! (nt - 2 - k) = Some g ∧
    states st' !! y_index = Some y ∧
    states st' !! dLdy_index = Some (add g carried).
Proof.
  intros ts nt tps ts_flip Hyt Hgyt Hk Hinit Hloop.
  rewrite seq_S, for_range_snoc, Nat.add_0_l in Hloop.
  apply bind_Ok in Hloop as (st & Hst & Hstep).
  pose proof (backward_loop_idx _ _ _ _ _ _ _ _ _ Hst) as Hidx.
  assert (t_flip_idx st0 = (-1)%Z) as Hidx0.
  { unfold backward_init in Hinit.
    apply bind_Ok in Hinit as (? & _ & (? & _ & (? & _ & [= <-])%bind_Ok)%bind_Ok). done. }
  apply backward_step_inv in Hstep
    as (st1 & outs & sts & y & g & gy0 & Hst1 & Houts & Hlast & Hy & Hg & Hgy0 & Hlen & Hst' & _ & _).
  replace (t_flip_idx st - 1)%Z with (- Z.of_nat (S (S k)))%Z in Hy, Hg by lia.
  apply py_index_from_end in Hy as [_ Hy], Hg as [_ Hg].
  rewrite Hyt in Hy. rewrite Hgyt in Hg.
  replace (nt - S (S k)) with (nt - 2 - k) in Hy, Hg by lia.
  destruct (lookup_lt_is_Some_2 ts (nt - 1 - k)) as [t_late Hlate]; [lia|].
  destruct (lookup_lt_is_Some_2 ts (nt - 2 - k)) as [t_early Hearly]; [lia|].
  destruct (Forall2_lookup_r _ _ _ _ _ Hlast Hgy0) as (out & Hout & Hcarried).
  exists st, st1, outs, gy0, y, g, t_late, t_early.
  split_and!; try done.
  - simpl. apply take2_drop.
    + rewrite reverse_lookup by (fold ts; lia). fold ts. fold nt.
      by replace (nt - S k) with (nt - 1 - k) by lia.
    + rewrite reverse_lookup by (fold ts; lia). fold ts. fold nt.
      by replace (nt - S (S k)) with (nt - 2 - k) by lia.
  - by rewrite Hout.
  - rewrite Hst'. rewrite list_lookup_insert_ne by done.
    apply list_lookup_insert_eq. unfold dLdy_index, y_index in *. lia.
  - rewrite Hst'. apply list_lookup_insert_eq. by rewrite length_insert.
Qed.

End Backward.

Section Gradients.
Context `{Torch} `{Collaborators}.

Lemma interleave_slots {A} (P Q : A → Prop) (positions : list bool) :
  ∀ (tensors nontensors out : list A),
  interleave positions tensors nontensors = Ok out →
  Forall P tensors → Forall Q nontensors →
  length out = length positions ∧
  ∀ p, (positions !! p = Some true → ∃ x, out !! p = Some x ∧ P x) ∧
       (positions !! p = Some false → ∃ x, out !! p = Some x ∧ Q x).
Proof.
  induction positions as [|[] positions IH]; intros tensors nontensors out; simpl.
  - intros [= <-] _ _. split; [done|]. intros p. by rewrite lookup_nil.
  - destruct tensors as [|t tensors]; [done|].
    intros (out' & Hout' & ->)%fmap_Ok [Ht Hts]%Forall_cons Hns.
    destruct (IH _ _ _ Hout' Hts Hns) as [Hlen Hp].
    split; [simpl; by rewrite Hlen|]. intros [|p]; simpl; [|apply Hp].
    split; [eauto|done].
  - destruct nontensors as [|n nontensors]; [done|].
    intros (out' & Hout' & ->)%fmap_Ok Hts [Hn Hns]%Forall_cons.
    destruct (IH _ _ _ Hout' Hts Hns) as [Hlen Hp].
    split; [simpl; by rewrite Hlen|]. intros [|p]; simpl; [|apply Hp].
    split; [done|eauto].
Qed.

(** The separator gives back the list it was built from. *)
Lemma reconstruct_params_separate (allparams : list param) :
  reconstruct_params (separate allparams) (get_tensor_params (separate allparams))
  = Ok allparams.
Proof.
  unfold reconstruct_params, get_tensor_params, separate, variables_of. simpl.
  induction allparams as [|[t|t|v] allparams IH]; [done| | |].
  - rewrite filter_cons_False by done. cbn [fmap list_fmap omap list_omap interleave is_tensor].
    by rewrite IH.
  - rewrite filter_cons_True by done. cbn [fmap list_fmap omap list_omap interleave is_tensor].
    by rewrite IH.
  - rewrite filter_cons_True by done. cbn [fmap list_fmap omap list_omap interleave is_tensor].
    by rewrite IH.
Qed.

(** The separator that [forward] stores is the one of [allparams]. *)
Lemma forward_param_sep (pfcn : rhs) (ts : time_tensor)
    (fwd_options bck_options : gmap string optval) (nparams : nat) (y0 : T)
    (allparams : list param) (yt : list T) (ctx : context) :
  value (forward pfcn ts fwd_options bck_options nparams y0 allparams) = Ok (yt, ctx) →
  param_sep ctx = separate allparams.
Proof.
  unfold forward. rewrite value_bind.
  intros ([orig_method config] & _ & Hrest)%bind_Ok. revert Hrest.
  rewrite value_bind. intros (method & _ & Hrest)%bind_Ok. revert Hrest.
  rewrite value_bind. intros (_ & _ & Hrest)%bind_Ok. revert Hrest.
  rewrite value_bind. intros (solver & _ & Hrest)%bind_Ok. revert Hrest.
  rewrite value_bind. intros (_ & _ & Hrest)%bind_Ok. revert Hrest.
  rewrite value_bind. intros (yt' & _ & Hrest)%bind_Ok.
  simpl in Hrest. by injection Hrest as _ <-.
Qed.

Lemma backward_finish_slots (ctx : context) (n : nat) (st : loop_state)
    (grads : list (option T)) :
  backward_finish ctx n st = Ok grads →
  ∃ grad_ts grad_y0 grad_tensor_params grad_params,
    grads = [None; grad_ts; None; None; None; Some grad_y0] ++ grad_params ∧
    reconstruct_grads (param_sep ctx) grad_tensor_params
      (replicate (n - length (saved_tensor_params ctx)) None) = Ok grad_params.
Proof.
  unfold backward_finish.
  intros (? & _ & (grad_y0 & _ & (grad_ts & _ & (grad_params & Hg & [= <-])%bind_Ok)
    %bind_Ok)%bind_Ok)%bind_Ok.
  eauto 10.
Qed.

(** C2, as amended: the tuple that the backward pass returns has one slot
    per input of [forward] (six, then one per entry of [allparams]); the
    slot of a parameter that is no tensor, and the slot of a tensor that
    does not require a gradient, is [None]; the slot of a tensor parameter
    that requires a gradient holds a gradient tensor. *)
Theorem backward_gradient_slots (pfcn : rhs) (ts : time_tensor)
    (fwd_options bck_options : gmap string optval) (nparams : nat) (y0 : T)
    (allparams : list param) (yt : list T) (ctx : context) (ge : bool)
    (grad_yt : list T) (grads : list (option T)) :
  value (forward pfcn ts fwd_options bck_options nparams y0 allparams) = Ok (yt, ctx) →
  backward ctx ge grad_yt = Ok grads →
  length grads = 6 + length allparams ∧
  (∀ p v, allparams !! p = Some (PNonTensor v) → grads !! (6 + p) = Some None) ∧
  (∀ p t, allparams !! p = Some (PTensorNoGrad t) → grads !! (6 + p) = Some None) ∧
  (∀ p t, allparams !! p = Some (PTensor t) → ∃ g, grads !! (6 + p) = Some (Some g)).
Proof.
  intros Hsep%forward_param_sep. unfold backward.
  intros (allparams' & _ & (st0 & _ & (st & _ & Hfin)%bind_Ok)%bind_Ok)%bind_Ok.
  apply backward_finish_slots in Hfin as (grad_ts & grad_y0 & gtp & gp & -> & Hgp).
  unfold reconstruct_grads in Hgp. rewrite Hsep in Hgp. simpl in Hgp.
  destruct (interleave_slots (λ g, is_Some g) (λ g, g = None) _ _ _ _ Hgp)
    as [Hlen Hslots].
  { apply Forall_fmap, Forall_true. intros g. by eexists. }
  { apply Forall_replicate. done. }
  rewrite length_fmap in Hlen.
  split_and!.
  - simpl. by rewrite Hlen.
  - intros p v Hp. destruct (Hslots p) as [_ Hnon].
    destruct Hnon as (x & Hx & ->); [by rewrite list_lookup_fmap, Hp|].
    by rewrite (lookup_app_r _ _ (6 + p)), Nat.add_sub' by (simpl; lia).
  - intros p t Hp. destruct (Hslots p) as [_ Hnon].
    destruct Hnon as (x & Hx & ->); [by rewrite list_lookup_fmap, Hp|].
    by rewrite (lookup_app_r _ _ (6 + p)), Nat.add_sub' by (simpl; lia).
  - intros p t Hp. destruct (Hslots p) as [Hten _].
    destruct Hten as (x & Hx & [g ->]); [by rewrite list_lookup_fmap, Hp|].
    exists g. by rewrite (lookup_app_r _ _ (6 + p)), Nat.add_sub' by (simpl; lia).
Qed.

End Gradients.

Section SingleTime.
Context `{Torch} `{Collaborators}.

Lemma interleave_gradients (f : T → option T) (ps : list param) : ∀ m,
  length (filter (λ p, is_tensor p = false) ps) ≤ m →
  interleave (is_tensor <$> ps) (f <$> variables_of ps) (replicate m None)
  = Ok ((λ p, match p with PTensor t => f t | _ => None end) <$> ps).
Proof.
  unfold variables_of.
  induction ps as [|[t|t|v] ps IH]; intros m Hm; [done| | |].
  - rewrite filter_cons_False in Hm by done.
    cbn [fmap list_fmap omap list_omap interleave is_tensor].
    by rewrite (IH m Hm).
  - rewrite filter_cons_True in Hm by done.
    rewrite length_cons in Hm. destruct m as [|m]; [lia|].
    cbn [fmap list_fmap omap list_omap interleave is_tensor replicate].
    rewrite (IH m) by lia. done.
  - rewrite filter_cons_True in Hm by done.
    rewrite length_cons in Hm. destruct m as [|m]; [lia|].
    cbn [fmap list_fmap omap list_omap interleave is_tensor replicate].
    rewrite (IH m) by lia. done.
Qed.

Lemma tensors_nontensors_length (ps : list param) :
  length (filter (λ p, is_tensor p = false) ps) = length ps - length (variables_of ps) ∧
  length (variables_of ps) ≤ length ps.
Proof.
  unfold variables_of. induction ps as [|[t|t|v] ps [IH1 IH2]]; [done| | |].
  - rewrite filter_cons_False by done. cbn [omap list_omap]. rewrite !length_cons. lia.
  - rewrite filter_cons_True by done. cbn [omap list_omap]. rewrite !length_cons. lia.
  - rewrite filter_cons_True by done. cbn [omap list_omap]. rewrite !length_cons. lia.
Qed.

(** X23: on a grid with a single time the backward pass has no sub-step
    and always returns: the upstream gradient for [y0], a zero for every
    tensor parameter that requires a gradient, [None] for every other
    parameter (a tensor that requires none, or no tensor). *)
Lemma backward_single_time (pfcn : rhs) (ts : time_tensor)
    (fwd_options bck_options : gmap string optval) (nparams : nat) (y0 : T)
    (allparams : list param) (y : T) (ctx : context) (ge : bool) (g t0 : T) :
  value (forward pfcn ts fwd_options bck_options nparams y0 allparams) = Ok ([y], ctx) →
  entries ts = [t0] → shape ts ≠ [] →
  backward ctx ge [g]
  = Ok ([None;
         (if requires_grad ts then Some (cat [reshape_flat (zeros_like t0)]) else None);
         None; None; None; Some g]
        ++ ((λ p, match p with
                  | PTensor t => Some (zeros_like t)
                  | _ => None
                  end) <$> allparams)).
Proof.
  intros Hfwd Hts Hshape.
  assert (ctx = {| bck_config := bck_config ctx; param_sep := separate allparams;
                   saved_ts := ts; saved_y0 := saved_y0 ctx;
                   saved_tensor_params := variables_of allparams;
                   ctx_pfcn := ctx_pfcn ctx; ctx_nparams := ctx_nparams ctx;
                   ctx_yt := [y]; ctx_ts_requires_grad := requires_grad ts |}) as ->.
  { revert Hfwd. unfold forward. rewrite value_bind.
    intros ([orig_method config] & _ & Hrest)%bind_Ok. revert Hrest.
    rewrite value_bind. intros (method & _ & Hrest)%bind_Ok. revert Hrest.
    rewrite value_bind. intros (_ & _ & Hrest)%bind_Ok. revert Hrest.
    rewrite value_bind. intros (solver & _ & Hrest)%bind_Ok. revert Hrest.
    rewrite value_bind. intros (_ & _ & Hrest)%bind_Ok. revert Hrest.
    rewrite value_bind. intros (yt' & _ & Hrest)%bind_Ok.
    simpl in Hrest. by injection Hrest as -> <-. }
  unfold backward. cbn [saved_tensor_params param_sep saved_ts ctx_nparams].
  pose proof (reconstruct_params_separate allparams) as Hrec.
  unfold get_tensor_params in Hrec. cbn [separate tensor_subset] in Hrec. rewrite Hrec. cbn [mbind result_bind].
  unfold backward_init, first_entry.
  cbn [saved_tensor_params param_sep saved_ts ctx_yt ctx_ts_requires_grad].
  rewrite Hts. destruct (shape ts) as [|d ds] eqn:Hsh; [done|].
  cbn [py_index length decide]. simpl.
  unfold backward_finish.
  cbn [saved_tensor_params param_sep saved_ts ctx_yt ctx_ts_requires_grad states grad_ts].
  destruct (tensors_nontensors_length allparams) as [Hnon Hle].
  assert (dLdp_slice (length (variables_of allparams))
            (initial_states y g (zeros_like t0) (variables_of allparams))
          = zeros_like <$> variables_of allparams) as Hslice.
  { unfold dLdp_slice, initial_states. case_decide as Hk.
    - rewrite length_app, length_fmap. simpl length.
      by replace (3 + length (variables_of allparams) - length (variables_of allparams))
        with 3 by lia.
    - destruct (variables_of allparams); [done|simpl in Hk; lia]. }
  assert (reconstruct_grads (separate allparams)
            (zeros_like <$> variables_of allparams)
            (replicate (length allparams - length (variables_of allparams)) None)
          = Ok ((λ p, match p with
                      | PTensor t => Some (zeros_like t)
                      | _ => None
                      end) <$> allparams)) as Hgrads.
  { unfold reconstruct_grads. cbn [separate tensor_positions].
    rewrite <- list_fmap_compose.
    apply (interleave_gradients (λ t, Some (zeros_like t))). lia. }
  rewrite Hts. cbn [reverse rev_append length Nat.sub seq for_range mbind result_bind
                     states grad_ts].
  assert (py_index (initial_states y g (zeros_like t0) (variables_of allparams))
            (Z.of_nat dLdt_index) = Ok (zeros_like t0)) as Hdt
    by by apply LinTorchFacts.py_index_nat.
  assert (py_index (initial_states y g (zeros_like t0) (variables_of allparams))
            (Z.of_nat dLdy_index) = Ok g) as Hdy
    by by apply LinTorchFacts.py_index_nat.
  destruct (requires_grad ts); simpl; rewrite Hslice, Hgrads, ?Hdt, Hdy; done.
Qed.

End SingleTime.

(** The sample context is the one [forward] builds. *)
Example forward_sample_context :
  value (forward Sample.growth (Sample.grid [0; 1; 2]%Z true) ∅ ∅ 2 [1%Z]
           Sample.sample_params)
  = Ok ([[1]; [3]; [9]]%Z, Sample.sample_context).
Proof. vm_compute. reflexivity. Qed.

Example backward_sample_gradients :
  backward Sample.sample_context false Sample.sample_grad_yt = Ok Sample.sample_gradients.
Proof. vm_compute. reflexivity. Qed.

(** C2, counterexample: the second parameter of the sample call is not a
    tensor, and its slot in the tuple returned by the backward pass (slot
    6 + 1) is [None], not a zero. *)
Lemma backward_nontensor_slot_is_None :
  Sample.sample_params !! 1 = Some (PNonTensor 7) ∧
  ∃ grads, backward Sample.sample_context false Sample.sample_grad_yt = Ok grads ∧
           grads !! (6 + 1) = Some None ∧
           ¬ ∃ zero, grads !! (6 + 1) = Some (Some zero).
Proof.
  split; [reflexivity|]. exists Sample.sample_gradients.
  split_and!; [by vm_compute|reflexivity|].
  intros [zero Hzero]. discriminate Hzero.
Qed.

(** C2, witness: a call with a tensor that requires a gradient, a number
    and a tensor that requires none. *)
Lemma backward_gradient_slots_witness :
  length SampleMore.mixed_gradients = 6 + length SampleMore.mixed_params ∧
  (∀ p v, SampleMore.mixed_params !! p = Some (PNonTensor v) →
          SampleMore.mixed_gradients !! (6 + p) = Some None) ∧
  (∀ p t, SampleMore.mixed_params !! p = Some (PTensorNoGrad t) →
          SampleMore.mixed_gradients !! (6 + p) = Some None) ∧
  (∀ p t, SampleMore.mixed_params !! p = Some (PTensor t) →
          ∃ g, SampleMore.mixed_gradients !! (6 + p) = Some (Some g)).
Proof.
  apply (backward_gradient_slots Sample.growth (Sample.grid [0; 1; 2]%Z true) ∅ ∅ 3
           [1%Z] SampleMore.mixed_params [[1]; [3]; [9]]%Z SampleMore.mixed_context
           false Sample.sample_grad_yt SampleMore.mixed_gradients).
  - vm_compute. reflexivity.
  - vm_compute. reflexivity.
Defined.

(** C8, witness: the first reverse sub-step of the sample backward pass. *)
Lemma backward_substep_witness :
  ∃ st st1 outs carried y g t_late t_early,
    for_range (backward_step Sample.sample_context false Sample.sample_params
                 Sample.sample_grad_yt [[2%Z]] (flip (Sample.grid [0; 1; 2]%Z true)))
      (seq 0 0) Sample.sample_entry = Ok st ∧
    time_gradient_step Sample.sample_context false Sample.sample_params
      Sample.sample_grad_yt [[2%Z]] (flip (Sample.grid [0; 1; 2]%Z true)) 0 st = Ok st1 ∧
    [[0]; [1]; [2]]%Z !! (3 - 1 - 0) = Some t_late ∧
    [[0]; [1]; [2]]%Z !! (3 - 2 - 0) = Some t_early ∧
    entries (slice2 (flip (Sample.grid [0; 1; 2]%Z true)) 0) = [t_late; t_early] ∧
    sub_solve Sample.sample_context false Sample.sample_params
      (flip (Sample.grid [0; 1; 2]%Z true)) 0 (states st1) [[2%Z]] = Ok outs ∧
    outs !! dLdy_index ≫= last = Some carried ∧
    [[1]; [3]; [9]]%Z !! (3 - 2 - 0) = Some y ∧
    Sample.sample_grad_yt !! (3 - 2 - 0) = Some g ∧
    states Sample.sample_after_first !! y_index = Some y ∧
    states Sample.sample_after_first !! dLdy_index = Some (add g carried).
Proof.
  apply (backward_substep_resets_y_and_adds_gradient Sample.sample_context false
           Sample.sample_params Sample.sample_grad_yt 0
           Sample.sample_entry Sample.sample_after_first).
  - reflexivity.
  - reflexivity.
  - simpl. lia.
  - vm_compute. reflexivity.
  - vm_compute. reflexivity.
Defined.

End XiTorchFacts.

(** * More properties of the editable-object protocol *)

Module DedupFacts.
Import LinTorch Dedup LinTorchFacts.

Lemma order_inv_nil : order_inv [] [] [].
Proof. split; try done; constructor. Qed.

Lemma sorted_snoc (l : list nat) (n : nat) :
  StronglySorted lt l → Forall (λ i, i < n) l → StronglySorted lt (l ++ [n]).
Proof.
  intros Hl Hn. apply StronglySorted_app_2; [|done|repeat constructor].
  intros x y Hx ->%list_elem_of_singleton.
  by eapply (proj1 (Forall_forall _ _) Hn).
Qed.

Lemma order_inv_found pre ids idxs maps p jfound :
  dedup_inv pre ids idxs maps → order_inv pre idxs maps →
  list_index (py_id p) ids = Some jfound →
  order_inv (pre ++ [p]) idxs (alter (λ g, g ++ [length pre]) jfound maps).
Proof.
  intros Hinv [Hs Hb Hg Hh] Hf%list_index_Some. split.
  - done.
  - eapply Forall_impl; [done|]. intros i Hi. cbv beta in Hi. rewrite length_app. simpl. lia.
  - apply Forall_lookup. intros j g Hj.
    destruct (decide (j = jfound)) as [->|Hne].
    + rewrite list_lookup_alter_eq in Hj.
      destruct (maps !! jfound) as [g0|] eqn:Hg0; simplify_eq/=.
      apply sorted_snoc; [by eapply (proj1 (Forall_lookup _ _) Hg)|].
      by eapply (dedup_inv_below _ _ _ _ Hinv).
    + rewrite list_lookup_alter_ne in Hj by done.
      by eapply (proj1 (Forall_lookup _ _) Hg).
  - intros j i g Hi Hj. destruct (decide (j = jfound)) as [->|Hne].
    + rewrite list_lookup_alter_eq in Hj.
      destruct (maps !! jfound) as [g0|] eqn:Hg0; simplify_eq/=.
      apply head_app_Some. left. by eapply Hh.
    + rewrite list_lookup_alter_ne in Hj by done. by eapply Hh.
Qed.

Lemma order_inv_new pre ids idxs maps p :
  dedup_inv pre ids idxs maps → order_inv pre idxs maps →
  order_inv (pre ++ [p]) (idxs ++ [length pre]) (maps ++ [[length pre]]).
Proof.
  intros Hinv [Hs Hb Hg Hh]. split.
  - by apply sorted_snoc.
  - rewrite length_app. simpl. apply Forall_app. split.
    + eapply Forall_impl; [done|]. intros i Hi. cbv beta in Hi. lia.
    + repeat constructor. lia.
  - apply Forall_app. split; [done|]. repeat constructor.
  - intros j i g Hi Hj.
    apply lookup_app_Some in Hi as [Hi|[Hle Hi]].
    + apply lookup_app_Some in Hj as [Hj|[Hle' Hj]]; [by eapply Hh|].
      apply lookup_lt_Some in Hi.
      rewrite (inv_len_idxs _ _ _ _ Hinv), <- (inv_len_maps _ _ _ _ Hinv) in Hi. lia.
    + apply list_lookup_singleton_Some in Hi as [Hj0 <-].
      apply lookup_app_Some in Hj as [Hj|[Hle' Hj]].
      * apply lookup_lt_Some in Hj.
        rewrite (inv_len_maps _ _ _ _ Hinv), <- (inv_len_idxs _ _ _ _ Hinv) in Hj. lia.
      * by apply list_lookup_singleton_Some in Hj as [_ <-].
Qed.

Lemma unique_loop_order ps : ∀ pre ids idxs maps,
  dedup_inv pre ids idxs maps → order_inv pre idxs maps →
  let '(ids', idxs', maps') := unique_loop ps (length pre) ids idxs maps in
  order_inv (pre ++ ps) idxs' maps'.
Proof.
  induction ps as [|p ps IH]; intros pre ids idxs maps Hinv Hord; simpl.
  - by rewrite app_nil_r.
  - replace (pre ++ p :: ps) with ((pre ++ [p]) ++ ps) by by rewrite <- app_assoc.
    replace (S (length pre)) with (length (pre ++ [p]))
      by (rewrite length_app; simpl; lia).
    destruct (list_index (py_id p) ids) as [jfound|] eqn:Hf.
    + apply IH; [by apply dedup_inv_found|by eapply order_inv_found].
    + apply IH; [by apply dedup_inv_new|by eapply order_inv_new].
Qed.

Lemma unique_of_order l : order_inv l (idxs_of l) (maps_of l).
Proof.
  pose proof (unique_loop_order l [] [] [] [] dedup_inv_nil order_inv_nil) as Hord.
  unfold idxs_of, maps_of, unique_of. simpl in Hord.
  by destruct (unique_loop l 0 [] [] []) as [[ids idxs] maps].
Qed.

(** The group that starts at [idxs[j]] is the ascending list of all the
    positions that hold the object of position [idxs[j]]. *)
Lemma group_of_first l (j : nat) (g : list nat) :
  maps_of l !! j = Some g →
  ∃ i0 x, idxs_of l !! j = Some i0 ∧ head g = Some i0 ∧ l !! i0 = Some x ∧
          StronglySorted lt g ∧ ∀ i, i ∈ g ↔ l !! i = Some x.
Proof.
  intros Hg. destruct (unique_of_inv l) as (ids & _ & Hinv).
  pose proof (unique_of_order l) as Hord.
  destruct (lookup_lt_is_Some_2 (idxs_of l) j) as [i0 Hi0].
  { rewrite (inv_len_idxs _ _ _ _ Hinv), <- (inv_len_maps _ _ _ _ Hinv).
    by eapply lookup_lt_Some. }
  destruct (inv_head _ _ _ _ Hinv _ _ Hi0) as (g' & Hg' & Hi0g). simplify_eq.
  destruct (inv_member _ _ _ _ Hinv _ _ _ Hg Hi0g) as (x & Hx & Hid).
  exists i0, x. split_and!; [done|by eapply (ord_head _ _ _ Hord)|done| |].
  - by eapply (proj1 (Forall_lookup _ _) (ord_groups _ _ _ Hord)).
  - intros i. split.
    + intros Hi. destruct (inv_member _ _ _ _ Hinv _ _ _ Hg Hi) as (y & Hy & Hidy).
      rewrite Hy. f_equal. apply py_id_inj. congruence.
    + intros Hi. destruct (inv_cover _ _ _ _ Hinv _ _ Hi) as (j' & g' & Hid' & Hg' & Hig').
      assert (j' = j) as -> by (eapply NoDup_lookup; eauto using inv_nodup).
      by simplify_eq.
Qed.

Lemma elem_of_concat {A} (x : A) (ls : list (list A)) :
  x ∈ concat ls ↔ ∃ l, l ∈ ls ∧ x ∈ l.
Proof.
  induction ls as [|l ls IH]; simpl.
  - split; [by intros ?%elem_of_nil|]. by intros (l & ?%elem_of_nil & _).
  - rewrite elem_of_app, IH. split.
    + intros [Hx|(l' & Hl' & Hx)]; [exists l|exists l']; split; try done;
        [by left|by right].
    + intros (l' & [->|Hl']%elem_of_cons & Hx); [by left|right; eauto].
Qed.

(** X2: the groups computed by [_get_unique_params_idxs] split the
    positions of the parameter list: each position is in one group and in
    it once; there is one group per unique parameter; a group starts at the
    first position of its object and lists, ascending, all the positions
    that hold that object. *)
Theorem maps_of_partition (l : list pyobj) :
  concat (maps_of l) ≡ₚ seq 0 (length l) ∧
  length (maps_of l) = length (idxs_of l) ∧
  ∀ j g, maps_of l !! j = Some g →
    ∃ i0 x, idxs_of l !! j = Some i0 ∧ head g = Some i0 ∧ l !! i0 = Some x ∧
            StronglySorted lt g ∧ ∀ i, i ∈ g ↔ l !! i = Some x.
Proof.
  destruct (unique_of_inv l) as (ids & _ & Hinv).
  pose proof (unique_of_order l) as Hord.
  split_and!.
  - apply NoDup_Permutation; [|apply NoDup_seq|].
    + pose proof (dedup_inv_disjoint _ _ _ _ Hinv) as Hdisj.
      pose proof (ord_groups _ _ _ Hord) as Hsorted.
      clear Hinv Hord. revert Hdisj Hsorted.
      generalize (maps_of l). intros maps.
      induction maps as [|g maps IH]; intros Hdisj Hsorted; [constructor|].
      apply Forall_cons in Hsorted as [Hg Hsorted]. simpl.
      apply NoDup_app. split_and!.
      * clear -Hg. induction Hg as [|i g _ IH Hi]; [constructor|].
        constructor; [|done].
        intros Hin. apply (proj1 (Forall_forall _ _) Hi) in Hin. lia.
      * intros i Hi [g' [Hg' Hi']]%elem_of_concat.
        apply list_elem_of_lookup in Hg' as [j Hj].
        by specialize (Hdisj 0 (S j) g g' i eq_refl Hj Hi Hi').
      * apply IH; [|done]. intros j1 j2 g1 g2 i H1 H2 Hi1 Hi2.
        by specialize (Hdisj (S j1) (S j2) g1 g2 i H1 H2 Hi1 Hi2) as [= ->].
    + intros i. rewrite elem_of_seq, elem_of_concat. split.
      * intros (g & Hg & Hi). apply list_elem_of_lookup in Hg as [j Hj].
        destruct (inv_member _ _ _ _ Hinv _ _ _ Hj Hi) as (x & Hx%lookup_lt_Some & _). lia.
      * intros [_ Hi]. destruct (lookup_lt_is_Some_2 l i) as [x Hx]; [lia|].
        destruct (inv_cover _ _ _ _ Hinv _ _ Hx) as (j & g & _ & Hg & Hig).
        exists g. split; [|done]. by eapply list_elem_of_lookup_2.
  - by rewrite (inv_len_maps _ _ _ _ Hinv), (inv_len_idxs _ _ _ _ Hinv).
  - apply group_of_first.
Qed.

Lemma py_index_beyond {A} (l : list A) (i : nat) :
  length l ≤ i → py_index l (Z.of_nat i) = Raise (IndexError "list index out of range").
Proof.
  intros Hi. unfold py_index. destruct (decide (Z.of_nat i < 0)%Z); [lia|].
  rewrite decide_False by lia. done.
Qed.

Lemma assign_loop_too_many maps (us : list pyobj) : ∀ (j : nat) (a : list pyobj),
  groups_below (length a) maps → j ≤ length maps → length maps < j + length us →
  assign_loop maps us j a = Raise (IndexError "list index out of range").
Proof.
  induction us as [|p us IH]; intros j a Hbelow Hj Hlen; simpl in *; [lia|].
  destruct (decide (j = length maps)) as [->|Hne].
  - by rewrite py_index_beyond.
  - destruct (lookup_lt_is_Some_2 maps j) as [g Hg]; [lia|].
    rewrite (proj2 (py_index_nat maps j g) Hg). simpl.
    destruct (assign_group_ok a g p) as (a1 & -> & Hlen1 & _); [by eauto|].
    simpl. apply IH; [by rewrite Hlen1|lia..].
Qed.

Section FirstOccurrences.
Context {St : Type} `{EditableModule St}.

Lemma idxs_of_first_occurrences (l : list pyobj) :
  ∃ us, select l (idxs_of l) = Ok us ∧ NoDup us ∧ (∀ x, x ∈ us ↔ x ∈ l) ∧
        StronglySorted lt (idxs_of l) ∧
        Forall2 (λ i x, l !! i = Some x ∧ ∀ i', i' < i → l !! i' ≠ Some x)
          (idxs_of l) us.
Proof.
  destruct (unique_of_inv l) as (ids & _ & Hinv).
  pose proof (unique_of_order l) as Hord.
  destruct (select_total l (idxs_of l)) as (us & Hsel & Hlen); [apply idxs_of_below|].
  pose proof (select_elim _ _ _ Hsel) as Hus.
  assert (∀ j i x, idxs_of l !! j = Some i → us !! j = Some x →
            l !! i = Some x ∧ ∀ i', i' < i → l !! i' ≠ Some x) as Hfirst.
  { intros j i x Hi Hx.
    pose proof (Forall2_lookup_lr _ _ _ _ _ _ Hus Hi Hx) as Hl. split; [done|].
    intros i' Hlt Hi'.
    destruct (lookup_lt_is_Some_2 (maps_of l) j) as [g Hg].
    { rewrite (inv_len_maps _ _ _ _ Hinv), <- (inv_len_idxs _ _ _ _ Hinv).
      by eapply lookup_lt_Some. }
    destruct (group_of_first l j g Hg) as (i0 & x0 & Hi0 & Hhd & Hx0 & Hsorted & Hmem).
    simplify_eq. rewrite Hl in Hx0. injection Hx0 as <-.
    apply head_Some in Hhd as [g' ->].
    apply Hmem in Hi'. apply StronglySorted_cons in Hsorted as [Hall _].
    apply elem_of_cons in Hi' as [->|Hi']; [lia|].
    apply (proj1 (Forall_forall _ _) Hall) in Hi'. lia. }
  exists us. split_and!; [done| | |by apply (ord_idxs _ _ _ Hord)|].
  - apply NoDup_alt. intros j1 j2 x Hj1 Hj2.
    destruct (lookup_lt_is_Some_2 (idxs_of l) j1) as [i1 Hi1];
      [rewrite <- Hlen; by eapply lookup_lt_Some|].
    destruct (lookup_lt_is_Some_2 (idxs_of l) j2) as [i2 Hi2];
      [rewrite <- Hlen; by eapply lookup_lt_Some|].
    destruct (Hfirst _ _ _ Hi1 Hj1) as [Hl1 Hmin1].
    destruct (Hfirst _ _ _ Hi2 Hj2) as [Hl2 Hmin2].
    assert (i1 = i2) as ->.
    { destruct (Nat.lt_trichotomy i1 i2) as [Hlt|[->|Hlt]]; [|done|].
      - by destruct (Hmin2 _ Hlt). - by destruct (Hmin1 _ Hlt). }
    eapply NoDup_lookup; [|done..].
    pose proof (ord_idxs _ _ _ Hord) as Hs. clear -Hs.
    induction Hs as [|i g _ IH Hi]; [constructor|]. constructor; [|done].
    intros Hin. apply (proj1 (Forall_forall _ _) Hi) in Hin. lia.
  - intros x. split.
    + intros [j Hj]%list_elem_of_lookup.
      destruct (lookup_lt_is_Some_2 (idxs_of l) j) as [i Hi];
        [rewrite <- Hlen; by eapply lookup_lt_Some|].
      destruct (Hfirst _ _ _ Hi Hj) as [Hl _]. by eapply list_elem_of_lookup_2.
    + intros [i Hi]%list_elem_of_lookup.
      destruct (inv_cover _ _ _ _ Hinv _ _ Hi) as (j & g & _ & Hg & Hig).
      destruct (group_of_first l j g Hg) as (i0 & x0 & Hi0 & _ & Hx0 & _ & Hmem).
      apply Hmem in Hig. rewrite Hi in Hig. injection Hig as <-.
      destruct (Forall2_lookup_l _ _ _ _ _ Hus Hi0) as (u & Hu & Hlu).
      rewrite Hx0 in Hlu. injection Hlu as <-. by eapply list_elem_of_lookup_2.
  - apply Forall2_same_length_lookup. split; [done|]. intros j i x. apply Hfirst.
Qed.

(** X1: the first [getuniqueparams] of a method returns every distinct
    tensor of [getparams] once, in the order of first occurrence: the
    selected positions ascend and each is the first position of its
    tensor. *)
Theorem getuniqueparams_first_occurrences (o : obj St) (m : string) :
  cached_idxs o m = None →
  let l := getparams (self_state o) m in
  ∃ o' us, getuniqueparams o m = (o', Ok us) ∧ NoDup us ∧
    (∀ x, x ∈ us ↔ x ∈ l) ∧ StronglySorted lt (idxs_of l) ∧
    Forall2 (λ i x, l !! i = Some x ∧ ∀ i', i' < i → l !! i' ≠ Some x)
      (idxs_of l) us.
Proof.
  intros Hnone l. destruct (getuniqueparams_first o m Hnone) as (o' & Hget & _).
  destruct (idxs_of_first_occurrences l) as (us & Hsel & Hrest).
  exists o', us. fold l in Hget. by rewrite Hget, Hsel.
Qed.

Lemma setmethodparams_attrs (o : obj St) m ps :
  attrs (setmethodparams o m ps).1 = attrs o.
Proof. unfold setmethodparams. by destruct (setparams _ _ _). Qed.

(** X3: the index is computed once.  After the first [getuniqueparams],
    whatever tensors are installed with [setmethodparams], a later
    [getuniqueparams] reads the positions that were first occurrences when
    the index was computed. *)
Theorem getuniqueparams_uses_first_index (o : obj St) (m : string) (ps : list pyobj) :
  cached_idxs o m = None →
  let o2 := (setmethodparams (getuniqueparams o m).1 m ps).1 in
  getuniqueparams o2 m
  = (o2, select (getparams (self_state o2) m) (idxs_of (getparams (self_state o) m))).
Proof.
  intros Hnone o2. destruct (getuniqueparams_first o m Hnone) as (o1 & Hget & _ & Hc).
  apply getuniqueparams_cached. eapply cached_from_attrs; [|done].
  unfold o2. rewrite Hget. apply setmethodparams_attrs.
Qed.

(** X5: the list that [setuniqueparams] hands to [setparams] has the
    cached number of parameters; every position of group [j] holds the
    [j]-th supplied tensor, or [None] when fewer than [j + 1] tensors were
    supplied. *)
Theorem expanded_params_by_group (o : obj St) (m : string) (l us : list pyobj) :
  cached_from o m l → length us ≤ length (idxs_of l) →
  ∃ allparams, expanded_params o m us = Ok allparams ∧
    length allparams = length l ∧
    ∀ j g i, maps_of l !! j = Some g → i ∈ g →
      allparams !! i = Some (default PyNone (us !! j)).
Proof.
  intros Hc Hlen. destruct (unique_of_inv l) as (ids & _ & Hinv).
  pose proof (dedup_inv_disjoint _ _ _ _ Hinv) as Hdisj.
  destruct (assign_loop_ok (maps_of l) us 0 (replicate (length l) PyNone))
    as (a & Ha & Hla & Hin & Hout).
  { rewrite length_replicate. by eapply dedup_inv_below. }
  { done. }
  { rewrite (inv_len_maps _ _ _ _ Hinv), <- (inv_len_idxs _ _ _ _ Hinv). simpl. lia. }
  rewrite length_replicate in Hla.
  exists a. rewrite (expanded_params_cached o m l us Hc). split_and!; [done..|].
  intros j g i Hg Hi. destruct (us !! j) as [u|] eqn:Hu; simpl.
  - by eapply (Hin j u g i).
  - rewrite Hout.
    + apply lookup_replicate_2.
      destruct (inv_member _ _ _ _ Hinv _ _ _ Hg Hi) as (x & Hx & _).
      by eapply lookup_lt_Some.
    + intros k g' Hk Hg' Hi'. simpl in Hg'.
      assert (j = k) as -> by (eapply Hdisj; eauto).
      apply lookup_ge_None in Hu. lia.
Qed.

Lemma setuniqueparams_overfull (o : obj St) (m : string) (l us : list pyobj) :
  cached_from o m l → length (idxs_of l) < length us →
  setuniqueparams o m us = (o, Raise (IndexError "list index out of range")).
Proof.
  intros Hc Hlen. destruct (unique_of_inv l) as (ids & _ & Hinv).
  unfold setuniqueparams. rewrite (expanded_params_cached o m l us Hc).
  rewrite assign_loop_too_many; [done| |lia|].
  - rewrite length_replicate. by eapply dedup_inv_below.
  - rewrite (inv_len_maps _ _ _ _ Hinv), <- (inv_len_idxs _ _ _ _ Hinv). simpl. lia.
Qed.

(** X6: with more tensors than unique parameters [setuniqueparams] raises
    [IndexError] before [setparams] is reached: the object is untouched.
    After a [getuniqueparams] this is the case whenever more tensors are
    given than it returned. *)
Theorem setuniqueparams_too_many (o : obj St) (m : string) (orig us : list pyobj) :
  cache_wf o m → (getuniqueparams o m).2 = Ok orig → length orig < length us →
  let o1 := (getuniqueparams o m).1 in
  setuniqueparams o1 m us = (o1, Raise (IndexError "list index out of range")).
Proof.
  intros Hwf Horig Hlen.
  destruct (getuniqueparams_again o m Hwf) as (o1 & l & orig' & Hget & _ & Hc & _ & Hlo).
  rewrite Hget in Horig |- *. simpl in Horig. injection Horig as ->. simpl.
  apply (setuniqueparams_overfull o1 m l us Hc). lia.
Qed.

Lemma missing_loop_filter (idparams : list nat) (names : list string)
    (params0 : list pyobj) (k : nat) : ∀ i,
  i + k = length params0 → length params0 ≤ length names →
  missing_loop idparams (py_id <$> params0) names params0 (seq i k)
  = Ok ((filter (λ np, py_id np.2 ∉ idparams) (zip (drop i names) (drop i params0))).*1,
        (filter (λ np, py_id np.2 ∉ idparams) (zip (drop i names) (drop i params0))).*2).
Proof.
  induction k as [|k IH]; intros i Hik Hlen.
  - rewrite (drop_ge params0) by lia. by rewrite zip_with_nil_r.
  - destruct (lookup_lt_is_Some_2 params0 i) as [p Hp]; [lia|].
    destruct (lookup_lt_is_Some_2 names i) as [n Hn]; [lia|].
    rewrite (drop_S _ _ _ Hp), (drop_S _ _ _ Hn).
    cbn [seq missing_loop zip_with].
    rewrite (proj2 (py_index_nat (py_id <$> params0) i (py_id p)))
      by by rewrite list_lookup_fmap, Hp.
    cbn [mbind result_bind].
    rewrite (IH (S i)) by lia.
    destruct (decide (py_id p ∈ idparams)) as [Hin|Hin].
    + by rewrite filter_cons_False by (simpl; tauto).
    + rewrite filter_cons_True by done.
      rewrite (proj2 (py_index_nat names i n) Hn).
      by rewrite (proj2 (py_index_nat params0 i p) Hp).
Qed.

(** X11: from the tensors that the method uses, [find_missing_parameters]
    reports exactly those that [getparams] does not return, compared by
    identity, each with its name and in the order listed (while the cached
    index is absent or that of the current identity pattern). *)
Theorem find_missing_parameters_reports (o : obj St) (m : string)
    (names : list string) (params0 : list pyobj) :
  cache_current o m → length params0 ≤ length names →
  let missing :=
    filter (λ np, np.2 ∉ getparams (self_state o) m) (zip names params0) in
  (find_missing_parameters (names, params0) o m).2 = Ok (missing.*1, missing.*2).
Proof.
  intros Hcur Hlen missing.
  set (l := getparams (self_state o) m).
  assert (∃ o', getuniqueparams o m = (o', select l (idxs_of l))) as [o' Hget].
  { destruct Hcur as [Hnone|Hc].
    - destruct (getuniqueparams_first o m Hnone) as (o' & Hget & _). by exists o'.
    - exists o. by apply getuniqueparams_cached. }
  destruct (idxs_of_first_occurrences l) as (us & Hsel & _ & Hmem & _).
  unfold find_missing_parameters. rewrite Hget, Hsel. cbn [snd mbind result_bind].
  rewrite length_fmap.
  rewrite (missing_loop_filter _ _ _ (length params0) 0) by lia.
  rewrite !drop_0.
  assert (filter (λ np : string * pyobj, py_id np.2 ∉ py_id <$> us) (zip names params0)
          = missing) as ->; [|done].
  unfold missing. apply list_filter_iff. intros [n p]. simpl.
  unfold l in Hmem. rewrite <- Hmem. split; intros Hp Hin; apply Hp.
  - by apply list_elem_of_fmap_2.
  - apply list_elem_of_fmap in Hin as (p' & Heq & Hin).
    by rewrite (py_id_inj _ _ Heq).
Qed.

(** X7: [useparams] with more tensors than unique parameters never runs
    the block: the [IndexError] of [setuniqueparams], which has not touched
    the object, is printed; the [finally] clause then installs the original
    unique parameters with [setuniqueparams], which succeeds and leaves the
    object as the [with] statement leaves it; and the statement raises
    contextlib's [RuntimeError("generator didn't yield")]. *)
Theorem useparams_too_many (o : obj St) (m : string) (params orig : list pyobj)
    (block : obj St → obj St * result unit) :
  cache_wf o m → (getuniqueparams o m).2 = Ok orig → length orig < length params →
  let r := useparams o m params block in
  let o1 := (getuniqueparams o m).1 in
  block_result r = None ∧
  outcome r = Raise (RuntimeError "generator didn't yield") ∧
  stderr r = [IndexError "list index out of range"] ∧
  setuniqueparams o1 m params = (o1, Raise (IndexError "list index out of range")) ∧
  (∃ n, (setuniqueparams o1 m orig).2 = Ok n) ∧
  final r = (setuniqueparams o1 m orig).1.
Proof.
  intros Hwf Horig Hlen r o1. subst r o1. unfold useparams.
  destruct (getuniqueparams_again o m Hwf) as (o1' & l & orig' & Hget & _ & Hc & _ & Hlo).
  rewrite Hget in Horig |- *. simpl in Horig. injection Horig as ->.
  pose proof (setuniqueparams_overfull o1' m l params Hc ltac:(lia)) as Hover.
  rewrite Hover. unfold enter_failed, useparams_exit. simpl.
  destruct (setuniqueparams_runs o1' m l orig Hc Hlo) as (a & _ & _ & _ & ->).
  simpl. split_and!; try done. by eexists.
Qed.

End FirstOccurrences.

Section LawfulMore.
Context {St : Type} `{Lawful St}.

(** X4: installing as many tensors as there are unique parameters and
    reading the unique parameters back gives the installed tensors. *)
Theorem getuniqueparams_setuniqueparams (o : obj St) (m : string)
    (orig us : list pyobj) :
  cache_wf o m → (getuniqueparams o m).2 = Ok orig → length us = length orig →
  ∃ o2 n, setuniqueparams (getuniqueparams o m).1 m us = (o2, Ok n) ∧
          getuniqueparams o2 m = (o2, Ok us).
Proof.
  intros Hwf Horig Hlen.
  destruct (getuniqueparams_again o m Hwf) as (o1 & l & orig' & Hget & _ & Hc & Hl & Hlo).
  rewrite Hget in Horig |- *. simpl in Horig. injection Horig as ->.
  apply (setuniqueparams_restores o1 m l us); [done..|congruence].
Qed.

(** X8: [useparams] with as many tensors as there are unique parameters
    runs the block on an object whose unique parameters are the supplied
    tensors; when the block returns normally nothing is printed and the
    [with] statement completes normally. *)
Theorem useparams_substitutes (o : obj St) (m : string) (params orig : list pyobj)
    (block : obj St → obj St * result unit) :
  cache_wf o m → (getuniqueparams o m).2 = Ok orig → length params = length orig →
  ∃ o2, getuniqueparams o2 m = (o2, Ok params) ∧
    block_result (useparams o m params block) = Some (block o2).2 ∧
    (keeps_layout m block → (block o2).2 = Ok tt →
     outcome (useparams o m params block) = Ok tt ∧
     stderr (useparams o m params block) = []).
Proof.
  intros Hwf Horig Hlen.
  destruct (getuniqueparams_again o m Hwf) as (o1 & l & orig' & Hget & _ & Hc & Hl & Hlo).
  rewrite Hget in Horig. simpl in Horig. injection Horig as ->.
  destruct (setuniqueparams_restores o1 m l params Hc Hl) as (o2 & n & Hset & Hg2);
    [congruence|].
  exists o2. split; [done|]. unfold useparams. rewrite Hget, Hset.
  pose proof (setuniqueparams_attrs _ _ _ _ _ Hset) as Hattrs.
  destruct (block o2) as [o3 rb] eqn:Hb. cbv beta iota zeta.
  split.
  - by destruct (useparams_exit o3 m (Some orig) _) as [[? ?] ?].
  - intros Hk Hrb. simpl in Hrb. subst rb.
    destruct (keeps_layout_cached m block o2 l Hk) as [Hc3 _];
      [by eapply cached_from_attrs|].
    rewrite Hb in Hc3. simpl in Hc3. unfold useparams_exit.
    destruct (setuniqueparams_runs o3 m l orig Hc3 Hlo) as (a & _ & _ & _ & ->).
    done.
Qed.

(** X9: while the cached index is the one of the current identity
    pattern, [useparams] restores [getparams] position by position, however
    the block ends. *)
Theorem useparams_restores_getparams (o : obj St) (m : string)
    (params : list pyobj) (block : obj St → obj St * result unit) :
  cache_current o m → keeps_layout m block →
  getparams (self_state (final (useparams o m params block))) m
  = getparams (self_state o) m.
Proof.
  intros Hcur Hk. set (l := getparams (self_state o) m).
  assert (∃ o1, getuniqueparams o m = (o1, select l (idxs_of l)) ∧
                self_state o1 = self_state o ∧ cached_from o1 m l)
    as (o1 & Hget & Hs & Hc).
  { destruct Hcur as [Hnone|Hc].
    - by apply getuniqueparams_first.
    - exists o. by rewrite (getuniqueparams_cached o m l Hc). }
  destruct (unique_of_inv l) as (ids & _ & Hinv).
  destruct (select_then_assign l ids _ _ Hinv) as (orig & Hsel & Hlo & Hassign).
  assert (∀ o', cached_from o' m l →
            length (getparams (self_state o') m) = length l →
            ∀ raised, getparams (self_state (useparams_exit o' m (Some orig) raised).1.1) m = l)
    as Hexit.
  { intros o' Hc' Hl' raised. unfold useparams_exit.
    destruct (setuniqueparams_runs o' m l orig Hc' Hlo) as (a & Ha & _ & _ & ->).
    rewrite (expanded_params_cached o' m l orig Hc'), Hassign in Ha.
    injection Ha as <-. simpl.
    rewrite getparams_setparams by lia. apply take_ge. lia. }
  assert (length l = length (getparams (self_state o1) m)) as Hl1 by by rewrite Hs.
  unfold useparams. rewrite Hget, Hsel.
  destruct (setuniqueparams_layout o1 m l params Hc Hl1) as (o2 & r2 & -> & Hattrs & Hlen2).
  assert (cached_from o2 m l) as Hc2 by by eapply cached_from_attrs.
  destruct r2 as [n|e2].
  - destruct (keeps_layout_cached m block o2 l Hk Hc2) as [Hc3 Hlen3].
    destruct (block o2) as [o3 rb]. simpl in Hc3, Hlen3. cbv beta iota zeta.
    specialize (Hexit o3 Hc3 ltac:(congruence)
                  (match rb with Ok _ => None | Raise e => Some e end)).
    by destruct (useparams_exit o3 m (Some orig) _) as [[? ?] ?].
  - unfold enter_failed. specialize (Hexit o2 Hc2 Hlen2 (Some e2)).
    by destruct (useparams_exit o2 m (Some orig) (Some e2)) as [[? ?] ?].
Qed.

Lemma useparams_final_unique (o : obj St) (m : string) (params orig : list pyobj)
    (block : obj St → obj St * result unit) :
  cache_wf o m → keeps_layout m block → (getuniqueparams o m).2 = Ok orig →
  (getuniqueparams (final (useparams o m params block)) m).2 = Ok orig.
Proof.
  intros Hwf Hk Horig.
  destruct (getuniqueparams_again o m Hwf)
    as (o0 & l & orig' & Hget & _ & Hc & Hlen & Hlo).
  rewrite Hget in Horig. simpl in Horig. injection Horig as ->.
  unfold useparams. rewrite Hget.
  destruct (setuniqueparams_layout o0 m l params Hc Hlen) as (o2 & r2 & -> & Hattrs & Hlen2).
  assert (cached_from o2 m l) as Hc2 by by eapply cached_from_attrs.
  destruct r2 as [n|e2].
  - destruct (keeps_layout_cached m block o2 l Hk Hc2) as [Hc3 Hlen3].
    destruct (block o2) as [o3 rb]. simpl in Hc3, Hlen3. cbv beta iota zeta.
    destruct (useparams_exit_restores o3 m l orig
                (match rb with Ok _ => None | Raise e => Some e end))
      as (o4 & printed & r & -> & Hg); [done|congruence|done|].
    simpl. by rewrite Hg.
  - unfold enter_failed.
    destruct (useparams_exit_restores o2 m l orig (Some e2))
      as (o4 & printed & r & -> & Hg); [done|congruence|done|].
    simpl. by rewrite Hg.
Qed.

(** X10: for a class that keeps the contract and a block that keeps the
    layout, an exception of the block that [except Exception] does not
    catch (KeyboardInterrupt, SystemExit) leaves the [with] statement,
    nothing is printed, and the object it leaves behind has the original
    unique parameters again. *)
Theorem useparams_exit_signal_restored (o : obj St) (m : string)
    (params orig : list pyobj) (block : obj St → obj St * result unit) (e : exn) :
  cache_wf o m → keeps_layout m block →
  (getuniqueparams o m).2 = Ok orig →
  block_result (useparams o m params block) = Some (Raise e) →
  is_Exception e = false →
  outcome (useparams o m params block) = Raise e ∧
  stderr (useparams o m params block) = [] ∧
  (getuniqueparams (final (useparams o m params block)) m).2 = Ok orig.
Proof.
  intros Hwf Hk Horig Hblock He.
  destruct (useparams_passes_exit_signal o m params block e Hwf Hk Hblock He) as [Ho Hs].
  split_and!; [done..|]. by apply useparams_final_unique.
Qed.

End LawfulMore.

(** Witnesses on the aliased module, whose ["forward"] reads
    [[Tensor 1; Tensor 1; Tensor 2]], and on [split_alias], whose one cached
    group holds two tensors. *)

Lemma getuniqueparams_first_occurrences_witness :
  let l := getparams (self_state aliased_module) "forward" in
  ∃ o' us, getuniqueparams aliased_module "forward" = (o', Ok us) ∧ NoDup us ∧
    (∀ x, x ∈ us ↔ x ∈ l) ∧ StronglySorted lt (idxs_of l) ∧
    Forall2 (λ i x, l !! i = Some x ∧ ∀ i', i' < i → l !! i' ≠ Some x)
      (idxs_of l) us.
Proof.
  apply (getuniqueparams_first_occurrences aliased_module "forward").
  reflexivity.
Defined.

Lemma getuniqueparams_uses_first_index_witness :
  let o2 := (setmethodparams (getuniqueparams aliased_module "forward").1 "forward"
               [Tensor 3; Tensor 4; Tensor 5]).1 in
  getuniqueparams o2 "forward"
  = (o2, select (getparams (self_state o2) "forward")
           (idxs_of (getparams (self_state aliased_module) "forward"))).
Proof.
  apply (getuniqueparams_uses_first_index aliased_module "forward"
           [Tensor 3; Tensor 4; Tensor 5]).
  reflexivity.
Defined.

Lemma expanded_params_by_group_witness :
  ∃ allparams,
    expanded_params (getuniqueparams aliased_module "forward").1 "forward" [Tensor 5]
    = Ok allparams ∧
    length allparams = length [Tensor 1; Tensor 1; Tensor 2] ∧
    ∀ j g i, maps_of [Tensor 1; Tensor 1; Tensor 2] !! j = Some g → i ∈ g →
      allparams !! i = Some (default PyNone ([Tensor 5] !! j)).
Proof.
  apply (expanded_params_by_group (getuniqueparams aliased_module "forward").1
           "forward" [Tensor 1; Tensor 1; Tensor 2] [Tensor 5]).
  - split_and!; vm_compute; reflexivity.
  - vm_compute. lia.
Defined.

Lemma setuniqueparams_too_many_witness :
  let o1 := (getuniqueparams aliased_module "forward").1 in
  setuniqueparams o1 "forward" [Tensor 5; Tensor 6; Tensor 7]
  = (o1, Raise (IndexError "list index out of range")).
Proof.
  apply (setuniqueparams_too_many aliased_module "forward" [Tensor 1; Tensor 2]
           [Tensor 5; Tensor 6; Tensor 7]).
  - left. reflexivity.
  - vm_compute. reflexivity.
  - simpl. lia.
Defined.

Lemma find_missing_parameters_reports_witness :
  let missing :=
    filter (λ np, np.2 ∉ getparams (self_state aliased_module) "forward")
      (zip ["self.a"; "self.b"; "self.c"] [Tensor 2; Tensor 5; Tensor 1]) in
  (find_missing_parameters
     (["self.a"; "self.b"; "self.c"], [Tensor 2; Tensor 5; Tensor 1])
     aliased_module "forward").2
  = Ok (missing.*1, missing.*2).
Proof.
  apply (find_missing_parameters_reports aliased_module "forward"
           ["self.a"; "self.b"; "self.c"] [Tensor 2; Tensor 5; Tensor 1]).
  - left. reflexivity.
  - simpl. lia.
Defined.

Lemma useparams_too_many_witness :
  let r := useparams split_alias "forward" [Tensor 5; Tensor 6] failing_block in
  let o1 := (getuniqueparams split_alias "forward").1 in
  block_result r = None ∧
  outcome r = Raise (RuntimeError "generator didn't yield") ∧
  stderr r = [IndexError "list index out of range"] ∧
  setuniqueparams o1 "forward" [Tensor 5; Tensor 6]
  = (o1, Raise (IndexError "list index out of range")) ∧
  (∃ n, (setuniqueparams o1 "forward" [Tensor 3]).2 = Ok n) ∧
  final r = (setuniqueparams o1 "forward" [Tensor 3]).1.
Proof.
  apply (useparams_too_many split_alias "forward" [Tensor 5; Tensor 6] [Tensor 3]
           failing_block).
  - right. exists [Tensor 1; Tensor 1]. split; [reflexivity|].
    split_and!; vm_compute; reflexivity.
  - vm_compute. reflexivity.
  - simpl. lia.
Defined.

Lemma getuniqueparams_setuniqueparams_witness :
  ∃ o2 n,
    setuniqueparams (getuniqueparams aliased_module "forward").1 "forward"
      [Tensor 5; Tensor 6] = (o2, Ok n) ∧
    getuniqueparams o2 "forward" = (o2, Ok [Tensor 5; Tensor 6]).
Proof.
  apply (getuniqueparams_setuniqueparams aliased_module "forward"
           [Tensor 1; Tensor 2] [Tensor 5; Tensor 6]).
  - left. reflexivity.
  - vm_compute. reflexivity.
  - reflexivity.
Defined.

Lemma useparams_substitutes_witness :
  ∃ o2, getuniqueparams o2 "forward" = (o2, Ok [Tensor 5; Tensor 6]) ∧
    block_result (useparams aliased_module "forward" [Tensor 5; Tensor 6] reading_block)
    = Some (reading_block o2).2 ∧
    (keeps_layout "forward" reading_block → (reading_block o2).2 = Ok tt →
     outcome (useparams aliased_module "forward" [Tensor 5; Tensor 6] reading_block)
     = Ok tt ∧
     stderr (useparams aliased_module "forward" [Tensor 5; Tensor 6] reading_block)
     = []).
Proof.
  apply (useparams_substitutes aliased_module "forward" [Tensor 5; Tensor 6]
           [Tensor 1; Tensor 2] reading_block).
  - left. reflexivity.
  - vm_compute. reflexivity.
  - reflexivity.
Defined.

Lemma useparams_restores_getparams_witness :
  getparams
    (self_state (final (useparams aliased_module "forward" [Tensor 5; Tensor 6]
                          failing_block))) "forward"
  = getparams (self_state aliased_module) "forward".
Proof.
  apply (useparams_restores_getparams aliased_module "forward" [Tensor 5; Tensor 6]
           failing_block).
  - left. reflexivity.
  - apply failing_block_keeps_layout.
Defined.

Lemma interrupted_block_keeps_layout (m : string) : keeps_layout m interrupted_block.
Proof.
  intros o. split_and!; [done..|]. apply slots_setparams_length.
Qed.

Lemma useparams_exit_signal_restored_witness :
  outcome (useparams aliased_module "forward" [Tensor 5; Tensor 6] interrupted_block)
  = Raise (BaseExceptionOnly "KeyboardInterrupt") ∧
  stderr (useparams aliased_module "forward" [Tensor 5; Tensor 6] interrupted_block) = [] ∧
  (getuniqueparams
     (final (useparams aliased_module "forward" [Tensor 5; Tensor 6] interrupted_block))
     "forward").2 = Ok [Tensor 1; Tensor 2].
Proof.
  apply (useparams_exit_signal_restored aliased_module "forward" [Tensor 5; Tensor 6]
           [Tensor 1; Tensor 2] interrupted_block (BaseExceptionOnly "KeyboardInterrupt")).
  - left. reflexivity.
  - apply interrupted_block_keeps_layout.
  - vm_compute. reflexivity.
  - vm_compute. reflexivity.
  - reflexivity.
Defined.

End DedupFacts.

(** * Properties of the diagnostic traversal *)

Module IntrospectionFacts.
Import Introspection.

Lemma balanced_both r1 r2 : balanced r1 → balanced r2 → balanced (both r1 r2).
Proof. unfold balanced, both. simpl. rewrite !length_app. lia. Qed.

Lemma get_tensors_of_balanced (v : pyval) :
  (∀ prefix max_depth, balanced (get_tensors_of v prefix max_depth)) ∧
  match v with
  | Iterable elems =>
      ∀ name max_depth i, balanced (get_each get_tensors_of name max_depth elems i)
  | _ => True
  end.
Proof.
  induction v as [k d IH|elems IH|] using pyval_ind'; [|split; [done|]|done].
  - split; [|done]. intros prefix max_depth. simpl.
    induction IH as [|[key elmt] d [Hobj Hiter] _ IHd]; [done|].
    simpl in *. apply balanced_both; [|done]. unfold get_item.
    destruct elmt as [[a| |] d'|elems|]; try done.
    case_decide; [apply Hobj|done].
  - intros name max_depth i. revert i.
    induction IH as [|elm elems [Hobj _] _ IHelems]; intros i; [done|].
    simpl. apply balanced_both; [|done]. unfold get_elem.
    destruct elm as [k d|?|]; try done. case_decide; [apply Hobj|done].
Qed.

(** Writing back what was collected. *)
Lemma set_tensors_of_collected (v : pyval) :
  (∀ prefix max_depth rest,
     set_tensors_of v ((get_tensors_of v prefix max_depth).1 ++ rest) max_depth
     = (v, rest, None)) ∧
  match v with
  | Iterable elems =>
      ∀ name max_depth i rest,
        set_each set_tensors_of max_depth elems
          ((get_each get_tensors_of name max_depth elems i).1 ++ rest)
        = (elems, rest, None)
  | _ => True
  end.
Proof.
  induction v as [k d IH|elems IH|] using pyval_ind'; [|split; [done|]|done].
  - split; [|done]. intros prefix max_depth rest. simpl.
    assert (set_items set_tensors_of max_depth d
              ((get_items get_tensors_of prefix max_depth d).1 ++ rest)
            = (d, rest, None)) as ->; [|done].
    induction IH as [|[key elmt] d [Hobj Hiter] _ IHd]; [done|].
    simpl. unfold both. simpl. rewrite <- app_assoc.
    unfold get_item, set_item.
    destruct elmt as [[a| |] d'|elems|].
    + simpl. by rewrite IHd.
    + rewrite Hobj. by rewrite IHd.
    + case_decide; [rewrite Hobj|]; simpl; by rewrite IHd.
    + rewrite Hiter. by rewrite IHd.
    + simpl. by rewrite IHd.
  - intros name max_depth i rest. revert i.
    induction IH as [|elm elems [Hobj _] _ IHelems]; intros i; [done|].
    simpl. unfold both. simpl. rewrite <- app_assoc.
    unfold get_elem, set_elem.
    destruct elm as [k d|?|]; [|simpl; by rewrite IHelems..].
    case_decide; [rewrite Hobj|]; simpl; by rewrite IHelems.
Qed.


Lemma installed_stop (o1 o2 : list pyval * list string) (ps : list pyval) :
  length ps < length o1.1 →
  both (installed o1 ps) o2 = installed (both o1 o2) ps ∧
  drop (length o1.1) ps = drop (length (o1.1 ++ o2.1)) ps ∧
  short (length o1.1) ps = short (length (o1.1 ++ o2.1)) ps.
Proof.
  intros Hlt. unfold installed, both, short. simpl. rewrite !length_app.
  rewrite !decide_True by lia. split_and!; [|by rewrite !drop_ge by lia|done].
  rewrite !take_ge by lia. rewrite drop_app_le by lia. by rewrite <- app_assoc.
Qed.

Lemma installed_continue (o1 o2 : list pyval * list string) (ps : list pyval) :
  length o1.1 ≤ length ps →
  both (installed o1 ps) (installed o2 (drop (length o1.1) ps))
  = installed (both o1 o2) ps ∧
  drop (length o2.1) (drop (length o1.1) ps) = drop (length (o1.1 ++ o2.1)) ps ∧
  short (length o2.1) (drop (length o1.1) ps) = short (length (o1.1 ++ o2.1)) ps.
Proof.
  intros Hle. unfold installed, both, short. simpl.
  rewrite !length_app, !length_drop. split_and!.
  - f_equal. rewrite (drop_ge o1.1) by lia. rewrite app_nil_r.
    rewrite <- take_take_drop, <- app_assoc.
    rewrite drop_app_ge by lia. done.
  - rewrite drop_drop. done.
  - repeat case_decide; try done; lia.
Qed.

Lemma short_0 (ps : list pyval) : short 0 ps = None.
Proof. unfold short. by rewrite decide_False by lia. Qed.

Lemma installed_nil (names : list string) (ps : list pyval) :
  installed ([], names) ps = ([], names).
Proof. unfold installed. simpl. by rewrite drop_nil. Qed.

Lemma short_lt (n : nat) (ps : list pyval) :
  length ps < n → short n ps = Some (IndexError "pop from empty list").
Proof. intros. unfold short. by rewrite decide_True. Qed.

Lemma short_ge (n : nat) (ps : list pyval) : ¬ length ps < n → short n ps = None.
Proof. intros. unfold short. by rewrite decide_False. Qed.

Ltac nothing_here := simpl; rewrite ?drop_0, ?short_0, ?installed_nil; done.

(** Installing parameters that are floating-point tensors: what is consumed,
    what is collected afterwards, and that writing the collected tensors
    back undoes it. *)
Lemma set_tensors_of_installs (v : pyval) :
  (∀ prefix max_depth ps, Forall is_float_tensor ps →
     let orig := get_tensors_of v prefix max_depth in
     ∃ v', set_tensors_of v ps max_depth
           = (v', drop (length orig.1) ps, short (length orig.1) ps) ∧
           get_tensors_of v' prefix max_depth = installed orig ps ∧
           (length orig.1 ≤ length ps →
            ∀ rest, set_tensors_of v' (orig.1 ++ rest) max_depth = (v, rest, None)) ∧
           match v, v' with
           | Obj k _, Obj k' _ => k = k'
           | _, _ => v' = v
           end) ∧
  match v with
  | Iterable elems =>
      ∀ name max_depth i ps, Forall is_float_tensor ps →
        let orig := get_each get_tensors_of name max_depth elems i in
        ∃ elems', set_each set_tensors_of max_depth elems ps
                  = (elems', drop (length orig.1) ps, short (length orig.1) ps) ∧
                  get_each get_tensors_of name max_depth elems' i = installed orig ps ∧
                  (length orig.1 ≤ length ps →
                   ∀ rest, set_each set_tensors_of max_depth elems' (orig.1 ++ rest)
                           = (elems, rest, None))
  | _ => True
  end.
Proof.
  induction v as [k d IH|elems IH|] using pyval_ind'.
  - split; [|done]. intros prefix max_depth ps Hps orig.
    assert (∃ d', set_items set_tensors_of max_depth d ps
                  = (d', drop (length orig.1) ps, short (length orig.1) ps) ∧
                  get_items get_tensors_of prefix max_depth d' = installed orig ps ∧
                  (length orig.1 ≤ length ps →
                   ∀ rest, set_items set_tensors_of max_depth d' (orig.1 ++ rest)
                           = (d, rest, None)))
      as (d' & Hset & Hget & Hback).
    2:{ exists (Obj k d'). simpl. rewrite Hset. split_and!; [done..| |done].
        intros Hle rest. by rewrite Hback. }
    unfold orig. simpl. clear orig. revert ps Hps.
    induction IH as [|[key elmt] d [Hobj Hiter] _ IHd]; intros ps Hps.
    { exists []. nothing_here. }
    simpl.
    set (name := prefix +:+ "." +:+ key).
    set (o2 := get_items get_tensors_of prefix max_depth d).
    set (o1 := get_item get_tensors_of name max_depth elmt).
    assert (∃ elmt',
              set_item set_tensors_of max_depth elmt ps
              = (elmt', drop (length o1.1) ps, short (length o1.1) ps) ∧
              get_item get_tensors_of name max_depth elmt' = installed o1 ps ∧
              (length o1.1 ≤ length ps →
               ∀ rest, set_item set_tensors_of max_depth elmt' (o1.1 ++ rest)
                       = (elmt, rest, None)))
      as (elmt' & -> & Hget1 & Hback1).
    { unfold o1, get_item, set_item. destruct elmt as [[a| |] d1|elems|].
      - destruct ps as [|p ps].
        { exists (Obj (KFloatTensor a) d1).
          split; [unfold short; by rewrite decide_True by (simpl; lia)|].
          split; [by unfold installed|]. simpl. lia. }
        apply Forall_cons in Hps as [Hp _]. exists p.
        split; [unfold short; by rewrite decide_False by (simpl; lia)|].
        destruct p as [[a'| |] dp|?|]; try done. split; [|done].
        unfold installed. simpl. by rewrite drop_nil.
      - destruct (Hobj name max_depth ps Hps)
          as ([k' d'|?|] & Hs & Hg & Hb & Hk); try done.
        simpl in Hk. subst k'. by exists (Obj KModule d').
      - case_decide.
        + destruct (Hobj name (max_depth - 1)%Z ps Hps)
            as ([k' d'|?|] & Hs & Hg & Hb & Hk); try done.
          simpl in Hk. subst k'. by exists (Obj KPlain d').
        + exists (Obj KPlain d1). nothing_here.
      - destruct (Hiter name max_depth 0 ps Hps) as (elems' & -> & Hg & Hb).
        exists (Iterable elems'). split_and!; [done..|].
        intros Hle rest. by rewrite Hb.
      - exists Atom. nothing_here. }
    destruct (decide (length ps < length o1.1)) as [Hshort|Hshort].
    + exists ((key, elmt') :: d). destruct (installed_stop o1 o2 ps Hshort) as (<- & Hd & Hs).
      rewrite (short_lt _ _ Hshort). split_and!.
      * by rewrite <- Hd, <- Hs, (short_lt _ _ Hshort).
      * simpl. fold name. by rewrite Hget1.
      * rewrite length_app. lia.
    + rewrite (short_ge _ _ Hshort).
      destruct (IHd (drop (length o1.1) ps)) as (d' & -> & Hget2 & Hback2).
      { by apply Forall_drop. }
      exists ((key, elmt') :: d').
      destruct (installed_continue o1 o2 ps) as (<- & <- & <-); [lia|].
      split_and!; [done| |].
      * simpl. fold name. by rewrite Hget1, Hget2.
      * rewrite length_app. intros Hle rest. simpl. rewrite <- app_assoc.
        rewrite Hback1 by lia. rewrite Hback2; [done|]. rewrite length_drop. fold o2. lia.
  - split.
    { intros prefix max_depth ps Hps orig. unfold orig. exists (Iterable elems).
      nothing_here. }
    intros name max_depth i ps Hps. simpl. revert i ps Hps.
    induction IH as [|elm elems [Hobj _] _ IHelems]; intros i ps Hps.
    { exists []. nothing_here. }
    simpl.
    set (o2 := get_each get_tensors_of name max_depth elems (S i)).
    set (o1 := get_elem get_tensors_of name max_depth i elm).
    assert (∃ elm',
              set_elem set_tensors_of max_depth elm ps
              = (elm', drop (length o1.1) ps, short (length o1.1) ps) ∧
              get_elem get_tensors_of name max_depth i elm' = installed o1 ps ∧
              (length o1.1 ≤ length ps →
               ∀ rest, set_elem set_tensors_of max_depth elm' (o1.1 ++ rest)
                       = (elm, rest, None)))
      as (elm' & -> & Hget1 & Hback1).
    { unfold o1, get_elem, set_elem. destruct elm as [k d|?|].
      - case_decide.
        + destruct (Hobj (name +:+ "[" +:+ pretty i +:+ "]") (max_depth - 1)%Z ps Hps)
            as ([k' d'|?|] & Hs & Hg & Hb & Hk); try done.
          simpl in Hk. subst k'. by exists (Obj k d').
        + exists (Obj k d). nothing_here.
      - eexists. nothing_here.
      - eexists. nothing_here. }
    destruct (decide (length ps < length o1.1)) as [Hshort|Hshort].
    + exists (elm' :: elems). destruct (installed_stop o1 o2 ps Hshort) as (<- & Hd & Hs).
      rewrite (short_lt _ _ Hshort). split_and!.
      * by rewrite <- Hd, <- Hs, (short_lt _ _ Hshort).
      * simpl. by rewrite Hget1.
      * rewrite length_app. lia.
    + rewrite (short_ge _ _ Hshort).
      destruct (IHelems (S i) (drop (length o1.1) ps)) as (elems' & -> & Hget2 & Hback2).
      { by apply Forall_drop. }
      exists (elm' :: elems').
      destruct (installed_continue o1 o2 ps) as (<- & <- & <-); [lia|].
      split_and!; [done| |].
      * simpl. by rewrite Hget1, Hget2.
      * rewrite length_app. intros Hle rest. simpl. rewrite <- app_assoc.
        rewrite Hback1 by lia. rewrite Hback2; [done|]. rewrite length_drop. fold o2. lia.
  - split; [|done]. intros prefix max_depth ps Hps orig. unfold orig. exists Atom.
    nothing_here.
Qed.





Lemma get_tensors_of_float (v : pyval) :
  (∀ prefix max_depth, Forall is_float_tensor (get_tensors_of v prefix max_depth).1) ∧
  match v with
  | Iterable elems =>
      ∀ name max_depth i,
        Forall is_float_tensor (get_each get_tensors_of name max_depth elems i).1
  | _ => True
  end.
Proof.
  induction v as [k d IH|elems IH|] using pyval_ind'; [|split; [done|]|done].
  - split; [|done]. intros prefix max_depth. simpl.
    induction IH as [|[key elmt] d [Hobj Hiter] _ IHd]; [done|].
    simpl in *. apply Forall_app. split; [|done]. unfold get_item.
    destruct elmt as [[a| |] d'|elems|]; try done.
    + by repeat constructor.
    + case_decide; [apply Hobj|done].
  - intros name max_depth i. revert i.
    induction IH as [|elm elems [Hobj _] _ IHelems]; intros i; [done|].
    simpl. apply Forall_app. split; [|done]. unfold get_elem.
    destruct elm as [k d|?|]; try done. case_decide; [apply Hobj|done].
Qed.

Lemma with_gradient_aligned {G} (gs : list (option G)) :
  ∀ (i : nat) (all_names : list string) (all_tensors : list pyval),
  i + length gs ≤ length all_names → i + length gs ≤ length all_tensors →
  with_gradient gs i all_names all_tensors
  = Ok (where_gradient gs (drop i all_names), where_gradient gs (drop i all_tensors)).
Proof.
  unfold where_gradient.
  induction gs as [|g gs IH]; intros i all_names all_tensors Hn Ht; [done|].
  simpl in Hn, Ht.
  destruct (lookup_lt_is_Some_2 all_names i) as [n Hni]; [lia|].
  destruct (lookup_lt_is_Some_2 all_tensors i) as [p Hpi]; [lia|].
  rewrite (drop_S _ _ _ Hni), (drop_S _ _ _ Hpi). simpl.
  destruct g as [g|].
  - rewrite (proj2 (LinTorchFacts.py_index_nat _ _ _) Hni).
    rewrite (proj2 (LinTorchFacts.py_index_nat _ _ _) Hpi). simpl.
    rewrite IH by lia. done.
  - rewrite IH by lia. done.
Qed.

Section OperatingFacts.
Context {Out G : Type}.
Context (method : pyval → pyval * result Out) (clone : pyval → pyval).
Context (autograd_grad : Out → list pyval → result (list (option G))).


End OperatingFacts.


End IntrospectionFacts.

(** * More properties of the integration front end and the backward pass *)

Module XiTorchMore.
Import XiTorch XiTorchFacts SampleMore.

Section FrontEndMore.
Context `{Torch} `{Collaborators}.

Lemma lift_bind {A B} (a : A) (f : A → run B) : lift (Ok a) ≫= f = f a.
Proof. unfold mbind, run_bind. simpl. by destruct (f a). Qed.

Lemma mret_bind {A B} (a : A) (f : A → run B) : mret a ≫= f = f a.
Proof. unfold mbind, run_bind. simpl. by destruct (f a). Qed.

Lemma emit_bind_events {B} (ev : event) (f : unit → run B) :
  events (emit ev ≫= f) = ev :: events (f tt).
Proof. done. Qed.

Lemma emit_bind_value {B} (ev : event) (f : unit → run B) :
  value (emit ev ≫= f) = value (f tt).
Proof. done. Qed.

(** The configuration that [forward] splits into the strategy name and the
    solver's options. *)
Lemma forward_pop (fwd_options : gmap string optval) :
  dict_pop (set_default_option {["method" := OStr "rk45"]} fwd_options) "method"
  = Ok (default (OStr "rk45") (fwd_options !! "method"), delete "method" fwd_options).
Proof.
  unfold dict_pop, set_default_option.
  assert ((fwd_options ∪ {["method" := OStr "rk45"]}) !! "method"
          = Some (default (OStr "rk45") (fwd_options !! "method"))) as ->.
  { rewrite lookup_union. destruct (fwd_options !! "method"); simpl;
      by rewrite lookup_singleton_eq. }
  do 2 f_equal. apply map_eq. intros k. destruct (decide (k = "method")) as [->|Hk].
  - by rewrite !lookup_delete_eq.
  - rewrite !lookup_delete_ne by done. rewrite lookup_union.
    rewrite lookup_singleton_ne by done. by destruct (fwd_options !! k).
Qed.

(** X16: [forward] looks the lower-cased strategy name up, ["rk45"] when
    the options name none, and runs that solver on the first [nparams]
    parameters with the forward options minus ["method"]; it does nothing
    else that is observable, returns the solver's trajectory, and stores as
    backward configuration the backward options over the forward ones. *)
Theorem forward_selects_solver (pfcn : rhs) (ts : time_tensor)
    (fwd_options bck_options : gmap string optval) (nparams : nat) (y0 : T)
    (allparams : list param) (name : string) (s : solver) :
  default (OStr "rk45") (fwd_options !! "method") = OStr name →
  solvers !! lower name = Some s →
  let r := forward pfcn ts fwd_options bck_options nparams y0 allparams in
  let solved := run_solver s pfcn ts y0 (take nparams allparams)
                  (delete "method" fwd_options) in
  events r = EvSelect (lower name) :: EvSolver s ts y0 :: events solved ∧
  fst <$> value r = value solved ∧
  ∀ yt ctx, value r = Ok (yt, ctx) →
    ctx_yt ctx = yt ∧
    bck_config ctx !! "method" = Some (default (OStr name) (bck_options !! "method")) ∧
    ∀ k, k ≠ "method" →
      bck_config ctx !! k = default (fwd_options !! k) (Some <$> bck_options !! k).
Proof.
  intros Hname Hs r solved. unfold r, forward.
  rewrite forward_pop, Hname, lift_bind. cbv beta iota zeta.
  rewrite mret_bind. rewrite Hs.
  split_and!.
  - rewrite emit_bind_events. f_equal. rewrite mret_bind, emit_bind_events. f_equal.
    fold solved. by apply events_bind_silent.
  - rewrite emit_bind_value, mret_bind, emit_bind_value. fold solved.
    rewrite value_bind. by destruct (value solved).
  - intros yt ctx. rewrite emit_bind_value, mret_bind, emit_bind_value. fold solved.
    rewrite value_bind. destruct (value solved) as [yt'|e]; [|done].
    simpl. intros [= <- <-]. simpl. split; [done|].
    unfold set_default_option. split.
    + rewrite !lookup_union. destruct (bck_options !! "method") as [v|]; simpl.
      * by destruct (fwd_options !! "method").
      * rewrite <- Hname. destruct (fwd_options !! "method"); simpl;
          by rewrite lookup_singleton_eq.
    + intros k Hk. rewrite !lookup_union. rewrite lookup_singleton_ne by done.
      destruct (bck_options !! k), (fwd_options !! k); done.
Qed.

(** X19: when the probe [fcn(ts[0], y0, *params)] answers a tensor with a
    tuple or a tuple with a tensor, [solve_ivp] raises its [RuntimeError]
    and has done nothing but the probe: no strategy is selected. *)
Theorem solve_ivp_kind_mismatch (fcn : rhs) (ts : time_tensor) (y0 : yval)
    (params : list param) (fwd_options bck_options : gmap string optval)
    (t0 : T) (dydt : yval) :
  length (shape ts) = 1 → first_entry ts = Ok t0 →
  value (debug_check fcn ts y0 params) = Ok tt →
  fcn t0 y0 params = Ok dydt → is_list dydt ≠ is_list y0 →
  let r := solve_ivp fcn ts y0 params fwd_options bck_options in
  value r = Raise (RuntimeError "The y0 and output of fcn must both be tuple or a tensor") ∧
  events r = events (debug_check fcn ts y0 params) ++ [EvFcn t0 y0 params].
Proof.
  intros Hdim Ht0 Hdbg Hf Hkind r. unfold r, solve_ivp, assert_runtime.
  rewrite bool_decide_eq_true_2 by done. cbv iota. rewrite Ht0.
  assert (negb (eqb (is_list y0) (is_list dydt)) = true) as Hneg.
  { destruct (is_list y0), (is_list dydt); done. }
  split.
  - rewrite value_bind, Hdbg. cbn [mbind result_bind].
    rewrite mret_bind, lift_bind, value_bind, call_value, Hf. cbn [mbind result_bind].
    by rewrite Hneg.
  - rewrite (events_bind_Ok _ _ tt Hdbg). f_equal.
    rewrite mret_bind, lift_bind.
    rewrite (events_bind_Ok _ _ dydt) by by rewrite call_value.
    by rewrite call_events, Hneg.
Qed.

(** X20: an exception of the probe [fcn(ts[0], y0, *params)] is the
    exception of [solve_ivp]; nothing else was done. *)
Theorem solve_ivp_fcn_raises (fcn : rhs) (ts : time_tensor) (y0 : yval)
    (params : list param) (fwd_options bck_options : gmap string optval)
    (t0 : T) (e : exn) :
  length (shape ts) = 1 → first_entry ts = Ok t0 →
  value (debug_check fcn ts y0 params) = Ok tt →
  fcn t0 y0 params = Raise e →
  let r := solve_ivp fcn ts y0 params fwd_options bck_options in
  value r = Raise e ∧
  events r = events (debug_check fcn ts y0 params) ++ [EvFcn t0 y0 params].
Proof.
  intros Hdim Ht0 Hdbg Hf r. unfold r, solve_ivp, assert_runtime.
  rewrite bool_decide_eq_true_2 by done. cbv iota. rewrite Ht0.
  split.
  - rewrite value_bind, Hdbg. cbn [mbind result_bind].
    rewrite mret_bind, lift_bind, value_bind, call_value, Hf. done.
  - rewrite (events_bind_Ok _ _ tt Hdbg). f_equal.
    rewrite mret_bind, lift_bind.
    rewrite (events_bind_Raise _ _ e) by by rewrite call_value.
    by rewrite call_events.
Qed.

(** X21: on an empty 1-dimensional time grid [solve_ivp] fails in [ts[0]]
    with an [IndexError], in debug mode or not, and has evaluated nothing. *)
Theorem solve_ivp_empty_grid (fcn : rhs) (ts : time_tensor) (y0 : yval)
    (params : list param) (fwd_options bck_options : gmap string optval) :
  length (shape ts) = 1 → entries ts = [] →
  let r := solve_ivp fcn ts y0 params fwd_options bck_options in
  events r = [] ∧ ∃ msg, value r = Raise (IndexError msg).
Proof.
  intros Hdim Hnil r.
  assert (first_entry ts = Raise (IndexError "list index out of range")) as Ht0.
  { unfold first_entry. rewrite Hnil. by destruct (shape ts). }
  unfold r, solve_ivp, debug_check. rewrite Ht0.
  rewrite bool_decide_eq_true_2 by done.
  destruct is_debug_enabled; split; eauto.
Qed.

End FrontEndMore.

Section BackwardMore.
Context `{Torch} `{Collaborators}.

Lemma py_setitem_same_length {A} (l l' : list A) (k : Z) (x : A) :
  py_setitem l k x = Ok l' → length l' = length l.
Proof.
  unfold py_setitem. case_decide; [|done]. intros [= <-]. by rewrite length_insert.
Qed.

Lemma grad_ts_kept_refl ctx st : grad_ts_kept ctx st st.
Proof. unfold grad_ts_kept. destruct (ctx_ts_requires_grad ctx); eauto. Qed.

Lemma grad_ts_kept_trans ctx st1 st2 st3 :
  grad_ts_kept ctx st1 st2 → grad_ts_kept ctx st2 st3 → grad_ts_kept ctx st1 st3.
Proof.
  unfold grad_ts_kept. destruct (ctx_ts_requires_grad ctx).
  - intros H12 H23 g Hg. destruct (H12 g Hg) as (g' & Hg' & Hl).
    destruct (H23 g' Hg') as (g'' & Hg'' & Hl'). exists g''. split; [done|lia].
  - congruence.
Qed.

Lemma time_gradient_step_kept ctx ge params grad_yt tps ts_flip i st st1 :
  time_gradient_step ctx ge params grad_yt tps ts_flip i st = Ok st1 →
  grad_ts_kept ctx st st1.
Proof.
  unfold time_gradient_step, grad_ts_kept.
  destruct (ctx_ts_requires_grad ctx); [|by intros [= <-]].
  intros (? & _ & (? & _ & ([[[? ?] ?] ?] & _ & (? & _ & (? & _ & (? & _ &
    (? & _ & (g1 & Hg1 & [= <-])%bind_Ok)%bind_Ok)%bind_Ok)%bind_Ok)%bind_Ok)%bind_Ok)%bind_Ok)%bind_Ok.
  intros g Hg. rewrite Hg in Hg1.
  apply fmap_Ok in Hg1 as (g' & Hset & ->). exists g'. split; [done|].
  by eapply py_setitem_same_length.
Qed.

Lemma backward_loop_kept ctx ge params grad_yt tps ts_flip (range : list nat) :
  ∀ st0 st,
  for_range (backward_step ctx ge params grad_yt tps ts_flip) range st0 = Ok st →
  grad_ts_kept ctx st0 st.
Proof.
  induction range as [|i range IH]; intros st0 st; simpl.
  - intros [= <-]. apply grad_ts_kept_refl.
  - intros (st1 & Hstep & Hrest)%bind_Ok.
    eapply grad_ts_kept_trans; [|by apply IH].
    apply backward_step_inv in Hstep
      as (st' & ? & ? & ? & ? & ? & Hst' & _ & _ & _ & _ & _ & _ & _ & _ & Hg).
    apply time_gradient_step_kept in Hst'. unfold grad_ts_kept in *.
    destruct (ctx_ts_requires_grad ctx); by rewrite Hg.
Qed.

(** X22: the tuple that [backward] returns starts with the six slots of
    [pfcn], [ts], [fwd_options], [bck_options], [nparams] and [y0]: only the
    slots of [ts] and [y0] can hold a gradient; the slot of [y0] always
    does, and the slot of [ts] holds the concatenation of one piece per
    time when [ts] required a gradient, and [None] when it did not. *)
Theorem backward_leading_slots (ctx : context) (ge : bool) (grad_yt : list T)
    (grads : list (option T)) :
  backward ctx ge grad_yt = Ok grads →
  grads !! 0 = Some None ∧ grads !! 2 = Some None ∧
  grads !! 3 = Some None ∧ grads !! 4 = Some None ∧
  (∃ grad_y0, grads !! 5 = Some (Some grad_y0)) ∧
  if ctx_ts_requires_grad ctx
  then ∃ pieces, length pieces = length (entries (saved_ts ctx)) ∧
                 grads !! 1 = Some (Some (cat pieces))
  else grads !! 1 = Some None.
Proof.
  unfold backward.
  intros (allparams & _ & (st0 & Hinit & (st & Hloop & Hfin)%bind_Ok)%bind_Ok)%bind_Ok.
  apply backward_loop_kept in Hloop.
  assert (grad_ts st0 = if ctx_ts_requires_grad ctx
                        then Some (replicate (length (entries (saved_ts ctx))) None)
                        else None) as Hg0.
  { unfold backward_init in Hinit.
    by apply bind_Ok in Hinit as (? & _ & (? & _ & (? & _ & [= <-])%bind_Ok)%bind_Ok). }
  unfold backward_finish in Hfin.
  apply bind_Ok in Hfin as (gts & Hgts & (grad_y0 & _ & (gts' & Hgts' &
    (grad_params & _ & [= <-])%bind_Ok)%bind_Ok)%bind_Ok).
  split_and!; try done; [by eexists|]. simpl.
  unfold grad_ts_kept in Hloop. destruct (ctx_ts_requires_grad ctx).
  - destruct (Hloop _ Hg0) as (g & Hg & Hlen). rewrite length_replicate in Hlen.
    rewrite Hg in Hgts.
    apply bind_Ok in Hgts as (dLdt & _ & (g' & Hset & ->)%fmap_Ok).
    apply py_setitem_same_length in Hset.
    destruct (mapM _ g') as [pieces|] eqn:Hpieces; [|done].
    injection Hgts' as <-. exists pieces. split; [|done].
    apply length_mapM in Hpieces. lia.
  - injection Hgts as <-. rewrite Hloop, Hg0 in Hgts'. by injection Hgts' as <-.
Qed.

End BackwardMore.

Import XiTorch.Sample.

Lemma forward_selects_solver_witness :
  let r := forward growth unit_grid {["method" := OStr "RK4"]} ∅ 1 one rate in
  let solved := run_solver rk4_ivp growth unit_grid one (take 1 rate)
                  (delete "method" {["method" := OStr "RK4"]}) in
  events r = EvSelect (lower "RK4") :: EvSolver rk4_ivp unit_grid one :: events solved ∧
  fst <$> value r = value solved ∧
  ∀ yt ctx, value r = Ok (yt, ctx) →
    ctx_yt ctx = yt ∧
    bck_config ctx !! "method"
    = Some (default (OStr "RK4") ((∅ : gmap string optval) !! "method")) ∧
    ∀ k, k ≠ "method" →
      bck_config ctx !! k
      = default (({["method" := OStr "RK4"]} : gmap string optval) !! k)
          (Some <$> (∅ : gmap string optval) !! k).
Proof.
  apply (forward_selects_solver growth unit_grid {["method" := OStr "RK4"]} ∅ 1 one
           rate "RK4" rk4_ivp).
  - vm_compute. reflexivity.
  - vm_compute. reflexivity.
Defined.

Lemma solve_ivp_kind_mismatch_witness :
  let r := solve_ivp wrong_kind unit_grid (YTensor one) rate ∅ ∅ in
  value r = Raise (RuntimeError "The y0 and output of fcn must both be tuple or a tensor") ∧
  events r = events (debug_check wrong_kind unit_grid (YTensor one) rate)
             ++ [EvFcn [0%Z] (YTensor one) rate].
Proof.
  apply (solve_ivp_kind_mismatch wrong_kind unit_grid (YTensor one) rate ∅ ∅
           [0%Z] (YList [])).
  - reflexivity.
  - reflexivity.
  - reflexivity.
  - reflexivity.
  - simpl. discriminate.
Defined.

Lemma solve_ivp_fcn_raises_witness :
  let r := solve_ivp growth unit_grid (YTensor one) [] ∅ ∅ in
  value r = Raise (TypeError "growth(t, y, a)") ∧
  events r = events (debug_check growth unit_grid (YTensor one) [])
             ++ [EvFcn [0%Z] (YTensor one) []].
Proof.
  apply (solve_ivp_fcn_raises growth unit_grid (YTensor one) [] ∅ ∅
           [0%Z] (TypeError "growth(t, y, a)")).
  - reflexivity.
  - reflexivity.
  - reflexivity.
  - reflexivity.
Defined.

Lemma solve_ivp_empty_grid_witness :
  let r := solve_ivp growth empty_grid (YTensor one) rate ∅ ∅ in
  events r = [] ∧ ∃ msg, value r = Raise (IndexError msg).
Proof.
  apply (solve_ivp_empty_grid growth empty_grid (YTensor one) rate ∅ ∅).
  - reflexivity.
  - reflexivity.
Defined.

Lemma backward_leading_slots_witness :
  sample_gradients !! 0 = Some None ∧ sample_gradients !! 2 = Some None ∧
  sample_gradients !! 3 = Some None ∧ sample_gradients !! 4 = Some None ∧
  (∃ grad_y0, sample_gradients !! 5 = Some (Some grad_y0)) ∧
  if ctx_ts_requires_grad sample_context
  then ∃ pieces, length pieces = length (entries (saved_ts sample_context)) ∧
                 sample_gradients !! 1 = Some (Some (cat pieces))
  else sample_gradients !! 1 = Some None.
Proof.
  apply (backward_leading_slots sample_context true sample_grad_yt sample_gradients).
  vm_compute. reflexivity.
Defined.

Lemma backward_single_time_witness :
  backward single_time_context true [[5%Z]]
  = Ok ([None;
         (if requires_grad (grid [0%Z] true)
          then Some (cat [reshape_flat (zeros_like [0%Z])]) else None);
         None; None; None; Some [5%Z]]
        ++ ((λ p, match p with
                  | PTensor t => Some (zeros_like t)
                  | _ => None
                  end) <$> mixed_params)).
Proof.
  apply (backward_single_time growth (grid [0%Z] true) ∅ ∅ 3 one mixed_params one
           single_time_context true [5%Z] [0%Z]).
  - vm_compute. reflexivity.
  - reflexivity.
  - discriminate.
Defined.

End XiTorchMore.
